(** * Jaeger storage core: adjuster, integration harness, TLS cipher lookup

    A shallow embedding of
    - [model/adjuster]: the OTel tag adjuster ([OTelTagAdjuster]), on spans
      held by value, on spans that share processes through pointers, and on
      spans whose tags are slices of arrays they may share,
    - [plugin/storage/integration/integration.go]: the helpers of the
      storage conformance harness ([skipIfNeeded], [waitForCondition],
      [correctTime], [writeTrace], the large-trace test and the
      latest-probability test),
    - [pkg/config/tlscfg]: [CipherSuiteNamesToIDs], [VersionNameToID] and the
      table test of the former,
    with the parts of Go's [strings], [time], [unicode/utf8] and [regexp]
    they call, followed by the properties the specification states about
    them.

    Go strings are byte sequences; they are embedded as [string] (a sequence
    of 8-bit [ascii]).  Integers are embedded as [Z], with the wrap-around
    written out where a conversion can wrap.  A nil error is [None]. *)

From Stdlib Require Import ZArith Ascii String DecimalString Lia.
From stdpp Require Import base option list sorting strings gmap.

Local Open Scope string_scope.
Local Open Scope Z_scope.
Local Open Scope list_scope.

(** [simpl] may unfold an append whose first argument starts with a byte. *)
#[local] Arguments String.append !_ _ : simpl nomatch.

(* ===================================================================== *)
(** * Part I: the embedding                                               *)
(* ===================================================================== *)

(** ** Package [model] (data model) *)

Module model.

(** Modelled from the spec: the type declarations of package [model] are
    not among the sources; section 3 gives a KeyValue a Key and a typed
    Value (string, bool, int64, float64, binary).  A float64 is kept as
    its 64 bits, a binary value as its bytes. *)
Inductive Value : Type :=
| VStr (s : string)
| VBool (b : bool)
| VInt64 (n : Z)
| VFloat64 (bits : Z)
| VBinary (bytes : string).

Record KeyValue : Type := mkKeyValue { Key : string; Val : Value }.

(** [type KeyValues []KeyValue] *)
Abbreviation KeyValues := (list KeyValue).

Record TraceID : Type := NewTraceID { High : Z; Low : Z }.

Module Process.
Record t : Type := mk { ServiceName : string; Tags : KeyValues }.
End Process.

(** By section 3 of the specification a span owns its tags and its
    process, so a span holds them by value.  [StartTime] and [Duration] are
    in nanoseconds. *)
Module Span.
Record t : Type := mk {
    TraceID : model.TraceID;
    SpanID : Z;
    OperationName : string;
    StartTime : Z;
    Duration : Z;
    Tags : KeyValues;
    Process : Process.t
  }.
End Span.

Module Trace.
Record t : Type := mk { Spans : list Span.t; Warnings : list string }.
End Trace.

(** The order on tags that [Sort] sorts by: the byte-wise order of Go
    strings on the keys. *)
Definition key_le (a b : KeyValue) : Prop := String.leb (Key a) (Key b) = true.

Fixpoint insert_by_key (kv : KeyValue) (kvs : KeyValues) : KeyValues :=
  match kvs with
  | [] => [kv]
  | x :: rest =>
      if String.leb (Key kv) (Key x) then kv :: x :: rest
      else x :: insert_by_key kv rest
  end.

(** Modelled from the spec: [KeyValues.Sort] of package [model] is not
    among the sources; section 4.1 says that Process.Tags is stably sorted
    by Key.  This is the stable insertion sort on the keys. *)
Fixpoint Sort (kvs : KeyValues) : KeyValues :=
  match kvs with
  | [] => []
  | kv :: rest => insert_by_key kv (Sort rest)
  end.

End model.

Import model.

Global Instance Value_eq_dec : EqDecision Value.
Proof. solve_decision. Defined.
Global Instance KeyValue_eq_dec : EqDecision KeyValue.
Proof. solve_decision. Defined.
Global Instance TraceID_eq_dec : EqDecision TraceID.
Proof. solve_decision. Defined.
Global Instance key_le_dec a b : Decision (key_le a b).
Proof. unfold key_le. apply _. Defined.

(** ** Package [adjuster]: the OTel tag adjuster *)

Module adjuster.

(** Modelled from the spec: the constants of package [otelsemconv] are not
    among the sources; section 4.1 lists the five recognized keys. *)
Definition TelemetrySDKLanguageKey : string := "telemetry.sdk.language".
Definition TelemetrySDKNameKey : string := "telemetry.sdk.name".
Definition TelemetrySDKVersionKey : string := "telemetry.sdk.version".
Definition TelemetryDistroNameKey : string := "telemetry.distro.name".
Definition TelemetryDistroVersionKey : string := "telemetry.distro.version".

(** [var otelLibraryKeys = map[string]struct{}{...}] *)
Definition otelLibraryKeys : gset string :=
  {[ TelemetrySDKLanguageKey; TelemetrySDKNameKey; TelemetrySDKVersionKey;
     TelemetryDistroNameKey; TelemetryDistroVersionKey ]}.

(** [type Adjuster]: a trace goes in, the trace and an error come out
    ([None] is Go's nil error). *)
Definition Adjuster : Type := Trace.t → Trace.t * option string.

(** The registers of the loop of [adjustSpanTags]: the backing array of
    [span.Tags], the write index [newI] and [span.Process.Tags]. *)
Record loop_state : Type := mkLoop {
  tags_arr : KeyValues;
  newI : nat;
  process_tags : KeyValues
}.

(** One iteration of [for i, tag := range span.Tags]: the tag is read from
    the array at [i]; a library tag is appended to the process tags, any
    other tag is written back at [newI] (only when [i != newI]). *)
Definition loop_body (st : loop_state) (i : nat) : loop_state :=
  match tags_arr st !! i with
  | None => st
  | Some tag =>
      if decide (Key tag ∈ otelLibraryKeys) then
        mkLoop (tags_arr st) (newI st) (process_tags st ++ [tag])
      else
        mkLoop (if decide (i ≠ newI st) then <[newI st := tag]> (tags_arr st)
                else tags_arr st)
               (S (newI st)) (process_tags st)
  end.

(** [adjustSpanTags]: the loop runs over the indices of the original
    slice, then [span.Tags = span.Tags[:newI]]. *)
Definition adjustSpanTags (span : Span.t) : Span.t :=
  let st0 := mkLoop (Span.Tags span) 0 (Process.Tags (Span.Process span)) in
  let st := foldl loop_body st0 (seq 0 (length (Span.Tags span))) in
  Span.mk (Span.TraceID span) (Span.SpanID span) (Span.OperationName span)
          (Span.StartTime span) (Span.Duration span)
          (take (newI st) (tags_arr st))
          (Process.mk (Process.ServiceName (Span.Process span)) (process_tags st)).

(** [model.KeyValues(span.Process.Tags).Sort()] *)
Definition sortProcessTags (span : Span.t) : Span.t :=
  Span.mk (Span.TraceID span) (Span.SpanID span) (Span.OperationName span)
          (Span.StartTime span) (Span.Duration span) (Span.Tags span)
          (Process.mk (Process.ServiceName (Span.Process span))
                      (Sort (Process.Tags (Span.Process span)))).

(** [OTelTagAdjuster]: every span of the trace is adjusted and its process
    tags are sorted; the trace is returned with a nil error. *)
Definition OTelTagAdjuster : Adjuster := λ trace,
  (Trace.mk ((λ span, sortProcessTags (adjustSpanTags span)) <$> Trace.Spans trace)
            (Trace.Warnings trace),
   None).

(** The span of scenario 1 of section 8 (adjuster promotion). *)
Definition scenario_span : Span.t :=
  Span.mk (NewTraceID 0 1) 7 "op" 0 0
    [ mkKeyValue "http.method" (VStr "GET");
      mkKeyValue "telemetry.sdk.name" (VStr "x");
      mkKeyValue "telemetry.sdk.version" (VStr "1.2");
      mkKeyValue "db.system" (VStr "pg") ]
    (Process.mk "svc" []).

(** What the loop computes, as two filters. *)
Definition kept (tags : KeyValues) : KeyValues :=
  filter (λ kv, Key kv ∉ otelLibraryKeys) tags.
Definition promoted (tags : KeyValues) : KeyValues :=
  filter (λ kv, Key kv ∈ otelLibraryKeys) tags.

End adjuster.

(** ** The adjuster on spans that share processes

    In Go a span holds [Process *Process] and a trace holds [[]*Span]: two
    spans of a trace may point to one process.  Section 3 of the
    specification rules this out (a span owns its process), and the
    embedding above follows it.  The embedding below keeps the pointers: the
    processes live in a store and a span holds an address. *)

Module shared.

(** The store of processes; an address outside it is the nil pointer. *)
Abbreviation store := (list Process.t).

Module Span.
Record t : Type := mk {
  TraceID : model.TraceID;
  SpanID : Z;
  OperationName : string;
  StartTime : Z;
  Duration : Z;
  Tags : KeyValues;
  Process : nat
}.
End Span.

Module Trace.
Record t : Type := mk { Spans : list Span.t; Warnings : list string }.
End Trace.

(** The span as a value: the process is read from the store. *)
Definition deref (heap : store) (span : Span.t) : option model.Span.t :=
  proc ← heap !! Span.Process span;
  Some (model.Span.mk (Span.TraceID span) (Span.SpanID span) (Span.OperationName span)
          (Span.StartTime span) (Span.Duration span) (Span.Tags span) proc).

(** [span.Tags = tags] *)
Definition with_Tags (span : Span.t) (tags : KeyValues) : Span.t :=
  Span.mk (Span.TraceID span) (Span.SpanID span) (Span.OperationName span)
          (Span.StartTime span) (Span.Duration span) tags (Span.Process span).

(** The body of the loop of [OTelTagAdjuster] for one span:
    [adjustSpanTags(span)] with the same loop as above, now writing
    [span.Process.Tags] in the store, then the sort in place.  [None] is the
    panic of a nil [span.Process]. *)
Definition adjustSpan (span : Span.t) (heap : store) : option (Span.t * store) :=
  proc ← heap !! Span.Process span;
  let st0 := adjuster.mkLoop (Span.Tags span) 0 (Process.Tags proc) in
  let st := foldl adjuster.loop_body st0 (seq 0 (length (Span.Tags span))) in
  Some (Span.mk (Span.TraceID span) (Span.SpanID span) (Span.OperationName span)
          (Span.StartTime span) (Span.Duration span)
          (take (adjuster.newI st) (adjuster.tags_arr st))
          (Span.Process span),
        <[Span.Process span :=
            Process.mk (Process.ServiceName proc) (Sort (adjuster.process_tags st))]> heap).

(** [for _, span := range trace.Spans] *)
Fixpoint adjustSpans (spans : list Span.t) (heap : store) : option (list Span.t * store) :=
  match spans with
  | [] => Some ([], heap)
  | span :: rest =>
      '(span', heap') ← adjustSpan span heap;
      '(rest', heap'') ← adjustSpans rest heap';
      Some (span' :: rest', heap'')
  end.

(** [OTelTagAdjuster] on a trace and the store its spans point into: the
    trace, the nil error and the store afterwards. *)
Definition OTelTagAdjuster (trace : Trace.t) (heap : store)
    : option (Trace.t * option string * store) :=
  '(spans', heap') ← adjustSpans (Trace.Spans trace) heap;
  Some (Trace.mk spans' (Trace.Warnings trace), None, heap').

(** Every span points to a process of the store. *)
Definition valid (trace : Trace.t) (heap : store) : Prop :=
  Forall (λ span, (Span.Process span < length heap)%nat) (Trace.Spans trace).

(** The tags promoted to the process at address [p] by the spans that point
    to it, in the order of the spans. *)
Definition promoted_to (p : nat) (spans : list Span.t) : KeyValues :=
  mjoin ((λ span, adjuster.promoted (Span.Tags span))
         <$> filter (λ span, Span.Process span = p) spans).

(** Two spans of one service that share their process. *)
Definition two_spans : Trace.t :=
  Trace.mk
    [ Span.mk (NewTraceID 0 1) 1 "parent" 0 10
        [ mkKeyValue "telemetry.sdk.name" (VStr "x"); mkKeyValue "http.method" (VStr "GET") ] 0;
      Span.mk (NewTraceID 0 1) 2 "child" 1 5
        [ mkKeyValue "db.system" (VStr "pg"); mkKeyValue "telemetry.sdk.language" (VStr "go") ] 0 ]
    [].
Definition one_process : store := [ Process.mk "svc" [ mkKeyValue "host" (VStr "h1") ] ].

End shared.

(** ** The adjuster on spans whose tags are slices of shared arrays

    In Go [span.Tags] is a slice: two spans may have their tags on one
    backing array, as a span and its shallow copy ([*s = *span]) do.  The
    loop of [adjustSpanTags] writes into that array.  The embedding below
    keeps the slices: the arrays and the processes live in a heap, a span
    holds a slice of an array and the address of its process.  A process
    still holds its tags by value: no other slice is on the array of a
    [Process.Tags].  The spans of a trace are distinct span objects, each
    with a slice header of its own. *)

Module aliased.

(** A Go slice of tags: its backing array, where it starts in the array,
    and its length.  (The capacity plays no role: the adjuster never appends
    to [span.Tags].) *)
Record slice : Type := mkSlice { array : nat; offset : nat; len : nat }.

Module Span.
Record t : Type := mk {
  TraceID : model.TraceID;
  SpanID : Z;
  OperationName : string;
  StartTime : Z;
  Duration : Z;
  Tags : slice;
  Process : nat
}.
End Span.

Module Trace.
Record t : Type := mk { Spans : list Span.t; Warnings : list string }.
End Trace.

(** The memory the spans point into: the backing arrays of the [Tags]
    slices and the [Process] structs. *)
Record heap : Type := mkHeap { arrays : list KeyValues; processes : list Process.t }.

(** The tags a slice shows. *)
Definition view (h : heap) (s : slice) : option KeyValues :=
  arr ← arrays h !! array s;
  if decide (offset s + len s ≤ length arr)%nat
  then Some (take (len s) (drop (offset s) arr))
  else None.

(** The span as a value. *)
Definition deref (h : heap) (span : Span.t) : option model.Span.t :=
  proc ← processes h !! Span.Process span;
  tags ← view h (Span.Tags span);
  Some (model.Span.mk (Span.TraceID span) (Span.SpanID span) (Span.OperationName span)
          (Span.StartTime span) (Span.Duration span) tags proc).

(** [span.Tags = tags] *)
Definition with_Tags (span : Span.t) (tags : slice) : Span.t :=
  Span.mk (Span.TraceID span) (Span.SpanID span) (Span.OperationName span)
          (Span.StartTime span) (Span.Duration span) tags (Span.Process span).

(** One iteration of the loop of [adjustSpanTags] on a slice that starts at
    [off] in its array: the tag is read from the array, and a tag that stays
    is written back into the array. *)
Definition loop_body (off : nat) (st : adjuster.loop_state) (i : nat) : adjuster.loop_state :=
  match adjuster.tags_arr st !! (off + i)%nat with
  | None => st
  | Some tag =>
      if decide (Key tag ∈ adjuster.otelLibraryKeys) then
        adjuster.mkLoop (adjuster.tags_arr st) (adjuster.newI st) (adjuster.process_tags st ++ [tag])
      else
        adjuster.mkLoop (if decide (i ≠ adjuster.newI st) then <[(off + adjuster.newI st)%nat := tag]> (adjuster.tags_arr st)
                else adjuster.tags_arr st)
               (S (adjuster.newI st)) (adjuster.process_tags st)
  end.

(** The body of the loop of [OTelTagAdjuster] for one span.  [None] is the
    panic of a nil [span.Process]. *)
Definition adjustSpan (span : Span.t) (h : heap) : option (Span.t * heap) :=
  proc ← processes h !! Span.Process span;
  arr ← arrays h !! array (Span.Tags span);
  let off := offset (Span.Tags span) in
  let st0 := adjuster.mkLoop arr 0 (Process.Tags proc) in
  let st := foldl (loop_body off) st0 (seq 0 (len (Span.Tags span))) in
  Some (with_Tags span (mkSlice (array (Span.Tags span)) off (adjuster.newI st)),
        mkHeap (<[array (Span.Tags span) := adjuster.tags_arr st]> (arrays h))
               (<[Span.Process span :=
                    Process.mk (Process.ServiceName proc) (Sort (adjuster.process_tags st))]>
                  (processes h))).

Fixpoint adjustSpans (spans : list Span.t) (h : heap) : option (list Span.t * heap) :=
  match spans with
  | [] => Some ([], h)
  | span :: rest =>
      '(span', h') ← adjustSpan span h;
      '(rest', h'') ← adjustSpans rest h';
      Some (span' :: rest', h'')
  end.

Definition OTelTagAdjuster (trace : Trace.t) (h : heap)
    : option (Trace.t * option string * heap) :=
  '(spans', h') ← adjustSpans (Trace.Spans trace) h;
  Some (Trace.mk spans' (Trace.Warnings trace), None, h').

(** The span with its tags read from the heap, still holding its process
    by address. *)
Definition to_shared (h : heap) (span : Span.t) : option shared.Span.t :=
  tags ← view h (Span.Tags span);
  Some (shared.Span.mk (Span.TraceID span) (Span.SpanID span) (Span.OperationName span)
          (Span.StartTime span) (Span.Duration span) tags (Span.Process span)).

(** A slice whose tags carry no telemetry key. *)
Definition clean (h : heap) (s : slice) : Prop :=
  ∃ tags, view h s = Some tags ∧ Forall (λ kv, Key kv ∉ adjuster.otelLibraryKeys) tags.

(** Every span points to a process of the heap and its [Tags] lie inside
    an array of the heap. *)
Definition valid (trace : Trace.t) (h : heap) : Prop :=
  Forall (λ span, (Span.Process span < length (processes h))%nat ∧
                  is_Some (view h (Span.Tags span))) (Trace.Spans trace).
Global Instance valid_dec trace h : Decision (valid trace h).
Proof. unfold valid. apply _. Defined.

(** The tags promoted to the process at address [p] by the spans that point
    to it, in the order of the spans, with the tags as heap [h] shows them. *)
Definition promoted_to (h : heap) (p : nat) (spans : list Span.t) : KeyValues :=
  mjoin ((λ span, adjuster.promoted (default [] (view h (Span.Tags span))))
         <$> filter (λ span, Span.Process span = p) spans).

(** No two spans have their [Tags] on one backing array. *)
Definition separate (trace : Trace.t) : Prop :=
  NoDup ((λ span, array (Span.Tags span)) <$> Trace.Spans trace).

(** Two spans of one service that share their process, each with a tag
    array of its own. *)
Definition sample_heap : heap :=
  mkHeap
    [ [ mkKeyValue "telemetry.sdk.name" (VStr "x"); mkKeyValue "http.method" (VStr "GET") ];
      [ mkKeyValue "db.system" (VStr "pg"); mkKeyValue "telemetry.sdk.language" (VStr "go") ] ]
    [ Process.mk "svc" [ mkKeyValue "host" (VStr "h1") ];
      Process.mk "svc" [ mkKeyValue "host" (VStr "h1") ] ].
Definition two_spans : Trace.t :=
  Trace.mk
    [ Span.mk (NewTraceID 0 1) 1 "parent" 0 10 (mkSlice 0 0 2) 0;
      Span.mk (NewTraceID 0 1) 2 "child" 1 5 (mkSlice 1 0 2) 0 ]
    [].

(** The same two spans, each with a process of its own. *)
Definition two_spans_apart : Trace.t :=
  Trace.mk
    [ Span.mk (NewTraceID 0 1) 1 "parent" 0 10 (mkSlice 0 0 2) 0;
      Span.mk (NewTraceID 0 1) 2 "child" 1 5 (mkSlice 1 0 2) 1 ]
    [].

(** A span and a shallow copy of it ([*s = *span], as the harness makes
    them): the copy has the same [Tags] slice and the same process. *)
Definition copied_spans : Trace.t :=
  Trace.mk
    [ Span.mk (NewTraceID 0 1) 1 "parent" 0 10 (mkSlice 0 0 2) 0;
      Span.mk (NewTraceID 0 1) 2 "parent" 2 10 (mkSlice 0 0 2) 0 ]
    [].

End aliased.

(** ** Package [tlscfg]: cipher suite names *)

Module tlscfg.

(** [tls.CipherSuite] of Go's crypto/tls, reduced to the two fields read
    here.  The table [tls.CipherSuites()] belongs to the Go release, so every
    definition below takes it as the argument [suites]. *)
Record CipherSuite : Type := mkCipherSuite { ID : Z; Name : string }.

(** A Go slice of [uint16]: [None] is the nil slice. *)
Definition slice : Type := option (list Z).

(** [append(s, x)]: never nil. *)
Definition append (s : slice) (x : Z) : slice := Some (default [] s ++ [x]).

(** The elements of a slice; the nil slice has none. *)
Definition elements (s : slice) : list Z := default [] s.

(** [allCiphers]: the map from names to IDs, filled suite by suite. *)
Definition allCiphers (suites : list CipherSuite) : gmap string Z :=
  foldl (λ acceptedCiphers suite, <[Name suite := ID suite]> acceptedCiphers) ∅ suites.

(** The loop of [CipherSuiteNamesToIDs] over the remaining names, with the
    slice [ciphersIDs] built so far. *)
Fixpoint namesToIDs_loop (possibleCiphers : gmap string Z) (ciphersIDs : slice)
    (cipherNames : list string) : slice * option string :=
  match cipherNames with
  | [] => (ciphersIDs, None)
  | cipher :: rest =>
      match possibleCiphers !! cipher with
      | None =>
          (None, Some ("cipher suite " +:+ cipher +:+ " not supported or doesn't exist"))
      | Some intValue => namesToIDs_loop possibleCiphers (append ciphersIDs intValue) rest
      end
  end.

(** [CipherSuiteNamesToIDs]: [var ciphersIDs []uint16] starts as nil. *)
Definition CipherSuiteNamesToIDs (suites : list CipherSuite) (cipherNames : list string)
    : slice * option string :=
  namesToIDs_loop (allCiphers suites) None cipherNames.

(** A name is recognized when some suite of the table carries it. *)
Definition recognized (suites : list CipherSuite) (name : string) : Prop :=
  name ∈ Name <$> suites.

(** The TLS 1.3 suites and two TLS 1.2 suites with their IANA numbers, as a
    table to run the examples of section 8 on. *)
Definition sample_suites : list CipherSuite :=
  [ mkCipherSuite 0x1301 "TLS_AES_128_GCM_SHA256";
    mkCipherSuite 0x1302 "TLS_AES_256_GCM_SHA384";
    mkCipherSuite 0x1303 "TLS_CHACHA20_POLY1305_SHA256";
    mkCipherSuite 0xc013 "TLS_ECDHE_RSA_WITH_AES_128_CBC_SHA";
    mkCipherSuite 0xc02c "TLS_ECDHE_ECDSA_WITH_AES_256_GCM_SHA384" ].

(** The version numbers of Go's crypto/tls. *)
Definition VersionTLS10 : Z := 0x0301.
Definition VersionTLS11 : Z := 0x0302.
Definition VersionTLS12 : Z := 0x0303.
Definition VersionTLS13 : Z := 0x0304.

(** [var versions = map[string]uint16{...}] *)
Definition versions : gmap string Z :=
  {[ "1.0" := VersionTLS10; "1.1" := VersionTLS11;
     "1.2" := VersionTLS12; "1.3" := VersionTLS13 ]}.

(** [VersionNameToID]; [quote] is the verb [%q] of [fmt.Errorf], Go's
    [strconv.Quote], which belongs to the Go release. *)
Definition VersionNameToID (quote : string → string) (versionName : string)
    : Z * option string :=
  match versions !! versionName with
  | Some version => (version, None)
  | None => (0, Some ("unknown tls version " +:+ quote versionName))
  end.







End tlscfg.

(** ** Go's [strings] package, as far as the harness uses it *)

Module strings.

(** [strings.Contains(s, substr)] *)
Fixpoint Contains (s substr : string) : bool :=
  String.prefix substr s ||
  match s with
  | EmptyString => false
  | String _ rest => Contains rest substr
  end.

(** The scan of [strings.Replace] for a non-empty [old], with [skip] bytes
    of a match still to pass over: where [old] starts, [new] is written and
    the scan goes on behind the match; any other byte is copied. *)
Fixpoint replace_scan (old new : string) (skip : nat) (s : string) : string :=
  match s with
  | EmptyString => EmptyString
  | String c rest =>
      match skip with
      | S skip' => replace_scan old new skip' rest
      | O =>
          if String.prefix old s
          then new +:+ replace_scan old new (String.length old - 1) rest
          else String c (replace_scan old new 0 rest)
      end
  end.

(** One of [a] and [b] is a prefix of the other: [a] followed by some text
    can start like [b] followed by some text. *)
Fixpoint compat (a b : string) : bool :=
  match a, b with
  | String x a', String y b' => Ascii.eqb x y && compat a' b'
  | _, _ => true
  end.

(** Some occurrence of [p] can start inside [w], whatever follows [w]. *)
Fixpoint starts_inside (p w : string) : bool :=
  match w with
  | EmptyString => false
  | String _ w' => compat p w || starts_inside p w'
  end.

(** [strings.ReplaceAll(s, old, new)] for a non-empty [old]; when
    [old == new] the input is returned as it is. *)
Definition ReplaceAll (s old new : string) : string :=
  if String.eqb old new then s else replace_scan old new 0 s.

End strings.

(** ** Go's [time] package, as far as the harness uses it *)

Module time.

(** A [time.Time] in UTC, as seconds since the Unix epoch. *)
Definition Time : Type := Z.

(** Year, month and day of the day number [days] (days since 1970-01-01) in
    the proleptic Gregorian calendar. *)
Definition civil_from_days (days : Z) : Z * Z * Z :=
  let z := days + 719468 in
  let era := z / 146097 in
  let doe := z - era * 146097 in
  let yoe := (doe - doe / 1460 + doe / 36524 - doe / 146096) / 365 in
  let doy := doe - (365 * yoe + yoe / 4 - yoe / 100) in
  let mp := (5 * doy + 2) / 153 in
  let d := doy - (153 * mp + 2) / 5 + 1 in
  let m := if mp <? 10 then mp + 3 else mp - 9 in
  let y := yoe + era * 400 + (if m <=? 2 then 1 else 0) in
  (y, m, d).

(** [t.Date()] *)
Definition Date (t : Time) : Z * Z * Z := civil_from_days (t / 86400).

(** [t.AddDate(0, 0, days)] in UTC: the same time of day, [days] days on. *)
Definition AddDate_days (t : Time) (days : Z) : Time := t + days * 86400.

(** The decimal digits of a natural number, most significant first. *)
Definition decimal (n : Z) : string :=
  DecimalString.NilZero.string_of_uint (N.to_uint (Z.to_N n)).

Fixpoint zeros (n : nat) : string :=
  match n with O => EmptyString | S n' => String "0" (zeros n') end.

(** [appendInt(b, x, width)]: a sign, then the digits padded with zeros to
    [width]. *)
Definition appendInt (x : Z) (width : nat) : string :=
  let digits := decimal (Z.abs x) in
  (if x <? 0 then "-" else "") +:+
  zeros (width - String.length digits) +:+ digits.

(** [t.Format("2006-01-02")] *)
Definition Format_date (t : Time) : string :=
  let '(y, m, d) := Date t in
  appendInt y 4 +:+ "-" +:+ appendInt m 2 +:+ "-" +:+ appendInt d 2.

End time.

(** ** Go's [unicode/utf8] package, as far as [regexp] uses it *)

Module utf8.

(** The byte [b] lies between [lo] and [hi]. *)
Definition between (lo hi : N) (b : ascii) : bool :=
  (lo <=? N_of_ascii b)%N && (N_of_ascii b <=? hi)%N.

(** The scan of [utf8.ValidString] with [need] bytes of the current
    encoding still to come, the next of them between [lo] and [hi]: the
    encodings of the code points U+0000 to U+10FFFF without the surrogates,
    each in its shortest form. *)
Fixpoint valid_from (need : nat) (lo hi : N) (s : string) : bool :=
  match s with
  | EmptyString => bool_decide (need = 0%nat)
  | String b rest =>
      match need with
      | O =>
          if between 0x00 0x7F b then valid_from 0 0x80 0xBF rest
          else if between 0xC2 0xDF b then valid_from 1 0x80 0xBF rest
          else if between 0xE0 0xE0 b then valid_from 2 0xA0 0xBF rest
          else if between 0xE1 0xEC b then valid_from 2 0x80 0xBF rest
          else if between 0xED 0xED b then valid_from 2 0x80 0x9F rest
          else if between 0xEE 0xEF b then valid_from 2 0x80 0xBF rest
          else if between 0xF0 0xF0 b then valid_from 3 0x90 0xBF rest
          else if between 0xF1 0xF3 b then valid_from 3 0x80 0xBF rest
          else if between 0xF4 0xF4 b then valid_from 3 0x80 0x8F rest
          else false
      | S need' => between lo hi b && valid_from need' 0x80 0xBF rest
      end
  end.

(** [utf8.ValidString] *)
Definition ValidString (s : string) : bool := valid_from 0 0x80 0xBF s.

End utf8.

(** ** Go's [regexp] package, as far as the harness uses it

    The model covers a fragment of the RE2 syntax, given with [regex]
    below, and subjects that are valid UTF-8, as every [t.Name()] is.  A
    pattern that is not valid UTF-8 is an error, as in Go.  What the model
    compiles it matches as Go does; for a valid pattern outside the
    fragment (a class, an anchor, a counted repetition, a flag, an escape
    made of a letter or digit, an operator behind a byte from 128 on, more
    than 100 nested groups) the model also answers with an error, which Go
    may not do: there the model says nothing about Go.  [QuoteMeta] never
    leaves the fragment. *)

Module regexp.

(** The bytes [QuoteMeta] escapes: [\.+*?()|[]{}^$]. *)
Definition special (b : ascii) : bool :=
  bool_decide (b ∈ list_ascii_of_string "\.+*?()|[]{}^$").

(** [regexp.QuoteMeta]: a backslash goes in front of every special byte. *)
Fixpoint QuoteMeta (s : string) : string :=
  match s with
  | EmptyString => EmptyString
  | String b rest =>
      if special b then String "\" (String b (QuoteMeta rest))
      else String b (QuoteMeta rest)
  end.

(** The modelled fragment of the RE2 syntax: literal bytes, a backslash
    before a byte below 128 that is no letter or digit, [.], the postfix
    operators [*], [+] and [?] (and their lazy forms), alternation and
    groups.  A regex is matched against bytes: [Range lo hi] is one byte
    between [lo] and [hi], [AnyByte] any one byte. *)
Inductive regex : Type :=
| Void
| Eps
| Lit (c : ascii)
| Range (lo hi : N)
| AnyByte
| Cat (r1 r2 : regex)
| Alt (r1 r2 : regex)
| Star (r : regex).

(** What [.] compiles to: the encoding of one code point other than the
    line feed. *)
Definition continuation : regex := Range 0x80 0xBF.
Definition any_rune_but_newline : regex :=
  Alt (Range 0x00 0x09)
  (Alt (Range 0x0B 0x7F)
  (Alt (Cat (Range 0xC2 0xDF) continuation)
  (Alt (Cat (Range 0xE0 0xE0) (Cat (Range 0xA0 0xBF) continuation))
  (Alt (Cat (Range 0xE1 0xEC) (Cat continuation continuation))
  (Alt (Cat (Range 0xED 0xED) (Cat (Range 0x80 0x9F) continuation))
  (Alt (Cat (Range 0xEE 0xEF) (Cat continuation continuation))
  (Alt (Cat (Range 0xF0 0xF0) (Cat (Range 0x90 0xBF) (Cat continuation continuation)))
  (Alt (Cat (Range 0xF1 0xF3) (Cat continuation (Cat continuation continuation)))
       (Cat (Range 0xF4 0xF4) (Cat (Range 0x80 0x8F) (Cat continuation continuation))))))))))).

Inductive token : Type :=
| TChar (c : ascii)
| TDot | TStar | TPlus | TQuest | TBar | TLParen | TRParen.

Definition isalnum (c : ascii) : bool :=
  let n := N_of_ascii c in
  ((48 <=? n) && (n <=? 57) || (65 <=? n) && (n <=? 90) || (97 <=? n) && (n <=? 122))%N.

(** A byte of the pattern outside an escape. *)
Definition classify (c : ascii) : option token :=
  if Ascii.eqb c "." then Some TDot
  else if Ascii.eqb c "*" then Some TStar
  else if Ascii.eqb c "+" then Some TPlus
  else if Ascii.eqb c "?" then Some TQuest
  else if Ascii.eqb c "|" then Some TBar
  else if Ascii.eqb c "(" then Some TLParen
  else if Ascii.eqb c ")" then Some TRParen
  else if special c then None
  else Some (TChar c).

(** The text starts with a repetition operator. *)
Definition at_operator (s : string) : bool :=
  match s with
  | String d _ => Ascii.eqb d "*" || Ascii.eqb d "+" || Ascii.eqb d "?"
  | EmptyString => false
  end.

(** The pattern is read byte by byte, which reads a literal code point as
    the bytes of its encoding; an operator right behind a byte from 128 on
    would apply to the whole code point and is left out of the fragment.
    Behind a backslash a byte below 128 that is no letter or digit stands
    for itself. *)
Fixpoint tokenize (pattern : string) : option (list token) :=
  match pattern with
  | EmptyString => Some []
  | String c rest =>
      if Ascii.eqb c "\" then
        match rest with
        | EmptyString => None
        | String d rest' =>
            if isalnum d || negb (utf8.between 0x00 0x7F d) then None
            else cons (TChar d) <$> tokenize rest'
        end
      else
        match classify c with
        | Some tok =>
            if negb (utf8.between 0x00 0x7F c) && at_operator rest then None
            else cons tok <$> tokenize rest
        | None => None
        end
  end.

(** The parser keeps a stack of open groups, as Go's does.  A frame holds
    the finished alternatives of a group and the pieces of the alternative
    being read, both latest first. *)
Record frame : Type := mkFrame { alts : list regex; pieces : list regex }.

(** [rep] is 0 after a piece, 1 after a repetition operator and 2 after the
    [?] that makes it lazy. *)
Record pstate : Type := mkPState { stack : list frame; cur : frame; rep : nat }.

Definition concat_of (pieces_rev : list regex) : regex :=
  foldl (λ acc r, Cat r acc) Eps pieces_rev.

Definition alt_of (f : frame) : regex :=
  foldl (λ acc r, Alt r acc) (concat_of (pieces f)) (alts f).

Definition push_piece (r : regex) (st : pstate) : pstate :=
  mkPState (stack st) (mkFrame (alts (cur st)) (r :: pieces (cur st))) 0.

Definition repeat_piece (op : regex → regex) (lazy_mark : bool) (st : pstate) : option pstate :=
  match rep st, pieces (cur st) with
  | O, r :: rest => Some (mkPState (stack st) (mkFrame (alts (cur st)) (op r :: rest)) 1)
  | 1%nat, _ => if lazy_mark then Some (mkPState (stack st) (cur st) 2) else None
  | _, _ => None
  end.

Definition parse_step (st : pstate) (tok : token) : option pstate :=
  match tok with
  | TChar c => Some (push_piece (Lit c) st)
  | TDot => Some (push_piece any_rune_but_newline st)
  | TStar => repeat_piece Star false st
  | TPlus => repeat_piece (λ r, Cat r (Star r)) false st
  | TQuest => repeat_piece (λ r, Alt r Eps) true st
  | TBar =>
      Some (mkPState (stack st)
              (mkFrame (concat_of (pieces (cur st)) :: alts (cur st)) []) 0)
  | TLParen =>
      if decide (100 ≤ length (stack st))%nat then None
      else Some (mkPState (cur st :: stack st) (mkFrame [] []) 0)
  | TRParen =>
      match stack st with
      | [] => None
      | parent :: outer =>
          Some (mkPState outer (mkFrame (alts parent) (alt_of (cur st) :: pieces parent)) 0)
      end
  end.

Fixpoint parse_tokens (st : pstate) (toks : list token) : option regex :=
  match toks with
  | [] => match stack st with [] => Some (alt_of (cur st)) | _ => None end
  | tok :: rest =>
      match parse_step st tok with
      | Some st' => parse_tokens st' rest
      | None => None
      end
  end.

(** [regexp.Compile]; [None] stands for the error.  The parser of Go reads
    the pattern code point by code point and gives up on a byte that
    starts no valid encoding. *)
Definition Compile (pattern : string) : option regex :=
  if utf8.ValidString pattern then
    match tokenize pattern with
    | Some toks => parse_tokens (mkPState [] (mkFrame [] []) 0) toks
    | None => None
    end
  else None.

(** Matching by derivatives. *)
Fixpoint nullable (r : regex) : bool :=
  match r with
  | Void | Lit _ | Range _ _ | AnyByte => false
  | Eps | Star _ => true
  | Cat r1 r2 => nullable r1 && nullable r2
  | Alt r1 r2 => nullable r1 || nullable r2
  end.

Fixpoint deriv (c : ascii) (r : regex) : regex :=
  match r with
  | Void | Eps => Void
  | Lit d => if Ascii.eqb c d then Eps else Void
  | Range lo hi => if utf8.between lo hi c then Eps else Void
  | AnyByte => Eps
  | Cat r1 r2 =>
      if nullable r1 then Alt (Cat (deriv c r1) r2) (deriv c r2)
      else Cat (deriv c r1) r2
  | Alt r1 r2 => Alt (deriv c r1) (deriv c r2)
  | Star r1 => Cat (deriv c r1) (Star r1)
  end.

(** The whole of [s] matches [r]. *)
Fixpoint full_match (r : regex) (s : string) : bool :=
  match s with
  | EmptyString => nullable r
  | String c rest => full_match (deriv c r) rest
  end.

(** The method [MatchString] of a compiled [Regexp]: some part of [s]
    matches [r]. *)
Definition Regexp_MatchString (r : regex) (s : string) : bool :=
  full_match (Cat (Star AnyByte) (Cat r (Star AnyByte))) s.

(** The strings a regex denotes. *)
Inductive matches : regex → string → Prop :=
| matches_eps : matches Eps EmptyString
| matches_lit c : matches (Lit c) (String c EmptyString)
| matches_range lo hi c :
    utf8.between lo hi c = true → matches (Range lo hi) (String c EmptyString)
| matches_any c : matches AnyByte (String c EmptyString)
| matches_cat r1 r2 s1 s2 :
    matches r1 s1 → matches r2 s2 → matches (Cat r1 r2) (s1 +:+ s2)
| matches_alt_l r1 r2 s : matches r1 s → matches (Alt r1 r2) s
| matches_alt_r r1 r2 s : matches r2 s → matches (Alt r1 r2) s
| matches_star_nil r : matches (Star r) EmptyString
| matches_star_cons r s1 s2 :
    matches r s1 → matches (Star r) s2 → matches (Star r) (s1 +:+ s2).

(** The regex of a quoted pattern: the bytes of [s] one after the other. *)
Fixpoint literal (s : string) : regex :=
  match s with
  | EmptyString => Eps
  | String c rest => Cat (Lit c) (literal rest)
  end.

(** [regexp.MatchString(pattern, s)]; the text of the error is the model's
    own. *)
Definition MatchString (pattern s : string) : bool * option string :=
  match Compile pattern with
  | None => (false, Some ("error parsing regexp: " +:+ pattern))
  | Some re => (Regexp_MatchString re s, None)
  end.

End regexp.

(** ** The sampling store *)

Module samplingstore.

(** Modelled from the spec: the types of package [samplemodel] are not among
    the sources; section 3 has ServiceOperationProbabilities as service to
    operation to probability, and ServiceOperationQPS likewise.  A float64
    is kept as its 64 bits: the values are stored and compared, never
    computed with. *)
Abbreviation ServiceOperationProbabilities := (gmap string (gmap string Z)).
Abbreviation ServiceOperationQPS := (gmap string (gmap string Z)).

(** The float64 constants of [testGetLatestProbability], as bits. *)
Definition float_0_123 : Z := 0x3fbf7ced916872b0.
Definition float_0_1 : Z := 0x3fb999999999999a.
Definition float_11 : Z := 0x4026000000000000.
Definition float_4 : Z := 0x4010000000000000.

(** Modelled from the spec: no implementation of the sampling store is among
    the sources.  By sections 4.4 and 9 the store is an append-only log of
    snapshots (host, time stamp, probabilities, QPS), stamped monotonically. *)
Record Snapshot : Type := mkSnapshot {
  snap_host : string;
  snap_time : nat;
  snap_probabilities : ServiceOperationProbabilities;
  snap_qps : ServiceOperationQPS
}.

Record Store : Type := mkStore { snapshots : list Snapshot }.

(** Modelled from the spec: the stamp of the next snapshot is later than
    every stamp in the log. *)
Definition next_time (st : Store) : nat :=
  S (max_list (snap_time <$> snapshots st)).

(** Modelled from the spec: [InsertProbabilitiesAndQPS] records a snapshot
    for the host. *)
Definition InsertProbabilitiesAndQPS (hostname : string)
    (probabilities : ServiceOperationProbabilities) (qps : ServiceOperationQPS)
    (st : Store) : Store :=
  mkStore (snapshots st ++ [mkSnapshot hostname (next_time st) probabilities qps]).

(** The later of a candidate and a snapshot; on equal stamps the snapshot
    met last wins. *)
Definition later (best : option Snapshot) (snap : Snapshot) : option Snapshot :=
  match best with
  | None => Some snap
  | Some b => if decide (snap_time b ≤ snap_time snap)%nat then Some snap else Some b
  end.

Definition latest (st : Store) : option Snapshot := foldl later None (snapshots st).

(** Modelled from the spec: [GetLatestProbabilities] returns the
    probabilities of the most recent snapshot across all hosts, whichever
    host wrote it; an empty store has none to return. *)
Definition GetLatestProbabilities (st : Store) : ServiceOperationProbabilities :=
  match latest st with
  | Some snap => snap_probabilities snap
  | None => ∅
  end.

(** The modelled store behind the two methods the harness calls, in the
    shape of the Go interface: a result, an error ([None] is nil) and the
    store afterwards.  Neither method reports an error. *)
Definition store_Insert (hostname : string) (probabilities : ServiceOperationProbabilities)
    (qps : ServiceOperationQPS) (st : Store) : option string * Store :=
  (None, InsertProbabilitiesAndQPS hostname probabilities qps st).
Definition store_GetLatest (st : Store)
    : (ServiceOperationProbabilities * option string) * Store :=
  ((GetLatestProbabilities st, None), st).

End samplingstore.

(** ** Package [integration]: the storage conformance harness *)

Module integration.

(** [const iterations = 100] *)
Definition iterations : nat := 100.

(** [time.Second], a [time.Duration] in nanoseconds. *)
Definition time_Second : Z := 1000000000.

(** What a harness helper does that can be observed from outside: a line in
    the test log, a call of the predicate that returned [result], a call of
    the predicate that did not return (it stopped the test), a sleep. *)
Inductive event : Type :=
| EvLogf (iteration total : Z)
| EvPredicate (result : bool)
| EvStopped
| EvSleep (d : Z).

(** How a call that can stop the test comes back: with a value, not at all
    because a [require] failed the test ([t.FailNow()]), or not at all
    because of a run-time panic. *)
Inductive outcome (A : Type) : Type :=
| Returned (a : A)
| Fatal (msg : string)
| Panic.
Global Arguments Returned {A} a.
Global Arguments Fatal {A} msg.
Global Arguments Panic {A}.

(** The event of a call of the predicate. *)
Definition call_event (r : outcome bool) : event :=
  match r with Returned b => EvPredicate b | _ => EvStopped end.

(** A closure that always returns, as a predicate. *)
Definition returning {World : Type} (p : World → bool * World)
    : World → outcome bool * World :=
  λ w, let '(b, w') := p w in (Returned b, w').

(** How [skipIfNeeded] leaves the test: skipped ([t.Skip()]), going on, or
    stopped by [require.NoError] with the error of [regexp.MatchString]. *)
Inductive skip_outcome : Type :=
| Skipped
| NotSkipped
| FailedNow (err : string).

(** [skipIfNeeded], with [name] for [t.Name()]. *)
Fixpoint skipIfNeeded (SkipList : list string) (name : string) : skip_outcome :=
  match SkipList with
  | [] => NotSkipped
  | pat :: rest =>
      let escapedPat := regexp.QuoteMeta pat in
      match regexp.MatchString escapedPat name with
      | (_, Some err) => FailedNow err
      | (true, None) => Skipped
      | (false, None) => skipIfNeeded rest name
      end
  end.

(** The skip decision in the words of the specification: an entry of the
    skip list is a regular expression and a test is skipped when its name
    matches one. *)
Fixpoint skip_by_regexp (SkipList : list string) (name : string) : skip_outcome :=
  match SkipList with
  | [] => NotSkipped
  | pat :: rest =>
      match regexp.MatchString pat name with
      | (_, Some err) => FailedNow err
      | (true, None) => Skipped
      | (false, None) => skip_by_regexp rest name
      end
  end.

(** The two dates [correctTime] writes, from [now := time.Now().UTC()]. *)
Definition yesterday (now : time.Time) : string :=
  time.Format_date (time.AddDate_days now (-1)).
Definition twoDaysAgo (now : time.Time) : string :=
  time.Format_date (time.AddDate_days now (-2)).

(** [correctTime], with the clock reading [now] as an argument. *)
Definition correctTime (now : time.Time) (json : string) : string :=
  let jsonString := json in
  let retString := strings.ReplaceAll jsonString "2017-01-26" (yesterday now) in
  let retString := strings.ReplaceAll retString "2017-01-25" (twoDaysAgo now) in
  retString.

(** The rewriting in the words of the specification, as one scan of the
    input: an occurrence of 2017-01-26 becomes [y], an occurrence of
    2017-01-25 becomes [t], every other byte is copied.  (The two literals
    cannot overlap themselves or each other, so the scan meets every
    occurrence.) *)
Fixpoint rewrite_dates_scan (y t : string) (skip : nat) (s : string) : string :=
  match s with
  | EmptyString => EmptyString
  | String c rest =>
      match skip with
      | S skip' => rewrite_dates_scan y t skip' rest
      | O =>
          if String.prefix "2017-01-26" s then y +:+ rewrite_dates_scan y t 9 rest
          else if String.prefix "2017-01-25" s then t +:+ rewrite_dates_scan y t 9 rest
          else String c (rewrite_dates_scan y t 0 rest)
      end
  end.

Definition rewrite_dates (now : time.Time) (json : string) : string :=
  rewrite_dates_scan (yesterday now) (twoDaysAgo now) 0 json.

(** The text [y] written by the first pass cannot be taken for 2017-01-25
    by the second pass, alone or together with the bytes around it: no
    occurrence of 2017-01-25 can start inside [y], and none that started
    before [y] can run into it. *)
Definition independent (y : string) : bool :=
  negb (strings.starts_inside "2017-01-25" y) &&
  negb (strings.starts_inside y "017-01-25").

(** [loadAndParseJSONPB] and [loadAndParseJSON]: the embedded file is read,
    its bytes go through [correctTime], and only then to the parser
    ([jsonpb.Unmarshal] or [json.Unmarshal], here [Unmarshal]).  An error of
    either step stops the test ([require.NoError]); [None] stands for that. *)
Definition loadAndParse {A : Type} (ReadFile : string → string + string)
    (Unmarshal : string → A + string) (now : time.Time) (path : string) : option A :=
  match ReadFile path with
  | inr _ => None
  | inl inStr =>
      match Unmarshal (correctTime now inStr) with
      | inr _ => None
      | inl object => Some object
      end
  end.

Section harness.
(** [World] is everything a test closure can reach: the variables it
    captures and the storage backend behind the reader. *)
Context {World : Type}.

(** The state a helper threads through: the world and the events so far
    (the role of [t *testing.T] and of the captured variables). *)
Record T : Type := mkT { world : World; events : list event }.

(** Harness actions: state passing over [T]. *)
Definition M (A : Type) : Type := T → A * T.
Definition ret {A} (a : A) : M A := λ t, (a, t).
Definition bind {A B} (m : M A) (k : A → M B) : M B :=
  λ t, let '(a, t') := m t in k a t'.
Global Instance M_ret : MRet M := λ A, @ret A.
Global Instance M_bind : MBind M := λ A B k m, bind m k.
Definition emit (e : event) : M unit :=
  λ t, (tt, mkT (world t) (events t ++ [e])).

(** [predicate] is the closure passed to [waitForCondition]: it returns
    a boolean or stops the test (a [require] inside it fails, or it
    panics); [sleep d] is what the world does while the test sleeps for [d]
    (an asynchronous indexer catching up). *)
Context (predicate : World → outcome bool * World) (sleep : Z → World → World).

(** [predicate(t)] *)
Definition call_predicate : M (outcome bool) :=
  λ t, let '(r, w) := predicate (world t) in
       (r, mkT w (events t ++ [call_event r])).

(** [time.Sleep(d)] *)
Definition time_Sleep (d : Z) : M unit :=
  λ t, (tt, mkT (sleep d (world t)) (events t ++ [EvSleep d])).

(** The [for] loop of [waitForCondition] with [remaining = iterations - i]
    rounds to go, and the final [return predicate(t)].  A predicate that
    stops the test ends the loop there: nothing after it runs. *)
Fixpoint waitForCondition_from (remaining : nat) (i : Z) : M (outcome bool) :=
  match remaining with
  | O => call_predicate
  | S remaining' =>
      emit (EvLogf (i + 1) (Z.of_nat iterations));;
      ok ← call_predicate;
      match ok return M (outcome bool) with
      | Returned true => mret (Returned true)
      | Returned false =>
          time_Sleep time_Second;; waitForCondition_from remaining' (i + 1)
      | stopped => mret stopped
      end
  end.

(** [waitForCondition] *)
Definition waitForCondition : M (outcome bool) := waitForCondition_from iterations 0.

End harness.

(** An action on the world alone, as a harness action. *)
Definition lift {World A : Type} (f : World → A * World) : M A :=
  λ t, let '(a, w) := f (world t) in (a, mkT w (events t)).

(** [uint64(i)] of a Go [int]. *)
Definition to_uint64 (i : Z) : Z := i mod 2 ^ 64.

(** The product of two [time.Duration]s, a signed 64-bit integer. *)
Definition duration_mul (a b : Z) : Z := (a * b + 2 ^ 63) mod 2 ^ 64 - 2 ^ 63.

(** The body of the loop of [loadParseAndWriteLargeTrace]: a copy of [span]
    with [SpanID = model.SpanID(i)] and the start time moved on by
    [time.Second * time.Duration(i+1)]. *)
Definition clone_span (span : Span.t) (i : Z) : Span.t :=
  Span.mk (Span.TraceID span) (to_uint64 i) (Span.OperationName span)
          (Span.StartTime span + duration_mul time_Second (i + 1))
          (Span.Duration span) (Span.Tags span) (Span.Process span).

(** The spans the loop leaves in [trace.Spans]: [span] in cell 0, then one
    appended clone for each [i] from 1 to 10007. *)
Definition largeTraceSpans (span : Span.t) : list Span.t :=
  foldl (λ spans i, spans ++ [clone_span span i]) [span]
        (Z.of_nat <$> seq 1 (Z.to_nat 10007)).

(** The large trace in the words of the specification: for every [i] from 0
    to 10007 a clone of the first fixture span with SpanID [i] and the start
    time moved on by [i] seconds. *)
Definition largeTraceSpans_spec (span : Span.t) : list Span.t :=
  (λ i, Span.mk (Span.TraceID span) i (Span.OperationName span)
                (Span.StartTime span + i * time_Second)
                (Span.Duration span) (Span.Tags span) (Span.Process span))
  <$> (Z.of_nat <$> seq 0 (Z.to_nat 10008)).

(** A first fixture span to run the loop on. *)
Definition sample_span : Span.t :=
  Span.mk (NewTraceID 0 17) 1 "example-operation-1" 1485467191639875000 100000 []
          (Process.mk "example-service-1" []).

Section storage.
Context {World : Type}.

(** The backend under test: [SpanWriter.WriteSpan] and [SpanReader.GetTrace]
    with their errors ([None] is the nil error), and the hooks [Refresh] and
    [CleanUp]. *)
Context (WriteSpan : World → Span.t → option string * World).
Context (GetTrace : World → TraceID → (Trace.t + string) * World).
Context (Refresh CleanUp : World → option string * World).
Context (sleep : Z → World → World).

(** [writeTrace]: the spans are written in order up to the first error. *)
Fixpoint writeTrace_spans (spans : list Span.t) (w : World) : option string * World :=
  match spans with
  | [] => (None, w)
  | span :: rest =>
      match WriteSpan w span with
      | (Some err, w') => (Some err, w')
      | (None, w') => writeTrace_spans rest w'
      end
  end.

Definition writeTrace (trace : Trace.t) (w : World) : option string * World :=
  writeTrace_spans (Trace.Spans trace) w.

(** [loadParseAndWriteLargeTrace]; [fixture] is the parsed example_trace
    that [getTraceFixture] returns. *)
Definition loadParseAndWriteLargeTrace (fixture : Trace.t) (w : World)
    : outcome Trace.t * World :=
  match Trace.Spans fixture with
  | [] => (Panic, w)
  | span :: _ =>
      let trace := Trace.mk (largeTraceSpans span) (Trace.Warnings fixture) in
      match writeTrace trace w with
      | (Some err, w') => (Fatal err, w')
      | (None, w') => (Returned trace, w')
      end
  end.

(** The closure polled by [testGetLargeSpan]:
    [err == nil && len(actual.Spans) == len(expected.Spans)]. *)
Definition largeSpan_found (expected : Trace.t) (expectedTraceID : TraceID)
    : World → bool * World :=
  λ w, match GetTrace w expectedTraceID with
       | (inl actual, w') =>
           (bool_decide (length (Trace.Spans actual) = length (Trace.Spans expected)), w')
       | (inr _, w') => (false, w')
       end.

(** What a test run ends in. *)
Inductive verdict : Type := TestSkipped | TestPassed | TestFailed | TestPanicked.

(** The deferred [s.cleanUp(t)]: an error of [CleanUp] fails the test. *)
Definition cleanUp_then (v : verdict) : M verdict :=
  err ← lift CleanUp;
  mret (match err, v with Some _, TestPassed => TestFailed | _, _ => v end).

(** [testGetLargeSpan] *)
Definition testGetLargeSpan (SkipList : list string) (name : string) (fixture : Trace.t)
    : M verdict :=
  match skipIfNeeded SkipList name with
  | Skipped => mret TestSkipped
  | FailedNow _ => mret TestFailed
  | NotSkipped =>
      loaded ← lift (loadParseAndWriteLargeTrace fixture);
      match loaded with
      | Panic => cleanUp_then TestPanicked
      | Fatal _ => cleanUp_then TestFailed
      | Returned expected =>
          match Trace.Spans expected with
          | [] => cleanUp_then TestPanicked
          | first :: _ =>
              let expectedTraceID := Span.TraceID first in
              err ← lift Refresh;
              match err with
              | Some _ => cleanUp_then TestFailed
              | None =>
                  found ← waitForCondition
                            (returning (largeSpan_found expected expectedTraceID)) sleep;
                  match found with
                  | Returned true => cleanUp_then TestPassed
                  | Returned false | Fatal _ => cleanUp_then TestFailed
                  | Panic => cleanUp_then TestPanicked
                  end
              end
          end
      end
  end.

End storage.

(** A backend to run the tests on: the world is the list of the spans
    written so far, and a read returns the spans of the trace asked for. *)
Definition memory_WriteSpan (w : list Span.t) (span : Span.t) : option string * list Span.t :=
  (None, w ++ [span]).
Definition memory_GetTrace (w : list Span.t) (traceID : TraceID)
    : (Trace.t + string) * list Span.t :=
  (match filter (λ span, Span.TraceID span = traceID) w with
   | [] => inr "trace not found"
   | spans => inl (Trace.mk spans [])
   end, w).
Definition memory_Refresh (w : list Span.t) : option string * list Span.t := (None, w).
Definition memory_CleanUp (w : list Span.t) : option string * list Span.t := (None, []).

Section sampling.
Import samplingstore.
Context {World : Type}.

(** The sampling store under test, through the two methods of the
    interface the test calls, and the harness hooks. *)
Context (InsertProbabilitiesAndQPS :
           string → ServiceOperationProbabilities → ServiceOperationQPS →
           World → option string * World).
Context (GetLatestProbabilities :
           World → (ServiceOperationProbabilities * option string) * World).
Context (CleanUp : World → option string * World).
Context (sleep : Z → World → World).

(** The closure polled by [testGetLatestProbability]: an error of the
    store stops the test ([require.NoError]); otherwise the answer is
    compared with [expected]. *)
Definition latestProbability_found (expected : ServiceOperationProbabilities)
    : World → outcome bool * World :=
  λ w, match GetLatestProbabilities w with
       | ((actual, None), w') => (Returned (bool_decide (actual = expected)), w')
       | ((_, Some err), w') => (Fatal err, w')
       end.

(** [testGetLatestProbability]; [hasSamplingStore] is
    [s.SamplingStore != nil]. *)
Definition testGetLatestProbability (SkipList : list string) (name : string)
    (hasSamplingStore : bool) : M verdict :=
  match skipIfNeeded SkipList name with
  | Skipped => mret TestSkipped
  | FailedNow _ => mret TestFailed
  | NotSkipped =>
      if negb hasSamplingStore then mret TestSkipped
      else
        lift (InsertProbabilitiesAndQPS "newhostname1"
                {[ "new-srv3" := {[ "op" := float_0_123 ]} ]}
                {[ "new-srv2" := {[ "op" := float_11 ]} ]});;
        lift (InsertProbabilitiesAndQPS "dell11eg843d"
                {[ "new-srv" := {[ "op" := float_0_1 ]} ]}
                {[ "new-srv" := {[ "op" := float_4 ]} ]});;
        let expected : ServiceOperationProbabilities :=
          {[ "new-srv" := {[ "op" := float_0_1 ]} ]} in
        found ← waitForCondition (latestProbability_found expected) sleep;
        match found with
        | Returned true => cleanUp_then CleanUp TestPassed
        | Returned false | Fatal _ => cleanUp_then CleanUp TestFailed
        | Panic => cleanUp_then CleanUp TestPanicked
        end
  end.

End sampling.

(** The results of the predicate calls among some events, in order. *)
Definition predicate_results (evs : list event) : list bool :=
  omap (λ e, match e with EvPredicate b => Some b | _ => None end) evs.

(** The durations of the sleeps among some events, in order. *)
Definition sleeps (evs : list event) : list Z :=
  omap (λ e, match e with EvSleep d => Some d | _ => None end) evs.

(** The events without the log lines. *)
Definition is_log (e : event) : bool :=
  match e with EvLogf _ _ => true | _ => false end.
Definition without_logs (evs : list event) : list event :=
  filter (λ e, ¬ is_log e) evs.

(** The log lines among some events, in order. *)
Definition log_lines (evs : list event) : list event :=
  filter (λ e, is_log e) evs.

(** [k] failed rounds: the predicate says no, the test sleeps a second. *)
Definition failed_rounds (k : nat) : list event :=
  mjoin (replicate k [EvPredicate false; EvSleep time_Second]).

(** One failed round on the world: the predicate runs and the test sleeps
    a second. *)
Definition failed_round {World : Type} (predicate : World → outcome bool * World)
    (sleep : Z → World → World) (w : World) : World :=
  sleep time_Second (predicate w).2.

End integration.

(* ===================================================================== *)
(** * Part II: properties                                                 *)
(* ===================================================================== *)

Section adjuster_facts.
Import adjuster.

(** *** The order on keys *)

Lemma string_compare_refl s : String.compare s s = Eq.
Proof.
  induction s as [|c s IH]; simpl; [done|].
  unfold Ascii.compare. by rewrite N.compare_refl.
Qed.

Lemma string_leb_refl s : String.leb s s = true.
Proof. unfold String.leb. by rewrite string_compare_refl. Qed.

Lemma string_compare_trans_Lt s1 s2 s3 :
  String.compare s1 s2 = Lt → String.compare s2 s3 = Lt → String.compare s1 s3 = Lt.
Proof.
  revert s2 s3. induction s1 as [|a s1 IH]; intros [|b s2] [|c s3]; simpl; try done.
  unfold Ascii.compare.
  destruct (N.compare_spec (N_of_ascii a) (N_of_ascii b)) as [Hab|Hab|Hab];
    destruct (N.compare_spec (N_of_ascii b) (N_of_ascii c)) as [Hbc|Hbc|Hbc];
    try done; intros H1 H2.
  - rewrite Hab, Hbc, N.compare_refl. eauto.
  - rewrite Hab. by apply N.compare_lt_iff in Hbc as ->.
  - rewrite <- Hbc. by apply N.compare_lt_iff in Hab as ->.
  - assert (N_of_ascii a < N_of_ascii c)%N as Hac by lia.
    by apply N.compare_lt_iff in Hac as ->.
Qed.

Lemma string_leb_trans s1 s2 s3 :
  String.leb s1 s2 = true → String.leb s2 s3 = true → String.leb s1 s3 = true.
Proof.
  unfold String.leb.
  destruct (String.compare s1 s2) eqn:H12; [| |done].
  - apply String.compare_eq_iff in H12 as ->. done.
  - destruct (String.compare s2 s3) eqn:H23; [| |done]; intros _ _.
    + apply String.compare_eq_iff in H23 as <-. by rewrite H12.
    + by rewrite (string_compare_trans_Lt _ _ _ H12 H23).
Qed.

Global Instance key_le_refl : Reflexive key_le.
Proof. intros kv. apply string_leb_refl. Qed.
Global Instance key_le_trans : Transitive key_le.
Proof. intros a b c. apply string_leb_trans. Qed.

Lemma key_le_total a b : key_le a b ∨ key_le b a.
Proof. apply String.leb_total. Qed.

(** *** [Sort] *)

Lemma insert_by_key_perm kv kvs : insert_by_key kv kvs ≡ₚ kv :: kvs.
Proof.
  induction kvs as [|x rest IH]; simpl; [done|].
  destruct (String.leb _ _); [done|]. rewrite IH. apply Permutation_swap.
Qed.

Lemma Sort_perm kvs : Sort kvs ≡ₚ kvs.
Proof.
  induction kvs as [|kv rest IH]; simpl; [done|].
  by rewrite insert_by_key_perm, IH.
Qed.

Lemma insert_by_key_sorted kv kvs :
  Sorted key_le kvs → Sorted key_le (insert_by_key kv kvs).
Proof.
  induction 1 as [|x rest Hs IH Hhd]; simpl; [by repeat constructor|].
  destruct (String.leb (Key kv) (Key x)) eqn:Hle.
  - constructor; [by constructor|]. by constructor.
  - constructor; [done|].
    assert (key_le x kv) as Hx.
    { destruct (key_le_total kv x) as [H|H]; [|done]. unfold key_le in H. congruence. }
    destruct Hhd as [|y rest' Hxy]; simpl; [by constructor|].
    destruct (String.leb (Key kv) (Key y)); by constructor.
Qed.

Lemma Sort_sorted kvs : Sorted key_le (Sort kvs).
Proof. induction kvs; simpl; [constructor|by apply insert_by_key_sorted]. Qed.

Lemma Sort_of_sorted kvs : Sorted key_le kvs → Sort kvs = kvs.
Proof.
  induction 1 as [|x rest Hs IH Hhd]; simpl; [done|].
  rewrite IH. destruct Hhd as [|y rest' Hxy]; simpl; [done|].
  unfold key_le in Hxy. by rewrite Hxy.
Qed.

Lemma Sort_idemp kvs : Sort (Sort kvs) = Sort kvs.
Proof. apply Sort_of_sorted, Sort_sorted. Qed.

(** The sort is stable: the tags of one key keep their order. *)
Lemma insert_by_key_stable k kv kvs :
  filter (λ x, Key x = k) (insert_by_key kv kvs) = filter (λ x, Key x = k) (kv :: kvs).
Proof.
  induction kvs as [|x rest IH]; simpl; [done|].
  destruct (String.leb (Key kv) (Key x)) eqn:Hle; [done|].
  rewrite (filter_cons _ x), IH, !(filter_cons _ kv), (filter_cons _ x).
  destruct (decide (Key x = k)) as [Hx|]; [|done].
  destruct (decide (Key kv = k)) as [Hkv|]; [|done].
  rewrite Hx, Hkv, string_leb_refl in Hle. discriminate Hle.
Qed.

Lemma Sort_stable k kvs :
  filter (λ x, Key x = k) (Sort kvs) = filter (λ x, Key x = k) kvs.
Proof.
  induction kvs as [|kv rest IH]; simpl; [done|].
  by rewrite insert_by_key_stable, !(filter_cons _ kv), IH.
Qed.

(** *** The loop of [adjustSpanTags] *)

Lemma drop_S_eq {A} (l1 l2 : list A) k :
  drop k l1 = drop k l2 → drop (S k) l1 = drop (S k) l2.
Proof.
  intros H. replace (S k) with (k + 1)%nat by lia.
  by rewrite <- !drop_drop, H.
Qed.

(** After [k] iterations the first [newI] cells hold the kept tags among the
    first [k], the cells from [k] on are untouched, and the process tags have
    received the promoted tags among the first [k]. *)
Lemma loop_invariant tags ptags k :
  (k ≤ length tags)%nat →
  let st := foldl loop_body (mkLoop tags 0 ptags) (seq 0 k) in
  length (tags_arr st) = length tags ∧
  (newI st ≤ k)%nat ∧
  take (newI st) (tags_arr st) = kept (take k tags) ∧
  drop k (tags_arr st) = drop k tags ∧
  process_tags st = ptags ++ promoted (take k tags).
Proof.
  induction k as [|k IH]; intros Hk; cbv zeta.
  - simpl. unfold kept, promoted. rewrite take_0, !filter_nil, app_nil_r. auto with lia.
  - rewrite seq_S, foldl_app. simpl.
    destruct IH as (Hlen & Hnew & Htake & Hdrop & Hproc); [lia|].
    set (st := foldl loop_body (mkLoop tags 0 ptags) (seq 0 k)) in *.
    destruct (lookup_lt_is_Some_2 tags k) as [tag Htag]; [lia|].
    assert (tags_arr st !! k = Some tag) as Harr.
    { rewrite <- Htag, <- (Nat.add_0_r k) at 1.
      rewrite <- lookup_drop, Hdrop, lookup_drop. f_equal. lia. }
    unfold loop_body. rewrite Harr.
    rewrite (take_S_r _ _ _ Htag). unfold kept, promoted in *. rewrite !filter_app.
    destruct (decide (Key tag ∈ otelLibraryKeys)) as [Hin|Hnin]; simpl.
    + rewrite filter_cons_False by (by intros []).
      rewrite filter_cons_True by done.
      rewrite !filter_nil, app_nil_r, Hproc, <- (assoc_L (++)).
      split_and!; [done|lia|done| |done].
      by apply drop_S_eq.
    + rewrite filter_cons_True by done.
      rewrite filter_cons_False by done.
      rewrite !filter_nil, app_nil_r.
      assert ((if decide (k ≠ newI st) then <[newI st:=tag]> (tags_arr st)
               else tags_arr st) = <[newI st:=tag]> (tags_arr st)) as ->.
      { case_decide as Hne; [done|].
        symmetry. apply list_insert_id. by rewrite <- Hne. }
      rewrite length_insert. repeat split; try done; try lia.
      * rewrite (take_S_r _ _ tag).
        -- by rewrite take_insert_ge, Htake by lia.
        -- apply list_lookup_insert_eq. lia.
      * rewrite drop_insert_lt by lia. by apply drop_S_eq.
Qed.

Lemma adjustSpanTags_Tags span :
  Span.Tags (adjustSpanTags span) = kept (Span.Tags span).
Proof.
  unfold adjustSpanTags; simpl.
  destruct (loop_invariant (Span.Tags span) (Process.Tags (Span.Process span))
              (length (Span.Tags span))) as (_ & _ & Htake & _); [done|].
  by rewrite Htake, firstn_all.
Qed.

Lemma adjustSpanTags_Process_Tags span :
  Process.Tags (Span.Process (adjustSpanTags span)) =
  Process.Tags (Span.Process span) ++ promoted (Span.Tags span).
Proof.
  unfold adjustSpanTags; simpl.
  destruct (loop_invariant (Span.Tags span) (Process.Tags (Span.Process span))
              (length (Span.Tags span))) as (_ & _ & _ & _ & Hproc); [done|].
  by rewrite Hproc, firstn_all.
Qed.

Lemma kept_no_library_key tags :
  Forall (λ kv, Key kv ∉ otelLibraryKeys) (kept tags).
Proof. apply Forall_forall. intros kv Hkv. by apply list_elem_of_filter in Hkv as [? _]. Qed.

Lemma promoted_library_key tags :
  Forall (λ kv, Key kv ∈ otelLibraryKeys) (promoted tags).
Proof. apply Forall_forall. intros kv Hkv. by apply list_elem_of_filter in Hkv as [? _]. Qed.

Lemma kept_promoted_perm tags : tags ≡ₚ kept tags ++ promoted tags.
Proof.
  unfold kept, promoted. induction tags as [|kv tags IH]; [done|].
  destruct (decide (Key kv ∈ otelLibraryKeys)).
  - rewrite filter_cons_False by (by intros []). rewrite filter_cons_True by done.
    by rewrite <- Permutation_middle, <- IH.
  - rewrite filter_cons_True by done. rewrite filter_cons_False by done.
    simpl. by rewrite <- IH.
Qed.

Lemma kept_of_kept tags : Forall (λ kv, Key kv ∉ otelLibraryKeys) tags → kept tags = tags.
Proof.
  unfold kept. induction 1 as [|kv tags Hkv _ IH]; [done|].
  by rewrite filter_cons_True, IH.
Qed.

Lemma promoted_of_kept tags : Forall (λ kv, Key kv ∉ otelLibraryKeys) tags → promoted tags = [].
Proof.
  unfold promoted. induction 1 as [|kv tags Hkv _ IH]; [done|].
  by rewrite filter_cons_False, IH.
Qed.

(** One span, after both steps of the loop body of [OTelTagAdjuster]. *)
Lemma adjusted_span_Tags span :
  Span.Tags (sortProcessTags (adjustSpanTags span)) = kept (Span.Tags span).
Proof. apply adjustSpanTags_Tags. Qed.

Lemma adjusted_span_Process_Tags span :
  Process.Tags (Span.Process (sortProcessTags (adjustSpanTags span))) =
  Sort (Process.Tags (Span.Process span) ++ promoted (Span.Tags span)).
Proof.
  change (Sort (Process.Tags (Span.Process (adjustSpanTags span))) =
          Sort (Process.Tags (Span.Process span) ++ promoted (Span.Tags span))).
  by rewrite adjustSpanTags_Process_Tags.
Qed.

Lemma adjusted_span_fixed span :
  Forall (λ kv, Key kv ∉ otelLibraryKeys) (Span.Tags span) →
  Sorted key_le (Process.Tags (Span.Process span)) →
  sortProcessTags (adjustSpanTags span) = span.
Proof.
  intros Hkept Hsorted.
  pose proof (adjusted_span_Tags span) as Ht.
  pose proof (adjusted_span_Process_Tags span) as Hp.
  rewrite kept_of_kept in Ht by done.
  rewrite promoted_of_kept, app_nil_r, Sort_of_sorted in Hp by done.
  destruct span as [tid sid op start dur tags [svc ptags]].
  unfold sortProcessTags, adjustSpanTags in *; simpl in *. by rewrite Ht, Hp.
Qed.

End adjuster_facts.

Section shared_facts.
Import adjuster.

Lemma adjustSpan_filter span heap :
  shared.adjustSpan span heap =
  proc ← heap !! shared.Span.Process span;
  Some (shared.with_Tags span (kept (shared.Span.Tags span)),
        <[shared.Span.Process span :=
            Process.mk (Process.ServiceName proc)
              (Sort (Process.Tags proc ++ promoted (shared.Span.Tags span)))]> heap).
Proof.
  unfold shared.adjustSpan. destruct (heap !! shared.Span.Process span) as [proc|]; [|done].
  simpl.
  destruct (loop_invariant (shared.Span.Tags span) (Process.Tags proc)
              (length (shared.Span.Tags span))) as (_ & _ & Htake & _ & Hproc); [done|].
  rewrite firstn_all in Htake, Hproc. by rewrite Htake, Hproc.
Qed.

Lemma promoted_to_cons_eq span spans :
  shared.promoted_to (shared.Span.Process span) (span :: spans) =
  promoted (shared.Span.Tags span) ++ shared.promoted_to (shared.Span.Process span) spans.
Proof. unfold shared.promoted_to. by rewrite filter_cons_True. Qed.

Lemma promoted_to_cons_ne p span spans :
  shared.Span.Process span ≠ p →
  shared.promoted_to p (span :: spans) = shared.promoted_to p spans.
Proof. intros Hne. unfold shared.promoted_to. by rewrite filter_cons_False. Qed.

Lemma promoted_to_elem_of span spans kv :
  span ∈ spans → kv ∈ promoted (shared.Span.Tags span) →
  kv ∈ shared.promoted_to (shared.Span.Process span) spans.
Proof.
  intros Hspan Hkv. unfold shared.promoted_to. apply list_elem_of_join.
  exists (promoted (shared.Span.Tags span)). split; [done|].
  apply list_elem_of_fmap. exists span. split; [done|]. by apply list_elem_of_filter.
Qed.

(** The whole loop over the spans, process by process. *)
Lemma adjustSpans_store spans heap :
  Forall (λ span, (shared.Span.Process span < length heap)%nat) spans →
  ∃ heap',
    shared.adjustSpans spans heap =
      Some ((λ span, shared.with_Tags span (kept (shared.Span.Tags span))) <$> spans, heap') ∧
    length heap' = length heap ∧
    ∀ p proc, heap !! p = Some proc →
      ∃ proc', heap' !! p = Some proc' ∧
        Process.ServiceName proc' = Process.ServiceName proc ∧
        Process.Tags proc' ≡ₚ Process.Tags proc ++ shared.promoted_to p spans ∧
        (Sorted key_le (Process.Tags proc) ∨ p ∈ shared.Span.Process <$> spans →
         Sorted key_le (Process.Tags proc')) ∧
        (p ∉ shared.Span.Process <$> spans → proc' = proc).
Proof.
  intros Hvalid. revert heap Hvalid.
  induction spans as [|span rest IH]; intros heap Hvalid.
  - exists heap. split_and!; [done..|]. intros p proc Hp. exists proc.
    split_and!; try done.
    + unfold shared.promoted_to. simpl. by rewrite app_nil_r.
    + intros [?|Hin]; [done|]. by apply elem_of_nil in Hin.
  - apply Forall_cons in Hvalid as [Hspan Hrest].
    destruct (lookup_lt_is_Some_2 heap _ Hspan) as [proc0 Hproc0].
    set (q := shared.Span.Process span) in *.
    set (proc1 := Process.mk (Process.ServiceName proc0)
                    (Sort (Process.Tags proc0 ++ promoted (shared.Span.Tags span)))).
    destruct (IH (<[q := proc1]> heap)) as (heap' & Hrun & Hlen & Hprocs).
    { by rewrite length_insert. }
    exists heap'. split_and!.
    + cbn [shared.adjustSpans]. rewrite adjustSpan_filter. fold q. rewrite Hproc0.
      simpl. fold proc1. by rewrite Hrun.
    + by rewrite Hlen, length_insert.
    + intros p proc Hp. destruct (decide (p = q)) as [->|Hne].
      * assert (proc = proc0) as -> by congruence.
        destruct (Hprocs q proc1) as (proc' & Hp' & Hname & Htags & Hsorted & _).
        { by apply list_lookup_insert_eq. }
        exists proc'. split_and!; try done.
        -- unfold q. rewrite promoted_to_cons_eq. fold q. rewrite Htags. simpl.
           by rewrite Sort_perm, <- (assoc_L (++)).
        -- intros _. apply Hsorted. left. apply Sort_sorted.
        -- intros Hnot. exfalso. apply Hnot. rewrite fmap_cons. by left.
      * destruct (Hprocs p proc) as (proc' & Hp' & Hname & Htags & Hsorted & Hsame).
        { by rewrite list_lookup_insert_ne. }
        exists proc'. split_and!; try done.
        -- by rewrite promoted_to_cons_ne.
        -- intros [Hs|Hin]; apply Hsorted; [by left|right].
           rewrite fmap_cons in Hin. apply elem_of_cons in Hin as [?|?]; [done|done].
        -- intros Hnot. apply Hsame. intros Hin. apply Hnot. rewrite fmap_cons. by right.
Qed.

(** A second run finds nothing to do. *)
Lemma adjustSpans_fixed spans heap :
  Forall (λ span,
            Forall (λ kv, Key kv ∉ otelLibraryKeys) (shared.Span.Tags span) ∧
            ∃ proc, heap !! shared.Span.Process span = Some proc ∧
                    Sorted key_le (Process.Tags proc)) spans →
  shared.adjustSpans spans heap = Some (spans, heap).
Proof.
  induction 1 as [|span rest (Hkept & proc & Hproc & Hsorted) _ IH]; [done|].
  cbn [shared.adjustSpans]. rewrite adjustSpan_filter, Hproc. simpl.
  rewrite kept_of_kept, promoted_of_kept, app_nil_r, Sort_of_sorted by done.
  assert (shared.with_Tags span (shared.Span.Tags span) = span) as -> by by destruct span.
  assert (Process.mk (Process.ServiceName proc) (Process.Tags proc) = proc) as ->
    by by destruct proc.
  rewrite list_insert_id by done. by rewrite IH.
Qed.

(** Where no two spans share a process, each process ends as the loop on
    its one span leaves it. *)
Lemma adjustSpans_apart spans heap heap' spans' :
  NoDup (shared.Span.Process <$> spans) →
  Forall (λ span, (shared.Span.Process span < length heap)%nat) spans →
  shared.adjustSpans spans heap = Some (spans', heap') →
  Forall (λ span, ∃ proc,
            heap !! shared.Span.Process span = Some proc ∧
            heap' !! shared.Span.Process span =
              Some (Process.mk (Process.ServiceName proc)
                      (Sort (Process.Tags proc ++ promoted (shared.Span.Tags span))))) spans.
Proof.
  intros Hnodup Hvalid. revert heap heap' spans' Hvalid.
  induction spans as [|span rest IH]; intros heap heap' spans' Hvalid Hrun; [constructor|].
  rewrite fmap_cons in Hnodup. apply NoDup_cons in Hnodup as [Hfresh Hnodup].
  apply Forall_cons in Hvalid as [Hspan Hrest].
  destruct (lookup_lt_is_Some_2 heap _ Hspan) as [proc0 Hproc0].
  cbn [shared.adjustSpans] in Hrun. rewrite adjustSpan_filter, Hproc0 in Hrun. simpl in Hrun.
  set (q := shared.Span.Process span) in *.
  set (proc1 := Process.mk (Process.ServiceName proc0)
                  (Sort (Process.Tags proc0 ++ promoted (shared.Span.Tags span)))) in *.
  assert (Forall (λ span, (shared.Span.Process span < length (<[q:=proc1]> heap))%nat) rest)
    as Hrest' by by rewrite length_insert.
  destruct (adjustSpans_store rest (<[q:=proc1]> heap) Hrest') as (heap1 & Hrun1 & _ & Hprocs).
  rewrite Hrun1 in Hrun. simpl in Hrun. injection Hrun as <- <-.
  constructor.
  - exists proc0. split; [done|]. fold q.
    destruct (Hprocs q proc1) as (proc' & Hp' & _ & _ & _ & Hsame).
    { by apply list_lookup_insert_eq. }
    by rewrite Hp', (Hsame Hfresh).
  - specialize (IH Hnodup _ _ _ Hrest' Hrun1).
    apply Forall_forall. intros span' Hin.
    rewrite Forall_forall in IH. destruct (IH span' Hin) as (proc & Hproc & Hproc').
    exists proc. split; [|done].
    rewrite list_lookup_insert_ne in Hproc; [done|].
    intros Heq. apply Hfresh. rewrite Heq. apply list_elem_of_fmap. by exists span'.
Qed.

End shared_facts.

Section aliased_facts.
Import adjuster.

Lemma kept_app a b : kept (a ++ b) = kept a ++ kept b.
Proof. apply filter_app. Qed.
Lemma promoted_app a b : promoted (a ++ b) = promoted a ++ promoted b.
Proof. apply filter_app. Qed.
Lemma kept_promoted_library tag :
  Key tag ∈ otelLibraryKeys → kept [tag] = [] ∧ promoted [tag] = [tag].
Proof.
  intros Hin. unfold kept, promoted.
  rewrite filter_cons_False by (by intros []). by rewrite filter_cons_True by done.
Qed.
Lemma kept_promoted_other tag :
  Key tag ∉ otelLibraryKeys → kept [tag] = [tag] ∧ promoted [tag] = [].
Proof.
  intros Hin. unfold kept, promoted.
  rewrite filter_cons_True by done. by rewrite filter_cons_False by done.
Qed.
Lemma kept_length tags : (length (kept tags) ≤ length tags)%nat.
Proof. apply length_filter. Qed.

(** After [k] iterations the array holds the kept tags among the first [k]
    of the slice at the start of the slice and is otherwise untouched. *)
Lemma aliased_loop_invariant off arr ptags k :
  (off + k ≤ length arr)%nat →
  let st := foldl (aliased.loop_body off) (mkLoop arr 0 ptags) (seq 0 k) in
  let seen := take k (drop off arr) in
  newI st = length (kept seen) ∧
  tags_arr st = take off arr ++ kept seen ++ drop (off + length (kept seen)) arr ∧
  process_tags st = ptags ++ promoted seen.
Proof.
  induction k as [|k IH]; intros Hk; cbv zeta.
  - cbn [seq foldl newI tags_arr process_tags]. rewrite take_0. unfold kept, promoted.
    rewrite !filter_nil. cbn [length app]. by rewrite Nat.add_0_r, take_drop, app_nil_r.
  - rewrite seq_S, foldl_app. cbn [foldl Nat.add].
    destruct IH as (Hnew & Harr & Hproc); [lia|].
    set (st := foldl (aliased.loop_body off) (mkLoop arr 0 ptags) (seq 0 k)) in *.
    set (seen := take k (drop off arr)) in *.
    pose proof (kept_length seen) as Hkept.
    assert (length seen = k) as Hseen.
    { unfold seen. rewrite length_take, length_drop. lia. }
    destruct (lookup_lt_is_Some_2 arr (off + k)) as [tag Htag]; [lia|].
    assert (take (S k) (drop off arr) = seen ++ [tag]) as ->.
    { unfold seen. apply take_S_r. by rewrite lookup_drop. }
    assert (tags_arr st !! (off + k)%nat = Some tag) as Hread.
    { rewrite Harr. rewrite lookup_app_r by (rewrite length_take; lia).
      rewrite length_take, Nat.min_l by lia.
      rewrite lookup_app_r by lia. rewrite lookup_drop. rewrite <- Htag. f_equal. lia. }
    unfold aliased.loop_body. rewrite Hread. rewrite kept_app, promoted_app.
    destruct (decide (Key tag ∈ otelLibraryKeys)) as [Hin|Hnin]; cbn [newI tags_arr process_tags].
    + destruct (kept_promoted_library tag Hin) as [-> ->].
      rewrite !app_nil_r, Hproc, <- (assoc_L (++)). done.
    + destruct (kept_promoted_other tag Hnin) as [-> ->].
      rewrite app_nil_r, length_app. cbn [length].
      split_and!; [lia| |done].
      assert (<[(off + newI st)%nat := tag]> (tags_arr st) =
              take off arr ++ (kept seen ++ [tag]) ++
              drop (off + (length (kept seen) + 1)) arr) as Hwrite.
      { rewrite Harr, Hnew.
        rewrite insert_app_r_alt by (rewrite length_take; lia).
        rewrite length_take, Nat.min_l by lia. f_equal.
        rewrite insert_app_r_alt by lia.
        replace (off + length (kept seen) - off - length (kept seen))%nat with 0%nat by lia.
        rewrite <- (assoc_L (++)). f_equal.
        destruct (lookup_lt_is_Some_2 arr (off + length (kept seen))) as [x Hx]; [lia|].
        rewrite (drop_S _ _ _ Hx). cbn. f_equal. f_equal. lia. }
      case_decide as Hne; [done|].
      rewrite <- Hwrite. symmetry. apply list_insert_id. by rewrite <- Hne.
Qed.


(** The slice of a span after the loop, and the array it leaves. *)
Lemma aliased_adjustSpan_spec span h proc tags :
  aliased.processes h !! aliased.Span.Process span = Some proc →
  aliased.view h (aliased.Span.Tags span) = Some tags →
  ∃ arr,
    aliased.arrays h !! aliased.array (aliased.Span.Tags span) = Some arr ∧
    (aliased.offset (aliased.Span.Tags span) + aliased.len (aliased.Span.Tags span)
       ≤ length arr)%nat ∧
    tags = take (aliased.len (aliased.Span.Tags span))
             (drop (aliased.offset (aliased.Span.Tags span)) arr) ∧
    aliased.adjustSpan span h =
    Some (aliased.with_Tags span
            (aliased.mkSlice (aliased.array (aliased.Span.Tags span))
               (aliased.offset (aliased.Span.Tags span)) (length (kept tags))),
          aliased.mkHeap
            (<[aliased.array (aliased.Span.Tags span) :=
                 take (aliased.offset (aliased.Span.Tags span)) arr ++ kept tags ++
                 drop (aliased.offset (aliased.Span.Tags span) + length (kept tags)) arr]>
               (aliased.arrays h))
            (<[aliased.Span.Process span :=
                 Process.mk (Process.ServiceName proc)
                   (Sort (Process.Tags proc ++ promoted tags))]> (aliased.processes h))).
Proof.
  unfold aliased.view, aliased.adjustSpan. intros Hproc Hview.
  rewrite Hproc. cbn [mbind option_bind].
  destruct (aliased.arrays h !! aliased.array (aliased.Span.Tags span)) as [arr|]; [|done].
  cbn [mbind option_bind] in Hview |- *.
  case_decide as Hbound; [|done]. injection Hview as <-.
  exists arr. split_and!; [done..|].
  destruct (aliased_loop_invariant (aliased.offset (aliased.Span.Tags span)) arr
              (Process.Tags proc) (aliased.len (aliased.Span.Tags span)) Hbound)
    as (Hnew & Harr & Hptags).
  cbv zeta. by rewrite Hnew, Harr, Hptags.
Qed.


(** A slice shows the same tags in two heaps that hold the same array. *)
Lemma aliased_view_ext h h' s :
  aliased.arrays h' !! aliased.array s = aliased.arrays h !! aliased.array s →
  aliased.view h' s = aliased.view h s.
Proof. unfold aliased.view. by intros ->. Qed.

Lemma aliased_to_shared_ext h h' span :
  aliased.arrays h' !! aliased.array (aliased.Span.Tags span) =
    aliased.arrays h !! aliased.array (aliased.Span.Tags span) →
  aliased.to_shared h' span = aliased.to_shared h span.
Proof. unfold aliased.to_shared. intros H. by rewrite (aliased_view_ext h h'). Qed.

(** One span: what the loop does to the heap, and that it does to the span
    read from the heap what [shared.adjustSpan] does. *)
Lemma aliased_adjustSpan_sim span h vspan :
  aliased.to_shared h span = Some vspan →
  (aliased.Span.Process span < length (aliased.processes h))%nat →
  ∃ span' h',
    aliased.adjustSpan span h = Some (span', h') ∧
    shared.adjustSpan vspan (aliased.processes h) =
      Some (shared.with_Tags vspan (kept (shared.Span.Tags vspan)), aliased.processes h') ∧
    aliased.to_shared h' span' =
      Some (shared.with_Tags vspan (kept (shared.Span.Tags vspan))) ∧
    aliased.array (aliased.Span.Tags span') = aliased.array (aliased.Span.Tags span) ∧
    aliased.offset (aliased.Span.Tags span') = aliased.offset (aliased.Span.Tags span) ∧
    aliased.Span.Process span' = aliased.Span.Process span ∧
    aliased.Span.SpanID span' = aliased.Span.SpanID span ∧
    (∀ b, b ≠ aliased.array (aliased.Span.Tags span) →
          aliased.arrays h' !! b = aliased.arrays h !! b) ∧
    (∀ b arr, aliased.arrays h !! b = Some arr →
              ∃ arr', aliased.arrays h' !! b = Some arr' ∧ length arr' = length arr).
Proof.
  unfold aliased.to_shared. intros Hv Hp.
  destruct (aliased.view h (aliased.Span.Tags span)) as [tags|] eqn:Hview; [|done].
  cbn [mbind option_bind] in Hv. injection Hv as <-.
  destruct (lookup_lt_is_Some_2 _ _ Hp) as [proc Hproc].
  destruct (aliased_adjustSpan_spec span h proc tags Hproc Hview)
    as (arr & Harr & Hbound & Htags & Hrun).
  set (a := aliased.array (aliased.Span.Tags span)) in *.
  set (off := aliased.offset (aliased.Span.Tags span)) in *.
  pose proof (kept_length tags) as Hkept.
  assert (length tags = aliased.len (aliased.Span.Tags span)) as Hlen.
  { rewrite Htags, length_take, length_drop. lia. }
  set (arr' := take off arr ++ kept tags ++ drop (off + length (kept tags)) arr) in *.
  assert (length arr' = length arr) as Hlen'.
  { unfold arr'. rewrite !length_app, length_take, length_drop. lia. }
  eexists _, _. split_and!; [exact Hrun|..].
  - rewrite adjustSpan_filter. cbn [shared.Span.Process shared.Span.Tags aliased.processes].
    by rewrite Hproc.
  - unfold aliased.view.
    cbn [aliased.with_Tags aliased.Span.Tags aliased.array aliased.offset aliased.len
         aliased.arrays aliased.Span.TraceID aliased.Span.SpanID aliased.Span.OperationName
         aliased.Span.StartTime aliased.Span.Duration aliased.Span.Process].
    rewrite list_lookup_insert_eq by (by eapply lookup_lt_Some).
    cbn [mbind option_bind]. rewrite decide_True by lia.
    unfold arr'. rewrite drop_app_length' by (rewrite length_take; lia).
    by rewrite take_app_length.
  - done.
  - done.
  - done.
  - done.
  - intros b Hb. cbn [aliased.arrays]. by rewrite list_lookup_insert_ne.
  - intros b arr0 Hb. cbn [aliased.arrays]. destruct (decide (b = a)) as [->|Hne].
    + exists arr'. rewrite list_lookup_insert_eq by (by eapply lookup_lt_Some).
      split; [done|]. congruence.
    + exists arr0. by rewrite list_lookup_insert_ne.
Qed.

(** A slice that lay inside its array still does after a span was
    adjusted. *)
Lemma aliased_view_is_Some h h' s :
  (∀ b arr, aliased.arrays h !! b = Some arr →
            ∃ arr', aliased.arrays h' !! b = Some arr' ∧ length arr' = length arr) →
  is_Some (aliased.view h s) → is_Some (aliased.view h' s).
Proof.
  unfold aliased.view. intros Hsame [tags Hview].
  destruct (aliased.arrays h !! aliased.array s) as [arr|] eqn:Harr; [|done].
  destruct (Hsame _ _ Harr) as (arr' & -> & Hlen). cbn [mbind option_bind] in *.
  rewrite Hlen. case_decide; [by eexists|done].
Qed.

Lemma Forall2_impl_in {A B} (R R' : A → B → Prop) (l : list A) (k : list B) :
  Forall2 R l k → (∀ x y, x ∈ l → R x y → R' x y) → Forall2 R' l k.
Proof.
  induction 1 as [|x y l k Hxy _ IH]; intros Himpl; constructor.
  - apply Himpl; [left|done].
  - apply IH. intros x' y' Hin. apply Himpl. by right.
Qed.

(** The loop over spans on arrays of their own does to the spans read from
    the heap what [shared.adjustSpans] does. *)
Lemma aliased_adjustSpans_sim spans h vspans :
  Forall2 (λ span vspan, aliased.to_shared h span = Some vspan) spans vspans →
  NoDup ((λ span, aliased.array (aliased.Span.Tags span)) <$> spans) →
  Forall (λ span, (aliased.Span.Process span < length (aliased.processes h))%nat) spans →
  ∃ spans' h',
    aliased.adjustSpans spans h = Some (spans', h') ∧
    shared.adjustSpans vspans (aliased.processes h) =
      Some ((λ vspan, shared.with_Tags vspan (kept (shared.Span.Tags vspan))) <$> vspans,
            aliased.processes h') ∧
    Forall3 (λ span vspan span',
               aliased.to_shared h span = Some vspan ∧
               aliased.to_shared h' span' =
                 Some (shared.with_Tags vspan (kept (shared.Span.Tags vspan))) ∧
               aliased.Span.Process span' = aliased.Span.Process span ∧
               aliased.Span.SpanID span' = aliased.Span.SpanID span)
            spans vspans spans' ∧
    (∀ b, b ∉ (λ span, aliased.array (aliased.Span.Tags span)) <$> spans →
          aliased.arrays h' !! b = aliased.arrays h !! b).
Proof.
  revert vspans h. induction spans as [|span rest IH]; intros vspans h Hvalues Hnodup Hprocs.
  - apply Forall2_nil_inv_l in Hvalues as ->.
    exists [], h. split_and!; [done|done|constructor|done].
  - apply Forall2_cons_inv_l in Hvalues as (vspan & vrest & Hvalue & Hrest & ->).
    rewrite fmap_cons in Hnodup. apply NoDup_cons in Hnodup as [Hfresh Hnodup].
    apply Forall_cons in Hprocs as [Hp Hps].
    destruct (aliased_adjustSpan_sim span h vspan Hvalue Hp)
      as (span' & h1 & Hrun & Hshared & Hvalue' & Harray & _ & Hproc' & Hid & Hother & Hlens).
    assert (length (aliased.processes h1) = length (aliased.processes h)) as Hplen.
    { rewrite adjustSpan_filter in Hshared.
      destruct (aliased.processes h !! shared.Span.Process vspan); [|done].
      cbn in Hshared. injection Hshared as <-. by rewrite length_insert. }
    assert (∀ span0, span0 ∈ rest →
              aliased.to_shared h1 span0 = aliased.to_shared h span0) as Hsame.
    { intros span0 Hin. apply aliased_to_shared_ext, Hother.
      intros Heq. apply Hfresh. rewrite <- Heq. apply list_elem_of_fmap. by exists span0. }
    destruct (IH vrest h1) as (rest' & h' & Hrun' & Hshared' & Hvalues' & Hother').
    + eapply Forall2_impl_in; [exact Hrest|]. intros span0 vspan0 Hin Hv0. cbv beta in *.
      by rewrite Hsame.
    + done.
    + by rewrite Hplen.
    + exists (span' :: rest'), h'. split_and!.
      * cbn [aliased.adjustSpans]. rewrite Hrun. cbn. by rewrite Hrun'.
      * cbn [shared.adjustSpans]. rewrite Hshared. cbn. rewrite Hshared'. done.
      * constructor.
        -- split_and!; [done| |done|done]. rewrite <- Hvalue'.
           apply aliased_to_shared_ext, Hother'. by rewrite Harray.
        -- clear -Hvalues' Hrest. revert Hrest. 
           induction Hvalues' as [|span0 vspan0 span0' rest0 vrest0 rest0' (H1 & H2 & H3 & H4) _ IH0];
             intros Hrest; [constructor|].
           apply Forall2_cons in Hrest as [Hv0 Hrest]. constructor; [done|]. by apply IH0.
      * intros b Hb. rewrite fmap_cons, not_elem_of_cons in Hb. destruct Hb as [Hne Hb].
        by rewrite Hother', Hother.
Qed.

Lemma Forall3_Forall2_lr {A B C} (P : A → B → C → Prop) l k m :
  Forall3 P l k m → Forall2 (λ x z, ∃ y, y ∈ k ∧ P x y z) l m.
Proof.
  induction 1 as [|x y z l k m Hxyz _ IH]; constructor.
  - exists y. split; [left|done].
  - eapply Forall2_impl; [exact IH|]. intros x' z' (y' & Hin & HP). exists y'.
    split; [by right|done].
Qed.

(** The spans of a valid trace, read from the heap. *)
Lemma aliased_valid_values spans h :
  Forall (λ span, (aliased.Span.Process span < length (aliased.processes h))%nat ∧
                  is_Some (aliased.view h (aliased.Span.Tags span))) spans →
  ∃ vspans, Forall2 (λ span vspan, aliased.to_shared h span = Some vspan) spans vspans.
Proof.
  induction 1 as [|span rest [_ [tags Htags]] _ [vrest IH]]; [by exists []|].
  eexists (_ :: vrest). constructor; [|done]. unfold aliased.to_shared. by rewrite Htags.
Qed.

Lemma aliased_to_shared_inv h span vspan :
  aliased.to_shared h span = Some vspan →
  aliased.view h (aliased.Span.Tags span) = Some (shared.Span.Tags vspan) ∧
  shared.Span.Process vspan = aliased.Span.Process span.
Proof.
  unfold aliased.to_shared.
  destruct (aliased.view h (aliased.Span.Tags span)) as [tags|]; [|done].
  by intros [= <-].
Qed.

Lemma aliased_promoted_to h p spans vspans :
  Forall2 (λ span vspan, aliased.to_shared h span = Some vspan) spans vspans →
  aliased.promoted_to h p spans = shared.promoted_to p vspans.
Proof.
  unfold aliased.promoted_to, shared.promoted_to.
  induction 1 as [|span vspan rest vrest [Hview Hproc]%aliased_to_shared_inv _ IH]; [done|].
  destruct (decide (aliased.Span.Process span = p)) as [Hp|Hp].
  - rewrite (filter_cons_True _ span) by done.
    rewrite (filter_cons_True _ vspan) by congruence.
    rewrite !fmap_cons. cbn [mjoin list_join]. rewrite Hview. cbn [default].
    f_equal. apply IH.
  - rewrite (filter_cons_False _ span) by done.
    by rewrite (filter_cons_False _ vspan) by congruence.
Qed.


(** Where no two spans share a process, the store ends for each span as one
    run of the loop on the span leaves it. *)
Lemma aliased_deref h span vspan :
  aliased.to_shared h span = Some vspan →
  aliased.deref h span = shared.deref (aliased.processes h) vspan.
Proof.
  intros Hv. pose proof (aliased_to_shared_inv _ _ _ Hv) as [Hview Hproc].
  unfold aliased.deref, shared.deref. rewrite Hproc, Hview.
  unfold aliased.to_shared in Hv. rewrite Hview in Hv. by injection Hv as <-.
Qed.

Lemma shared_adjustSpans_agrees spans heap heap' spans' :
  NoDup (shared.Span.Process <$> spans) →
  Forall (λ span, (shared.Span.Process span < length heap)%nat) spans →
  shared.adjustSpans spans heap = Some (spans', heap') →
  Forall (λ span, ∃ value,
            shared.deref heap span = Some value ∧
            shared.deref heap' (shared.with_Tags span (kept (shared.Span.Tags span))) =
              Some (sortProcessTags (adjustSpanTags value))) spans.
Proof.
  intros Hnodup Hvalid Hrun.
  pose proof (adjustSpans_apart _ _ _ _ Hnodup Hvalid Hrun) as Happ.
  eapply Forall_impl; [exact Happ|]. intros span (proc & Hproc & Hproc'). simpl.
  unfold shared.deref. cbn [shared.with_Tags shared.Span.Process].
  rewrite Hproc, Hproc'. simpl. eexists. split; [done|]. f_equal.
  unfold sortProcessTags.
  rewrite adjustSpanTags_Tags, adjustSpanTags_Process_Tags. simpl.
  unfold adjustSpanTags. simpl. done.
Qed.


(** The array a span leaves: as long as before; through the slice it shows
    the kept tags and behind them the old cells; every cell holds what it
    held or a tag that was kept. *)
Lemma aliased_array_after off len arr :
  (off + len ≤ length arr)%nat →
  let tags := take len (drop off arr) in
  let arr' := take off arr ++ kept tags ++ drop (off + length (kept tags)) arr in
  length arr' = length arr ∧
  take len (drop off arr') = kept tags ++ drop (length (kept tags)) tags ∧
  (∀ j kv, arr' !! j = Some kv → arr !! j = Some kv ∨ Key kv ∉ otelLibraryKeys).
Proof.
  intros Hbound tags arr'.
  pose proof (kept_length tags) as Hkept.
  assert (length tags = len) as Hlen.
  { unfold tags. rewrite length_take, length_drop. lia. }
  assert (length (take off arr) = off) as Hoff by (rewrite length_take; lia).
  split_and!.
  - unfold arr'. rewrite !length_app, length_take, length_drop. lia.
  - unfold arr'. rewrite drop_app_length' by done.
    rewrite take_app, take_ge by lia. f_equal.
    unfold tags at 3. rewrite <- drop_drop, take_drop_commute. do 2 f_equal. lia.
  - intros j kv. unfold arr'. intros Hj.
    destruct (decide (j < off)%nat) as [Hlt|Hge].
    { left. rewrite lookup_app_l, lookup_take_lt in Hj by lia. done. }
    rewrite lookup_app_r in Hj by lia. rewrite Hoff in Hj.
    destruct (decide (j - off < length (kept tags))%nat) as [Hin|Hout].
    + right. rewrite lookup_app_l in Hj by done.
      apply list_elem_of_lookup_2 in Hj. by apply list_elem_of_filter in Hj as [? _].
    + left. rewrite lookup_app_r, lookup_drop in Hj by lia. rewrite <- Hj. f_equal. lia.
Qed.

(** One span leaves its own slice without telemetry keys, and every slice
    that had none still has none, whatever array it is on. *)
Lemma aliased_adjustSpan_clean span h span' h' :
  is_Some (aliased.view h (aliased.Span.Tags span)) →
  aliased.adjustSpan span h = Some (span', h') →
  aliased.clean h' (aliased.Span.Tags span') ∧
  (∀ s, aliased.clean h s → aliased.clean h' s) ∧
  (∀ s, is_Some (aliased.view h s) → is_Some (aliased.view h' s)) ∧
  length (aliased.processes h') = length (aliased.processes h) ∧
  aliased.Span.Process span' = aliased.Span.Process span ∧
  (∃ proc', aliased.processes h' !! aliased.Span.Process span = Some proc' ∧
            Sorted key_le (Process.Tags proc')) ∧
  (∀ p, p ≠ aliased.Span.Process span →
        aliased.processes h' !! p = aliased.processes h !! p).
Proof.
  intros [tags Hview] Hrun.
  destruct (aliased.processes h !! aliased.Span.Process span) as [proc|] eqn:Hproc.
  2:{ unfold aliased.adjustSpan in Hrun. by rewrite Hproc in Hrun. }
  destruct (aliased_adjustSpan_spec span h proc tags Hproc Hview)
    as (arr & Harr & Hbound & Htags & Hspec).
  rewrite Hspec in Hrun. injection Hrun as <- <-.
  set (a := aliased.array (aliased.Span.Tags span)) in *.
  set (off := aliased.offset (aliased.Span.Tags span)) in *.
  set (len := aliased.len (aliased.Span.Tags span)) in *.
  destruct (aliased_array_after off len arr Hbound) as (Hlen & Hshow & Hcells).
  rewrite <- Htags in Hlen, Hshow, Hcells.
  set (arr' := take off arr ++ kept tags ++ drop (off + length (kept tags)) arr) in *.
  pose proof (kept_length tags) as Hkept.
  assert (length tags = len) as Hlent.
  { rewrite Htags, length_take, length_drop. lia. }
  assert (a < length (aliased.arrays h))%nat as Ha by (by eapply lookup_lt_Some).
  split_and!.
  - exists (kept tags). split; [|apply kept_no_library_key].
    unfold aliased.view.
    cbn [aliased.with_Tags aliased.Span.Tags aliased.array aliased.offset aliased.len
         aliased.arrays].
    rewrite list_lookup_insert_eq by done. cbn [mbind option_bind].
    rewrite decide_True by lia.
    unfold arr'. rewrite drop_app_length' by (rewrite length_take; lia).
    by rewrite take_app_length.
  - intros s (stags & Hs & Hclean). unfold aliased.clean, aliased.view in *.
    cbn [aliased.arrays]. destruct (decide (aliased.array s = a)) as [Heq|Hne].
    + rewrite Heq in *. rewrite list_lookup_insert_eq by done.
      fold a in Harr. rewrite Harr in Hs. cbn [mbind option_bind] in *. rewrite Hlen.
      case_decide as Hsb; [|done]. injection Hs as <-.
      eexists. split; [done|]. apply Forall_lookup. intros i kv Hi.
      assert (i < aliased.len s)%nat as Hilt.
      { apply lookup_lt_Some in Hi. rewrite length_take in Hi. lia. }
      rewrite lookup_take_lt, lookup_drop in Hi by done.
      destruct (Hcells _ _ Hi) as [Hold|Hnew]; [|done].
      rewrite Forall_lookup in Hclean. apply (Hclean i).
      by rewrite lookup_take_lt, lookup_drop.
    + rewrite list_lookup_insert_ne by done. by exists stags.
  - intros s. apply aliased_view_is_Some. intros b arr0 Hb. cbn [aliased.arrays].
    destruct (decide (b = a)) as [->|Hne].
    + exists arr'. rewrite list_lookup_insert_eq by done. split; [done|]. congruence.
    + exists arr0. by rewrite list_lookup_insert_ne.
  - cbn [aliased.processes]. by rewrite length_insert.
  - done.
  - eexists. cbn [aliased.processes]. split.
    + apply list_lookup_insert_eq. by eapply lookup_lt_Some.
    + apply Sort_sorted.
  - intros p Hp. cbn [aliased.processes]. by rewrite list_lookup_insert_ne.
Qed.

(** A span whose slice carries no telemetry key and whose process has its
    tags sorted is left as it is, and so is the heap. *)
Lemma aliased_adjustSpan_fixed span h proc :
  aliased.clean h (aliased.Span.Tags span) →
  aliased.processes h !! aliased.Span.Process span = Some proc →
  Sorted key_le (Process.Tags proc) →
  aliased.adjustSpan span h = Some (span, h).
Proof.
  intros (tags & Hview & Hclean) Hproc Hsorted.
  destruct (aliased_adjustSpan_spec span h proc tags Hproc Hview)
    as (arr & Harr & Hbound & Htags & ->).
  rewrite kept_of_kept, promoted_of_kept, app_nil_r, Sort_of_sorted by done.
  assert (length tags = aliased.len (aliased.Span.Tags span)) as Hlen.
  { rewrite Htags, length_take, length_drop. lia. }
  rewrite Hlen. f_equal. f_equal.
  - by destruct span as [? ? ? ? ? [? ? ?] ?].
  - destruct h as [arrays procs]. cbn [aliased.arrays aliased.processes] in *. f_equal.
    + apply list_insert_id. rewrite Harr. f_equal.
      rewrite Htags. rewrite <- (drop_drop arr).
      by rewrite (take_drop _ (drop _ arr)), take_drop.
    + apply list_insert_id. rewrite Hproc. by destruct proc.
Qed.


(** The whole loop: every span ends with a slice without telemetry keys and
    a process with sorted tags. *)
Lemma aliased_adjustSpans_clean spans h spans' h' :
  Forall (λ span, is_Some (aliased.view h (aliased.Span.Tags span))) spans →
  aliased.adjustSpans spans h = Some (spans', h') →
  Forall (λ span',
            aliased.clean h' (aliased.Span.Tags span') ∧
            ∃ proc', aliased.processes h' !! aliased.Span.Process span' = Some proc' ∧
                     Sorted key_le (Process.Tags proc')) spans' ∧
  (∀ s, aliased.clean h s → aliased.clean h' s) ∧
  (∀ p proc, aliased.processes h !! p = Some proc → Sorted key_le (Process.Tags proc) →
             ∃ proc', aliased.processes h' !! p = Some proc' ∧
                      Sorted key_le (Process.Tags proc')).
Proof.
  revert h spans' h'. induction spans as [|span rest IH]; intros h spans' h' Hviews Hrun.
  - injection Hrun as <- <-. split_and!; [constructor|done|]. intros p proc Hp Hs. by exists proc.
  - apply Forall_cons in Hviews as [Hview Hviews].
    cbn [aliased.adjustSpans] in Hrun.
    destruct (aliased.adjustSpan span h) as [[span1 h1]|] eqn:Hstep; [|done].
    cbn [mbind option_bind] in Hrun.
    destruct (aliased.adjustSpans rest h1) as [[rest1 h2]|] eqn:Hrest; [|done].
    cbn in Hrun. injection Hrun as <- <-.
    destruct (aliased_adjustSpan_clean span h span1 h1 Hview Hstep)
      as (Hclean1 & Hkeep1 & Hsome1 & _ & Hproc1 & (proc1 & Hp1 & Hsorted1) & Hother1).
    destruct (IH h1 rest1 h2) as (Hall & Hkeep2 & Hsorted2); [|done|].
    { eapply Forall_impl; [exact Hviews|]. intros span0. apply Hsome1. }
    split_and!.
    + constructor; [|done]. split; [by apply Hkeep2|].
      rewrite Hproc1. by apply (Hsorted2 _ proc1).
    + intros s Hs. by apply Hkeep2, Hkeep1.
    + intros p proc Hp Hs.
      destruct (decide (p = aliased.Span.Process span)) as [->|Hne].
      * by apply (Hsorted2 _ proc1).
      * apply (Hsorted2 _ proc); [|done]. by rewrite Hother1.
Qed.

Lemma aliased_adjustSpans_fixed spans h :
  Forall (λ span,
            aliased.clean h (aliased.Span.Tags span) ∧
            ∃ proc, aliased.processes h !! aliased.Span.Process span = Some proc ∧
                    Sorted key_le (Process.Tags proc)) spans →
  aliased.adjustSpans spans h = Some (spans, h).
Proof.
  induction 1 as [|span rest (Hclean & proc & Hproc & Hsorted) _ IH]; [done|].
  cbn [aliased.adjustSpans].
  rewrite (aliased_adjustSpan_fixed span h proc) by done. cbn. by rewrite IH.
Qed.

End aliased_facts.

Section tlscfg_facts.
Import tlscfg.

Lemma allCiphers_snoc suites suite :
  allCiphers (suites ++ [suite]) = <[Name suite := ID suite]> (allCiphers suites).
Proof. unfold allCiphers. by rewrite foldl_app. Qed.

(** The keys of the map are the names of the table. *)
Lemma allCiphers_is_Some suites name :
  is_Some (allCiphers suites !! name) ↔ recognized suites name.
Proof.
  unfold recognized. induction suites as [|suite suites IH] using rev_ind.
  - unfold allCiphers; simpl. rewrite lookup_empty, elem_of_nil.
    split; [by intros [? ?]|done].
  - rewrite allCiphers_snoc, fmap_app, elem_of_app, <- IH. simpl.
    rewrite list_elem_of_singleton.
    destruct (decide (Name suite = name)) as [->|Hne].
    + rewrite lookup_insert_eq. split; eauto.
    + rewrite lookup_insert_ne by done. split; [by left|]. by intros [?|?].
Qed.

(** The loop on recognized names: the IDs are appended in input order. *)
Lemma namesToIDs_loop_ok possibleCiphers ciphersIDs cipherNames ids :
  Forall2 (λ name id, possibleCiphers !! name = Some id) cipherNames ids →
  namesToIDs_loop possibleCiphers ciphersIDs cipherNames =
    (match cipherNames with
     | [] => ciphersIDs
     | _ => Some (elements ciphersIDs ++ ids)
     end, None).
Proof.
  intros H. revert ciphersIDs.
  induction H as [|name id names ids Hid Hrest IH]; intros ciphersIDs; simpl; [done|].
  rewrite Hid, IH. destruct Hrest; simpl.
  - done.
  - by rewrite <- (assoc_L (++)).
Qed.

(** The loop on a list with an unknown name: nil and an error. *)
Lemma namesToIDs_loop_error possibleCiphers ciphersIDs cipherNames :
  Exists (λ name, possibleCiphers !! name = None) cipherNames →
  ∃ err, namesToIDs_loop possibleCiphers ciphersIDs cipherNames = (None, Some err).
Proof.
  intros H. revert ciphersIDs.
  induction cipherNames as [|name names IH]; intros ciphersIDs; [by inversion H|].
  simpl. destruct (possibleCiphers !! name) as [id|] eqn:Hid; [|eauto].
  apply IH. inversion H; [congruence|done].
Qed.

Lemma allCiphers_last suites name :
  allCiphers suites !! name = ID <$> last (filter (λ s, Name s = name) suites).
Proof.
  induction suites as [|suite suites IH] using rev_ind; [done|].
  rewrite allCiphers_snoc, filter_app.
  destruct (decide (Name suite = name)) as [<-|Hne].
  - rewrite lookup_insert_eq. rewrite filter_cons_True by done.
    cbn [filter list_filter]. by rewrite last_snoc.
  - rewrite lookup_insert_ne by done. rewrite filter_cons_False by done.
    cbn [filter list_filter]. by rewrite app_nil_r.
Qed.

Lemma last_filter_split {A} (P : A → Prop) `{∀ x, Decision (P x)} (l : list A) x :
  last (filter P l) = Some x →
  ∃ before after, l = before ++ x :: after ∧ P x ∧ Forall (λ y, ¬ P y) after.
Proof.
  induction l as [|y l IH] using rev_ind; [done|].
  rewrite filter_app. destruct (decide (P y)) as [Hy|Hy].
  - rewrite filter_cons_True by done. cbn [filter list_filter]. rewrite last_snoc.
    intros [= ->]. by exists l, [].
  - rewrite filter_cons_False by done. cbn [filter list_filter]. rewrite app_nil_r.
    intros (before & after & -> & Hx & Hafter)%IH.
    exists before, (after ++ [y]). split_and!; [by rewrite <- app_assoc|done|].
    apply Forall_app. split; [done|]. by apply Forall_singleton.
Qed.

Lemma namesToIDs_loop_error_any possibleCiphers ciphersIDs cipherNames :
  (namesToIDs_loop possibleCiphers ciphersIDs cipherNames).2 =
  (namesToIDs_loop possibleCiphers None cipherNames).2.
Proof.
  revert ciphersIDs. induction cipherNames as [|cipher rest IH]; intros ciphersIDs; [done|].
  cbn [namesToIDs_loop]. destruct (possibleCiphers !! cipher) as [intValue|]; [|done].
  by rewrite IH, (IH (append None intValue)).
Qed.

Lemma namesToIDs_loop_elements possibleCiphers ciphersIDs cipherNames :
  (namesToIDs_loop possibleCiphers ciphersIDs cipherNames).2 = None →
  elements (namesToIDs_loop possibleCiphers ciphersIDs cipherNames).1 =
  elements ciphersIDs ++ elements (namesToIDs_loop possibleCiphers None cipherNames).1.
Proof.
  revert ciphersIDs. induction cipherNames as [|cipher rest IH]; intros ciphersIDs.
  { intros _. cbn. by rewrite app_nil_r. }
  cbn [namesToIDs_loop]. destruct (possibleCiphers !! cipher) as [intValue|]; [|done].
  intros Hok. rewrite IH by done.
  rewrite (IH (append None intValue)).
  - unfold append, elements. cbn. by rewrite <- app_assoc.
  - by rewrite namesToIDs_loop_error_any in Hok |- *.
Qed.

Lemma namesToIDs_loop_app possibleCiphers ciphersIDs a b :
  namesToIDs_loop possibleCiphers ciphersIDs (a ++ b) =
  match namesToIDs_loop possibleCiphers ciphersIDs a with
  | (s, None) => namesToIDs_loop possibleCiphers s b
  | failed => failed
  end.
Proof.
  revert ciphersIDs. induction a as [|cipher rest IH]; intros ciphersIDs; [done|].
  cbn [namesToIDs_loop app]. destruct (possibleCiphers !! cipher) as [intValue|]; [|done].
  apply IH.
Qed.

Lemma namesToIDs_loop_failed possibleCiphers ciphersIDs cipherNames :
  (namesToIDs_loop possibleCiphers ciphersIDs cipherNames).2 ≠ None →
  (namesToIDs_loop possibleCiphers ciphersIDs cipherNames).1 = None.
Proof.
  revert ciphersIDs. induction cipherNames as [|cipher rest IH]; intros ciphersIDs; [done|].
  cbn [namesToIDs_loop]. destruct (possibleCiphers !! cipher) as [intValue|]; [|done].
  apply IH.
Qed.

Lemma namesToIDs_loop_lookups possibleCiphers ciphersIDs cipherNames :
  (namesToIDs_loop possibleCiphers ciphersIDs cipherNames).2 = None →
  Forall2 (λ name id, possibleCiphers !! name = Some id) cipherNames
    (elements (namesToIDs_loop possibleCiphers None cipherNames).1).
Proof.
  rewrite namesToIDs_loop_error_any.
  induction cipherNames as [|cipher rest IH]; [constructor|].
  cbn [namesToIDs_loop]. destruct (possibleCiphers !! cipher) as [intValue|] eqn:Hc; [|done].
  intros Hok. rewrite namesToIDs_loop_elements by done.
  constructor; [done|]. apply IH. by rewrite namesToIDs_loop_error_any in Hok.
Qed.

Lemma versions_lookup name :
  versions !! name =
  if decide (name = "1.0") then Some VersionTLS10
  else if decide (name = "1.1") then Some VersionTLS11
  else if decide (name = "1.2") then Some VersionTLS12
  else if decide (name = "1.3") then Some VersionTLS13
  else None.
Proof.
  unfold versions. repeat case_decide; subst;
    repeat first [ rewrite lookup_insert_eq | rewrite lookup_insert_ne by done
                 | rewrite lookup_singleton_eq | rewrite lookup_singleton_ne by done ];
    done.
Qed.

(** The ID stored for a name is the ID of the last suite of the table that
    carries the name. *)
Lemma allCiphers_from_table suites name id :
  allCiphers suites !! name = Some id →
  ∃ before suite after,
    suites = before ++ suite :: after ∧ Name suite = name ∧ ID suite = id ∧
    Forall (λ other, Name other ≠ name) after.
Proof.
  rewrite allCiphers_last.
  destruct (last (filter (λ s, Name s = name) suites)) as [suite|] eqn:Hlast; [|done].
  intros [= <-]. apply last_filter_split in Hlast as (before & after & -> & Hname & Hafter).
  by exists before, suite, after.
Qed.

(** In a table without repeated names it is the ID of the one suite that
    carries the name. *)
Lemma allCiphers_unique suites name id suite :
  NoDup (Name <$> suites) →
  allCiphers suites !! name = Some id →
  suite ∈ suites → Name suite = name → ID suite = id.
Proof.
  intros Hnodup (before & suite0 & after & -> & Hname0 & <- & Hafter)%allCiphers_from_table
    Hin Hname.
  rewrite fmap_app, fmap_cons in Hnodup.
  apply NoDup_app in Hnodup as (_ & Hbefore & _).
  apply elem_of_app in Hin as [Hin|Hin].
  - destruct (Hbefore (Name suite)).
    + apply list_elem_of_fmap. by exists suite.
    + rewrite Hname, <- Hname0. left.
  - apply elem_of_cons in Hin as [->|Hin]; [done|].
    rewrite Forall_forall in Hafter. by destruct (Hafter suite Hin).
Qed.

(** A list with an unrecognized name splits at the first one. *)
Lemma first_unrecognized suites cipherNames :
  Exists (λ name, ¬ recognized suites name) cipherNames →
  ∃ known bad rest,
    cipherNames = known ++ bad :: rest ∧
    Forall (recognized suites) known ∧ ¬ recognized suites bad.
Proof.
  induction cipherNames as [|name names IH]; [by inversion 1|].
  intros Hex. unfold recognized in *.
  destruct (decide (name ∈ Name <$> suites)) as [Hname|Hname].
  - destruct IH as (known & bad & rest & -> & Hknown & Hbad).
    { by inversion Hex. }
    exists (name :: known), bad, rest. split_and!; [done|by constructor|done].
  - by exists [], name, names.
Qed.

(** The loop stops at the first unrecognized name and reports it. *)
Lemma CipherSuiteNamesToIDs_first_unrecognized suites known bad rest :
  Forall (recognized suites) known →
  ¬ recognized suites bad →
  CipherSuiteNamesToIDs suites (known ++ bad :: rest) =
  (None, Some ("cipher suite " +:+ bad +:+ " not supported or doesn't exist")).
Proof.
  intros Hknown Hbad. unfold CipherSuiteNamesToIDs.
  assert (∃ ids, Forall2 (λ name id, allCiphers suites !! name = Some id) known ids)
    as [ids Hids].
  { induction Hknown as [|name known Hname _ [ids IH]]; [by exists []|].
    apply allCiphers_is_Some in Hname as [id Hid]. exists (id :: ids). by constructor. }
  rewrite namesToIDs_loop_app, (namesToIDs_loop_ok _ _ _ ids) by done.
  cbn [namesToIDs_loop].
  destruct (allCiphers suites !! bad) as [id|] eqn:Hlook; [|done].
  destruct Hbad. apply allCiphers_is_Some. by exists id.
Qed.

End tlscfg_facts.

Section harness_facts.
Import integration.
Context {World : Type}.
Implicit Types (predicate : World → outcome bool * World) (sleep : Z → World → World).

Lemma without_logs_app evs1 evs2 :
  without_logs (evs1 ++ evs2) = without_logs evs1 ++ without_logs evs2.
Proof. apply filter_app. Qed.

Lemma predicate_results_without_logs evs :
  predicate_results (without_logs evs) = predicate_results evs.
Proof.
  unfold predicate_results, without_logs.
  induction evs as [|[| | |] evs IH]; [done| | | |].
  - by rewrite filter_cons_False by (simpl; tauto).
  - rewrite filter_cons_True by (simpl; tauto). cbn [omap list_omap]. f_equal. apply IH.
  - by rewrite filter_cons_True by (simpl; tauto).
  - by rewrite filter_cons_True by (simpl; tauto).
Qed.

Lemma sleeps_without_logs evs : sleeps (without_logs evs) = sleeps evs.
Proof.
  unfold sleeps, without_logs.
  induction evs as [|[| | |] evs IH]; [done| | | |].
  - by rewrite filter_cons_False by (simpl; tauto).
  - by rewrite filter_cons_True by (simpl; tauto).
  - by rewrite filter_cons_True by (simpl; tauto).
  - rewrite filter_cons_True by (simpl; tauto). cbn [omap list_omap]. f_equal. apply IH.
Qed.

Lemma failed_rounds_S k :
  failed_rounds (S k) = EvPredicate false :: EvSleep time_Second :: failed_rounds k.
Proof. done. Qed.

Lemma predicate_results_failed_rounds k tail :
  predicate_results (failed_rounds k ++ tail) = replicate k false ++ predicate_results tail.
Proof. induction k as [|k IH]; [done|]. rewrite failed_rounds_S. simpl. by f_equal. Qed.

Lemma sleeps_failed_rounds k tail :
  sleeps (failed_rounds k ++ tail) = replicate k time_Second ++ sleeps tail.
Proof. induction k as [|k IH]; [done|]. rewrite failed_rounds_S. simpl. by f_equal. Qed.

Lemma predicate_results_call_event (r : outcome bool) :
  predicate_results [call_event r] = match r with Returned b => [b] | _ => [] end.
Proof. by destruct r. Qed.

Lemma sleeps_call_event (r : outcome bool) : sleeps [call_event r] = [].
Proof. by destruct r. Qed.

Lemma without_logs_call_event (r : outcome bool) : without_logs [call_event r] = [call_event r].
Proof. by destruct r. Qed.

Lemma log_lines_call_event (r : outcome bool) : log_lines [call_event r] = [].
Proof. by destruct r. Qed.

(** The loop from any round on: some number [k] of failed rounds, each on
    the world the round before left, then one last call of the predicate,
    whose outcome is the outcome of the loop; the loop gives up early only
    on a call that did not say no. *)
Lemma waitForCondition_from_run predicate sleep remaining i t :
  ∃ (k : nat) (evs : list event),
    (k ≤ remaining)%nat ∧
    (∀ j, (j < k)%nat →
          (predicate (Nat.iter j (failed_round predicate sleep) (world t))).1 =
          Returned false) ∧
    (waitForCondition_from predicate sleep remaining i t).1 =
      (predicate (Nat.iter k (failed_round predicate sleep) (world t))).1 ∧
    world (waitForCondition_from predicate sleep remaining i t).2 =
      (predicate (Nat.iter k (failed_round predicate sleep) (world t))).2 ∧
    events (waitForCondition_from predicate sleep remaining i t).2 = events t ++ evs ∧
    without_logs evs =
      failed_rounds k ++ [call_event (waitForCondition_from predicate sleep remaining i t).1] ∧
    log_lines evs =
      (λ j : nat, EvLogf (i + Z.of_nat j + 1) (Z.of_nat iterations))
        <$> seq 0 (S k `min` remaining) ∧
    ((k < remaining)%nat →
     (waitForCondition_from predicate sleep remaining i t).1 ≠ Returned false).
Proof.
  revert i t. induction remaining as [|n IH]; intros i t.
  - exists 0%nat.
    change (Nat.iter 0 (failed_round predicate sleep) (world t)) with (world t).
    cbn [waitForCondition_from]. unfold call_predicate.
    destruct (predicate (world t)) as [r w]. cbn [fst snd world events].
    exists [call_event r].
    split_and!; [done|intros; lia|done|done|done|apply without_logs_call_event| |lia].
    apply log_lines_call_event.
  - cbn [waitForCondition_from].
    unfold mbind, M_bind, mret, M_ret, bind, ret, emit, call_predicate.
    cbn [world events].
    destruct (predicate (world t)) as [r w] eqn:Hp.
    destruct r as [[|]|msg|].
    2:{ unfold time_Sleep. cbn [world events].
      match goal with |- context [waitForCondition_from _ _ n (i + 1) ?t1] =>
        destruct (IH (i + 1) t1) as (k & evs & Hk & Hno & Hres & Hworld & Hev & Hshape & Hlog & Hearly)
      end.
      cbn [world events] in Hno, Hres, Hworld, Hev.
      assert (∀ j, Nat.iter j (failed_round predicate sleep) (sleep time_Second w) =
                   Nat.iter (S j) (failed_round predicate sleep) (world t)) as Hiter.
      { intros j. rewrite Nat.iter_succ_r. unfold failed_round at 3. by rewrite Hp. }
      exists (S k),
        (EvLogf (i + 1) (Z.of_nat iterations) :: EvPredicate false :: EvSleep time_Second :: evs).
      split_and!.
      * lia.
      * intros [|j] Hj.
        { change (Nat.iter 0 (failed_round predicate sleep) (world t)) with (world t).
          by rewrite Hp. }
        rewrite <- Hiter. apply Hno. lia.
      * by rewrite Hres, Hiter.
      * by rewrite Hworld, Hiter.
      * rewrite Hev. cbn [call_event]. by rewrite <- !(assoc_L (++)).
      * rewrite failed_rounds_S. unfold without_logs in *.
        rewrite filter_cons_False by (simpl; tauto).
        rewrite !filter_cons_True by (simpl; tauto).
        by rewrite Hshape.
      * unfold log_lines in *.
        rewrite filter_cons_True by done.
        rewrite !filter_cons_False by (simpl; tauto).
        rewrite Hlog. replace (S (S k) `min` S n)%nat with (S (S k `min` n)) by lia.
        cbn [seq fmap list_fmap]. f_equal; [f_equal; lia|].
        rewrite <- fmap_S_seq, <- list_fmap_compose. apply list_fmap_ext.
        intros _ j _. cbn. f_equal. lia.
      * intros Hlt. apply Hearly. lia. }
    all: exists 0%nat; simpl Nat.iter; rewrite Hp;
      cbn [fst snd world events call_event];
      eexists [EvLogf (i + 1) (Z.of_nat iterations); _];
      (split_and!;
         [lia|intros; lia|done|done|by rewrite <- (assoc_L (++))|done| |done]);
      cbn; do 2 f_equal; lia.
Qed.

End harness_facts.

Section regexp_facts.
Import regexp.

(** *** Strings *)

Lemma string_app_nil_r s : s +:+ "" = s.
Proof. induction s; simpl; congruence. Qed.

Lemma string_app_assoc s1 s2 s3 : (s1 +:+ s2) +:+ s3 = s1 +:+ (s2 +:+ s3).
Proof. induction s1; simpl; congruence. Qed.

Lemma string_app_eq_nil s1 s2 : s1 +:+ s2 = "" → s1 = "" ∧ s2 = "".
Proof. by destruct s1. Qed.

Lemma prefix_spec p s : String.prefix p s = true ↔ ∃ rest, s = p +:+ rest.
Proof.
  revert s. induction p as [|a p IH]; intros s; simpl.
  - split; [by exists s|]. by destruct s.
  - destruct s as [|b s]; [split; [done|by intros [? ?]]|].
    simpl.
    match goal with |- context [match ?d with left _ => _ | right _ => _ end] =>
      destruct d as [->|Hne] end.
    + rewrite IH. split; intros [rest H]; exists rest; simpl in *; congruence.
    + split; [done|]. intros [rest H]. simpl in H. congruence.
Qed.

Lemma Contains_spec s sub :
  strings.Contains s sub = true ↔ ∃ before after, s = before +:+ sub +:+ after.
Proof.
  induction s as [|c s IH].
  - change (strings.Contains "" sub) with (String.prefix sub "" || false).
    rewrite orb_false_r, prefix_spec. split.
    + intros [rest H]. by exists "", rest.
    + intros (before & after & H). symmetry in H.
      apply string_app_eq_nil in H as [-> H]. eauto.
  - change (strings.Contains (String c s) sub)
      with (String.prefix sub (String c s) || strings.Contains s sub).
    rewrite orb_true_iff, prefix_spec, IH. split.
    + intros [[rest H]|(before & after & H)].
      * by exists "", rest.
      * exists (String c before), after. simpl. by rewrite H.
    + intros (before & after & H). destruct before as [|b before]; simpl in H.
      * left. eauto.
      * right. exists before, after. congruence.
Qed.

(** *** The matcher decides the denotation *)

Lemma matches_cat_inv r1 r2 s :
  matches (Cat r1 r2) s → ∃ s1 s2, s = s1 +:+ s2 ∧ matches r1 s1 ∧ matches r2 s2.
Proof. inversion 1; subst; eauto. Qed.

Lemma matches_alt_inv r1 r2 s : matches (Alt r1 r2) s → matches r1 s ∨ matches r2 s.
Proof. inversion 1; subst; eauto. Qed.

Lemma matches_eps_inv s : matches Eps s → s = "".
Proof. by inversion 1. Qed.

Lemma matches_lit_inv c s : matches (Lit c) s → s = String c "".
Proof. by inversion 1. Qed.

Lemma nullable_spec r : nullable r = true ↔ matches r "".
Proof.
  induction r as [| | | | |r1 IH1 r2 IH2|r1 IH1 r2 IH2|r IH]; simpl.
  - split; [done|]. inversion 1.
  - split; [constructor|done].
  - split; [done|]. inversion 1.
  - split; [done|]. inversion 1.
  - split; [done|]. inversion 1.
  - rewrite andb_true_iff, IH1, IH2. split.
    + intros [H1 H2]. apply (matches_cat _ _ "" ""); done.
    + intros (s1 & s2 & Heq & H1 & H2)%matches_cat_inv.
      symmetry in Heq. by apply string_app_eq_nil in Heq as [-> ->].
  - rewrite orb_true_iff, IH1, IH2. split.
    + intros [H|H]; [by apply matches_alt_l|by apply matches_alt_r].
    + apply matches_alt_inv.
  - split; [constructor|done].
Qed.

(** A non-empty match of a star starts with a non-empty match of its body. *)
Lemma matches_star_cons_inv r c s :
  matches (Star r) (String c s) →
  ∃ s1 s2, s = s1 +:+ s2 ∧ matches r (String c s1) ∧ matches (Star r) s2.
Proof.
  intros H. remember (Star r) as r' eqn:Hr. remember (String c s) as cs eqn:Hcs.
  revert r c s Hr Hcs.
  induction H as [| | | | | | | |r0 s1 s2 H1 _ H2 IH2]; intros r' c' s' Hr Hcs; try done.
  injection Hr as ->. destruct s1 as [|c1 s1]; simpl in Hcs.
  - by apply IH2.
  - injection Hcs as -> <-. eauto.
Qed.

Lemma deriv_spec c r s : matches (deriv c r) s ↔ matches r (String c s).
Proof.
  revert s. induction r as [| | |  | |r1 IH1 r2 IH2|r1 IH1 r2 IH2|r IH]; intros s; simpl.
  - split; inversion 1.
  - split; inversion 1.
  - destruct (Ascii.eqb_spec c c0) as [->|Hne].
    + split; inversion 1; subst; constructor.
    + split; inversion 1; by subst.
  - destruct (utf8.between lo hi c) eqn:Hin.
    + split; inversion 1; subst; by constructor.
    + split; inversion 1; subst; congruence.
  - split; inversion 1; subst; constructor.
  - assert (matches (Cat (deriv c r1) r2) s → matches (Cat r1 r2) (String c s)) as Hcat.
    { intros (s1 & s2 & -> & H1 & H2)%matches_cat_inv.
      apply IH1 in H1. by apply (matches_cat _ _ (String c s1) s2). }
    assert (matches (Cat r1 r2) (String c s) →
            matches (Cat (deriv c r1) r2) s ∨ (nullable r1 = true ∧ matches (deriv c r2) s))
      as Hinv.
    { intros (s1 & s2 & Heq & H1 & H2)%matches_cat_inv.
      destruct s1 as [|c1 s1]; simpl in Heq.
      - right. subst s2. split; [by apply nullable_spec|by apply IH2].
      - injection Heq as -> ->. left. constructor; [by apply IH1|done]. }
    destruct (nullable r1) eqn:Hnull.
    + split.
      * intros [H|H]%matches_alt_inv; [by apply Hcat|].
        apply (matches_cat _ _ "" (String c s)); [by apply nullable_spec|by apply IH2].
      * intros [H|[_ H]]%Hinv; [by apply matches_alt_l|by apply matches_alt_r].
    + split; [done|]. by intros [H|[? _]]%Hinv.
  - split.
    + intros [H|H]%matches_alt_inv;
        [apply matches_alt_l; by apply IH1|apply matches_alt_r; by apply IH2].
    + intros [H|H]%matches_alt_inv;
        [apply matches_alt_l; by apply IH1|apply matches_alt_r; by apply IH2].
  - split.
    + intros (s1 & s2 & -> & H1 & H2)%matches_cat_inv.
      apply IH in H1. by apply (matches_star_cons _ (String c s1) s2).
    + intros (s1 & s2 & -> & H1 & H2)%matches_star_cons_inv.
      constructor; [by apply IH|done].
Qed.

Lemma full_match_spec r s : full_match r s = true ↔ matches r s.
Proof.
  revert r. induction s as [|c s IH]; intros r; simpl.
  - apply nullable_spec.
  - by rewrite IH, deriv_spec.
Qed.

(** *** Quoted patterns *)

(** The two shapes of a quoted byte; a quoted text never starts with a bare
    operator. *)
Lemma at_operator_QuoteMeta p : at_operator (QuoteMeta p) = false.
Proof.
  destruct p as [|b p]; [done|]. cbn [QuoteMeta].
  destruct (special b) eqn:Hb; [done|].
  revert Hb. destruct b as [[] [] [] [] [] [] [] []]; by vm_compute.
Qed.

Lemma special_escaped b :
  special b = true → isalnum b || negb (utf8.between 0x00 0x7F b) = false.
Proof. destruct b as [[] [] [] [] [] [] [] []]; by vm_compute. Qed.

Lemma not_special_literal b :
  special b = false → Ascii.eqb b "\" = false ∧ classify b = Some (TChar b).
Proof. destruct b as [[] [] [] [] [] [] [] []]; by vm_compute. Qed.

Lemma tokenize_quoted_byte b rest :
  at_operator rest = false →
  tokenize (if special b then String "\" (String b rest) else String b rest) =
  cons (TChar b) <$> tokenize rest.
Proof.
  intros Hrest. destruct (special b) eqn:Hb.
  - cbn [tokenize]. change (Ascii.eqb "\" "\") with true. cbv iota.
    by rewrite (special_escaped b Hb).
  - destruct (not_special_literal b Hb) as [Hbs Hlit].
    cbn [tokenize]. by rewrite Hbs, Hlit, Hrest, andb_false_r.
Qed.

Lemma tokenize_QuoteMeta p :
  tokenize (QuoteMeta p) = Some (TChar <$> list_ascii_of_string p).
Proof.
  induction p as [|b p IH]; [done|].
  pose proof (tokenize_quoted_byte b (QuoteMeta p) (at_operator_QuoteMeta p)) as H.
  simpl QuoteMeta. destruct (special b); rewrite H, IH; done.
Qed.

Lemma special_below_128 b : special b = true → utf8.between 0x00 0x7F b = true.
Proof. destruct b as [[] [] [] [] [] [] [] []]; by vm_compute. Qed.

Lemma between_above_128 lo hi b :
  (128 ≤ lo)%N → utf8.between 0x00 0x7F b = true → utf8.between lo hi b = false.
Proof.
  unfold utf8.between. intros Hlo [_ Hb%N.leb_le]%andb_true_iff.
  apply andb_false_iff. left. apply N.leb_gt. lia.
Qed.

(** Quoting neither makes nor breaks an encoding: the backslashes and the
    bytes behind them are below 128. *)
Lemma valid_from_QuoteMeta need lo hi p :
  (128 ≤ lo)%N →
  utf8.valid_from need lo hi (QuoteMeta p) = utf8.valid_from need lo hi p.
Proof.
  revert need lo hi. induction p as [|b p IH]; intros need lo hi Hlo; [done|].
  cbn [QuoteMeta]. destruct (special b) eqn:Hb.
  - pose proof (special_below_128 b Hb) as Ha.
    pose proof (between_above_128 lo hi b Hlo Ha) as Hc.
    pose proof (between_above_128 lo hi "\" Hlo eq_refl) as Hbs.
    destruct need as [|need]; cbn [utf8.valid_from].
    + rewrite Ha. change (utf8.between 0 127 "\") with true. cbv iota.
      by apply IH.
    + by rewrite Hbs, Hc.
  - destruct need as [|need]; cbn [utf8.valid_from].
    + repeat case_match; try done; by apply IH.
    + destruct (utf8.between lo hi b); [|done]. cbn [andb]. by apply IH.
Qed.

Lemma ValidString_QuoteMeta p : utf8.ValidString (QuoteMeta p) = utf8.ValidString p.
Proof. by apply valid_from_QuoteMeta. Qed.

Lemma concat_of_rev rs : concat_of (rev rs) = foldr Cat Eps rs.
Proof.
  unfold concat_of. induction rs as [|r rs IH]; [done|].
  simpl. by rewrite foldl_app, IH.
Qed.

Lemma parse_tokens_chars cs pieces n :
  parse_tokens (mkPState [] (mkFrame [] pieces) n) (TChar <$> cs) =
  Some (concat_of (rev (Lit <$> cs) ++ pieces)).
Proof.
  revert pieces n. induction cs as [|c cs IH]; intros pieces n; [done|].
  simpl. unfold push_piece. simpl. rewrite IH. by rewrite <- (assoc_L (++)).
Qed.

Lemma literal_foldr p : foldr Cat Eps (Lit <$> list_ascii_of_string p) = literal p.
Proof. induction p as [|c p IH]; [done|]. cbn. by rewrite <- IH. Qed.

(** A quoted pattern compiles when the text is valid UTF-8, to the literal
    regex of the unquoted text, and not otherwise. *)
Lemma Compile_QuoteMeta p :
  Compile (QuoteMeta p) = if utf8.ValidString p then Some (literal p) else None.
Proof.
  unfold Compile. rewrite ValidString_QuoteMeta.
  destruct (utf8.ValidString p); [|done].
  rewrite tokenize_QuoteMeta, parse_tokens_chars.
  by rewrite app_nil_r, concat_of_rev, literal_foldr.
Qed.

Lemma matches_literal p s : matches (literal p) s ↔ s = p.
Proof.
  revert s. induction p as [|c p IH]; intros s; simpl.
  - split; [apply matches_eps_inv|intros ->; constructor].
  - split.
    + intros (s1 & s2 & -> & ->%matches_lit_inv & ->%IH)%matches_cat_inv. done.
    + intros ->. apply (matches_cat _ _ (String c "") p); [constructor|by apply IH].
Qed.

Lemma matches_star_any s : matches (Star AnyByte) s.
Proof.
  induction s as [|c s IH]; [constructor|].
  apply (matches_star_cons _ (String c "") s); [constructor|done].
Qed.

(** Searching for a literal regex is searching for the text. *)
Lemma Regexp_MatchString_literal p s :
  Regexp_MatchString (literal p) s = strings.Contains s p.
Proof.
  apply Bool.eq_true_iff_eq. unfold Regexp_MatchString.
  rewrite full_match_spec, Contains_spec. split.
  - intros (before & rest & -> & _ & (s1 & after & -> & ->%matches_literal & _)%matches_cat_inv)
      %matches_cat_inv.
    by exists before, after.
  - intros (before & after & ->).
    apply matches_cat; [apply matches_star_any|].
    apply matches_cat; [by apply matches_literal|apply matches_star_any].
Qed.

Lemma MatchString_QuoteMeta pat name :
  MatchString (QuoteMeta pat) name =
  if utf8.ValidString pat then (strings.Contains name pat, None)
  else (false, Some ("error parsing regexp: " +:+ QuoteMeta pat)).
Proof.
  unfold MatchString. rewrite Compile_QuoteMeta.
  destruct (utf8.ValidString pat); [|done]. by rewrite Regexp_MatchString_literal.
Qed.

End regexp_facts.

Section replace_facts.
Import strings.

Lemma string_length_app s1 s2 :
  String.length (s1 +:+ s2) = (String.length s1 + String.length s2)%nat.
Proof. induction s1; simpl; congruence. Qed.

Lemma prefix_app p rest : String.prefix p (p +:+ rest) = true.
Proof. apply prefix_spec. eauto. Qed.

Lemma prefix_nil s : String.prefix "" s = true.
Proof. by destruct s. Qed.

Lemma prefix_cons a p c s :
  String.prefix (String a p) (String c s) = true ↔ a = c ∧ String.prefix p s = true.
Proof.
  rewrite !prefix_spec. split.
  - intros [rest H]. simpl in H. injection H as -> ->. eauto.
  - intros [-> [rest ->]]. by exists rest.
Qed.

Lemma compat_sym a b : compat a b = compat b a.
Proof.
  revert b. induction a as [|x a IH]; intros [|y b]; simpl; try done.
  by rewrite IH, Ascii.eqb_sym.
Qed.

(** A text that starts like [w] followed by something starts with [q] only
    if one of [q] and [w] is a prefix of the other. *)
Lemma prefix_app_compat q w z : String.prefix q (w +:+ z) = true → compat q w = true.
Proof.
  revert w. induction q as [|a q IH]; intros [|c w]; simpl; try done.
  change (String.prefix (String a q) (String c (w +:+ z)) = true → (a =? c)%char && compat q w = true).
  intros [-> H]%prefix_cons. rewrite Ascii.eqb_refl. simpl. by eapply IH.
Qed.

(** *** The scan of [Replace] *)

Lemma replace_scan_skip old new pre rest :
  replace_scan old new (String.length pre) (pre +:+ rest) = replace_scan old new 0 rest.
Proof. induction pre as [|c pre IH]; [by destruct rest|]. simpl. apply IH. Qed.

Lemma replace_scan_match old new rest :
  old ≠ "" →
  replace_scan old new 0 (old +:+ rest) = new +:+ replace_scan old new 0 rest.
Proof.
  destruct old as [|c old]; [done|]. intros _.
  change (String c old +:+ rest) with (String c (old +:+ rest)).
  cbn [replace_scan].
  change (String c (old +:+ rest)) with (String c old +:+ rest).
  rewrite prefix_app. f_equal.
  replace (String.length (String c old) - 1)%nat with (String.length old) by (simpl; lia).
  apply replace_scan_skip.
Qed.

Lemma replace_scan_copy old new c rest :
  String.prefix old (String c rest) = false →
  replace_scan old new 0 (String c rest) = String c (replace_scan old new 0 rest).
Proof. intros H. cbn [replace_scan]. by rewrite H. Qed.

(** Where no occurrence of [old] can start inside [w], the scan copies [w]. *)
Lemma replace_scan_through old new w rest :
  starts_inside old w = false →
  replace_scan old new 0 (w +:+ rest) = w +:+ replace_scan old new 0 rest.
Proof.
  induction w as [|c w IH]; [done|].
  cbn [starts_inside]. intros [Hc Hw]%orb_false_elim.
  change (String c w +:+ rest) with (String c (w +:+ rest)).
  rewrite replace_scan_copy, IH; [done|done|].
  apply not_true_is_false. intros H.
  apply (prefix_app_compat old (String c w) rest) in H. congruence.
Qed.

(** Replacing [old] by itself changes nothing. *)
Lemma replace_scan_same old s : old ≠ "" → replace_scan old old 0 s = s.
Proof.
  intros Hold. remember (String.length s) as n eqn:Hn. revert s Hn.
  induction n as [n IH] using lt_wf_ind. intros s Hn.
  destruct s as [|c rest]; [done|].
  destruct (String.prefix old (String c rest)) eqn:Hp.
  - apply prefix_spec in Hp as [rest' Hp]. rewrite Hp, replace_scan_match by done.
    f_equal. eapply IH; [|done]. subst n. rewrite Hp, string_length_app.
    destruct old; [done|simpl; lia].
  - rewrite replace_scan_copy by done. f_equal. eapply IH; [|done]. subst n. simpl. lia.
Qed.

Lemma ReplaceAll_scan s old new :
  old ≠ "" → ReplaceAll s old new = replace_scan old new 0 s.
Proof.
  intros Hold. unfold ReplaceAll. destruct (String.eqb_spec old new) as [<-|_]; [|done].
  by rewrite replace_scan_same.
Qed.

(** What the scan writes at the front starts with [q] only if the input
    does, unless the text [new] it writes can start inside [q]. *)
Lemma replace_scan_prefix old new q s :
  old ≠ "" →
  starts_inside new q = false →
  String.prefix q (replace_scan old new 0 s) = true → String.prefix q s = true.
Proof.
  intros Hold. revert s. induction q as [|a q IH]; intros s Hq; [by rewrite !prefix_nil|].
  cbn [starts_inside] in Hq. apply orb_false_elim in Hq as [Hc Hq].
  destruct s as [|c rest]; [done|].
  destruct (String.prefix old (String c rest)) eqn:Hp.
  - apply prefix_spec in Hp as [rest' Hp]. rewrite Hp, replace_scan_match by done.
    intros H%prefix_app_compat. rewrite compat_sym in H. congruence.
  - rewrite replace_scan_copy by done.
    intros [-> H]%prefix_cons. apply prefix_cons. split; [done|]. by apply IH.
Qed.

End replace_facts.

Section correctTime_facts.
Import strings integration.

Lemma rewrite_dates_scan_26 y t rest :
  rewrite_dates_scan y t 0 ("2017-01-26" +:+ rest) = y +:+ rewrite_dates_scan y t 0 rest.
Proof.
  change ("2017-01-26" +:+ rest) with (String "2" ("017-01-26" +:+ rest)).
  cbn [rewrite_dates_scan].
  change (String "2" ("017-01-26" +:+ rest)) with ("2017-01-26" +:+ rest).
  by rewrite prefix_app.
Qed.

Lemma rewrite_dates_scan_25 y t rest :
  rewrite_dates_scan y t 0 ("2017-01-25" +:+ rest) = t +:+ rewrite_dates_scan y t 0 rest.
Proof.
  change ("2017-01-25" +:+ rest) with (String "2" ("017-01-25" +:+ rest)).
  cbn [rewrite_dates_scan].
  change (String "2" ("017-01-25" +:+ rest)) with ("2017-01-25" +:+ rest).
  rewrite prefix_app.
  assert (String.prefix "2017-01-26" ("2017-01-25" +:+ rest) = false) as ->.
  { apply not_true_is_false. intros H%prefix_app_compat. by vm_compute in H. }
  done.
Qed.

Lemma rewrite_dates_scan_copy y t c rest :
  String.prefix "2017-01-26" (String c rest) = false →
  String.prefix "2017-01-25" (String c rest) = false →
  rewrite_dates_scan y t 0 (String c rest) = String c (rewrite_dates_scan y t 0 rest).
Proof. intros H26 H25. cbn [rewrite_dates_scan]. by rewrite H26, H25. Qed.

(** The two passes against the single scan, for any two replacement texts
    of which the first one is independent. *)
Lemma two_passes_scan y t s :
  independent y = true →
  replace_scan "2017-01-25" t 0 (replace_scan "2017-01-26" y 0 s) =
  rewrite_dates_scan y t 0 s.
Proof.
  unfold independent. intros [HA HB]%andb_prop.
  apply negb_true_iff in HA, HB.
  remember (String.length s) as n eqn:Hn. revert s Hn.
  induction n as [n IH] using lt_wf_ind. intros s Hn.
  destruct s as [|c rest]; [done|].
  destruct (String.prefix "2017-01-26" (String c rest)) eqn:H26.
  { apply prefix_spec in H26 as [rest' H26]. rewrite H26.
    rewrite replace_scan_match, rewrite_dates_scan_26 by done.
    rewrite replace_scan_through by done. f_equal.
    eapply IH; [|done]. subst n. rewrite H26, string_length_app. simpl. lia. }
  destruct (String.prefix "2017-01-25" (String c rest)) eqn:H25.
  { apply prefix_spec in H25 as [rest' H25]. rewrite H25.
    rewrite replace_scan_through by done.
    rewrite replace_scan_match, rewrite_dates_scan_25 by done. f_equal.
    eapply IH; [|done]. subst n. rewrite H25, string_length_app. simpl. lia. }
  rewrite (replace_scan_copy "2017-01-26") by done.
  rewrite replace_scan_copy, rewrite_dates_scan_copy; [|done|done|].
  - f_equal. eapply IH; [|done]. subst n. simpl. lia.
  - apply not_true_is_false. intros [<- H]%prefix_cons.
    apply replace_scan_prefix in H; [|done|done].
    assert (String.prefix "2017-01-25" (String "2" rest) = true); [|congruence].
    by apply prefix_cons.
Qed.

Lemma correctTime_two_passes now json :
  correctTime now json =
  replace_scan "2017-01-25" (twoDaysAgo now) 0
    (replace_scan "2017-01-26" (yesterday now) 0 json).
Proof. unfold correctTime. by rewrite !ReplaceAll_scan. Qed.

End correctTime_facts.

Section large_trace_facts.
Import integration.

Lemma foldl_snoc_fmap {A B} (f : B → A) (init : list A) (l : list B) :
  foldl (λ acc i, acc ++ [f i]) init l = init ++ (f <$> l).
Proof.
  revert init. induction l as [|i l IH]; intros init; simpl.
  - by rewrite app_nil_r.
  - by rewrite IH, <- (assoc_L (++)).
Qed.

Lemma largeTraceSpans_fmap span :
  largeTraceSpans span =
  span :: (clone_span span <$> (Z.of_nat <$> seq 1 (Z.to_nat 10007))).
Proof. unfold largeTraceSpans. by rewrite foldl_snoc_fmap. Qed.

(** Inside the loop neither conversion wraps around. *)
Lemma clone_span_in_range span i :
  1 ≤ i < 10008 →
  clone_span span i =
  Span.mk (Span.TraceID span) i (Span.OperationName span)
          (Span.StartTime span + (i + 1) * 1000000000)
          (Span.Duration span) (Span.Tags span) (Span.Process span).
Proof.
  intros Hi. unfold clone_span, to_uint64, duration_mul, time_Second.
  rewrite (Z.mod_small i) by lia.
  rewrite (Z.mod_small (1000000000 * (i + 1) + 2 ^ 63)) by lia.
  f_equal. lia.
Qed.

Lemma largeTraceSpans_lookup span i :
  1 ≤ i < 10008 → largeTraceSpans span !! Z.to_nat i = Some (clone_span span i).
Proof.
  intros Hi. rewrite largeTraceSpans_fmap.
  rewrite lookup_cons_ne_0 by lia. rewrite !list_lookup_fmap.
  rewrite lookup_seq_lt by lia. simpl. do 2 f_equal. lia.
Qed.

Lemma writeTrace_spans_ok {World} (WriteSpan : World → Span.t → option string * World)
    (spans : list Span.t) (w : World) :
  (∀ w span, (WriteSpan w span).1 = None) →
  writeTrace_spans WriteSpan spans w = (None, foldl (λ w span, (WriteSpan w span).2) w spans).
Proof.
  intros Hok. revert w. induction spans as [|span spans IH]; intros w; [done|].
  simpl. specialize (Hok w span). destruct (WriteSpan w span) as [err w']. simpl in *.
  subst err. apply IH.
Qed.

Lemma foldl_memory_WriteSpan (spans w : list Span.t) :
  foldl (λ w span, (memory_WriteSpan w span).2) w spans = w ++ spans.
Proof.
  revert w. induction spans as [|span spans IH]; intros w; simpl.
  - by rewrite app_nil_r.
  - by rewrite IH, <- (assoc_L (++)).
Qed.

Lemma filter_all {A} (P : A → Prop) `{∀ x, Decision (P x)} (l : list A) :
  Forall P l → filter P l = l.
Proof. induction 1; [done|]. by rewrite filter_cons_True; [f_equal|]. Qed.

Lemma largeTraceSpans_TraceID span :
  Forall (λ s, Span.TraceID s = Span.TraceID span) (largeTraceSpans span).
Proof.
  rewrite largeTraceSpans_fmap. constructor; [done|].
  apply Forall_fmap, Forall_forall. by intros i _.
Qed.

(** On the sample backend a read right after the write returns the whole
    large trace. *)
Lemma memory_large_trace_found span warnings :
  (largeSpan_found memory_GetTrace (Trace.mk (largeTraceSpans span) warnings)
     (Span.TraceID span) (largeTraceSpans span)).1 = true.
Proof.
  unfold largeSpan_found, memory_GetTrace.
  rewrite filter_all by apply largeTraceSpans_TraceID.
  rewrite largeTraceSpans_fmap. cbn [fst Trace.Spans]. by rewrite bool_decide_true.
Qed.

Lemma writeTrace_spans_app {World} (WriteSpan : World → Span.t → option string * World)
    (before after : list Span.t) (w : World) :
  writeTrace_spans WriteSpan (before ++ after) w =
  match writeTrace_spans WriteSpan before w with
  | (None, w') => writeTrace_spans WriteSpan after w'
  | failed => failed
  end.
Proof.
  revert w. induction before as [|span before IH]; intros w; [done|].
  cbn [app writeTrace_spans]. destruct (WriteSpan w span) as [[err|] w']; [done|]. apply IH.
Qed.

Lemma writeTrace_spans_world {World} (WriteSpan : World → Span.t → option string * World)
    (spans : list Span.t) (w w' : World) :
  writeTrace_spans WriteSpan spans w = (None, w') →
  w' = foldl (λ w span, (WriteSpan w span).2) w spans.
Proof.
  revert w. induction spans as [|span spans IH]; intros w; cbn [writeTrace_spans foldl].
  - by intros [= ->].
  - destruct (WriteSpan w span) as [[err|] w1] eqn:Hw; [done|]. cbn [snd]. apply IH.
Qed.

Lemma writeTrace_spans_error {World} (WriteSpan : World → Span.t → option string * World)
    (spans : list Span.t) (w : World) (err : string) (w' : World) :
  writeTrace_spans WriteSpan spans w = (Some err, w') ↔
  ∃ before bad after w1,
    spans = before ++ bad :: after ∧
    writeTrace_spans WriteSpan before w = (None, w1) ∧
    WriteSpan w1 bad = (Some err, w').
Proof.
  split.
  - revert w. induction spans as [|span spans IH]; intros w; cbn [writeTrace_spans]; [done|].
    destruct (WriteSpan w span) as [[err1|] w1] eqn:Hw.
    + intros [= -> ->]. by exists [], span, spans, w.
    + intros (before & bad & after & w2 & -> & Hbefore & Hbad)%IH.
      exists (span :: before), bad, after, w2. split_and!; [done| |done].
      cbn [writeTrace_spans]. by rewrite Hw.
  - intros (before & bad & after & w1 & -> & Hbefore & Hbad).
    rewrite writeTrace_spans_app, Hbefore. cbn [writeTrace_spans]. by rewrite Hbad.
Qed.

End large_trace_facts.

Section samplingstore_facts.
Import samplingstore.

Lemma foldl_later_snoc best snaps snap :
  foldl later best (snaps ++ [snap]) = later (foldl later best snaps) snap.
Proof. by rewrite foldl_app. Qed.

(** The candidate the scan ends with is one of the snapshots and none is
    more recent. *)
Lemma latest_most_recent st :
  match latest st with
  | None => snapshots st = []
  | Some best =>
      best ∈ snapshots st ∧ Forall (λ snap, (snap_time snap ≤ snap_time best)%nat) (snapshots st)
  end.
Proof.
  destruct st as [snaps]. unfold latest. cbn [snapshots].
  induction snaps as [|snap snaps IH] using rev_ind; [done|].
  rewrite foldl_later_snoc. destruct (foldl later None snaps) as [best|]; simpl.
  - destruct IH as [Hin Hmax]. case_decide as Hle.
    + split; [apply elem_of_app; right; by apply list_elem_of_singleton|].
      apply Forall_app. split; [|by repeat constructor].
      eapply Forall_impl; [done|]. intros s Hs; simpl in *. lia.
    + split; [apply elem_of_app; by left|].
      apply Forall_app. split; [done|]. repeat constructor. lia.
  - subst snaps. split; [by apply list_elem_of_singleton|]. by repeat constructor.
Qed.

(** After an insert the new snapshot is the most recent one. *)
Lemma latest_Insert hostname probabilities qps st :
  latest (InsertProbabilitiesAndQPS hostname probabilities qps st) =
  Some (mkSnapshot hostname (next_time st) probabilities qps).
Proof.
  unfold latest, InsertProbabilitiesAndQPS. cbn [snapshots]. rewrite foldl_later_snoc.
  pose proof (latest_most_recent st) as Hbest. unfold latest in Hbest.
  destruct (foldl later None (snapshots st)) as [best|]; simpl; [|done].
  destruct Hbest as [Hin _]. rewrite decide_True; [done|].
  unfold next_time. apply Nat.lt_le_incl, Nat.lt_succ_r, max_list_elem_of_le.
  apply list_elem_of_fmap. by exists best.
Qed.

Lemma GetLatestProbabilities_Insert hostname probabilities qps st :
  GetLatestProbabilities (InsertProbabilitiesAndQPS hostname probabilities qps st) =
  probabilities.
Proof. unfold GetLatestProbabilities. by rewrite latest_Insert. Qed.

End samplingstore_facts.

Section polling_facts.
Import integration.
Context {World : Type}.

Lemma returning_fst (p : World → bool * World) (w : World) :
  (returning p w).1 = Returned (p w).1.
Proof. unfold returning. by destruct (p w). Qed.

Lemma returning_snd (p : World → bool * World) (w : World) :
  (returning p w).2 = (p w).2.
Proof. unfold returning. by destruct (p w). Qed.

(** When the first call of the predicate says yes, nothing else happens. *)
Lemma waitForCondition_first_call (predicate : World → outcome bool * World)
    (sleep : Z → World → World) (t : T) :
  (predicate (world t)).1 = Returned true →
  (waitForCondition predicate sleep t).1 = Returned true ∧
  world (waitForCondition predicate sleep t).2 = (predicate (world t)).2.
Proof.
  intros Hyes. unfold waitForCondition, iterations.
  change 100%nat with (S 99).
  generalize 99%nat as n. intros n. cbn [waitForCondition_from].
  unfold mbind, M_bind, mret, M_ret, bind, ret, emit, call_predicate. cbn [world events].
  destruct (predicate (world t)) as [ok w]. simpl in Hyes. subst ok. done.
Qed.

(** A predicate that never says yes and never stops the test is polled to
    the end, and the answer is no. *)
Lemma waitForCondition_from_all_no (predicate : World → outcome bool * World)
    (sleep : Z → World → World) (remaining : nat) (i : Z) (t : T) :
  (∀ w, (predicate w).1 = Returned false) →
  (waitForCondition_from predicate sleep remaining i t).1 = Returned false.
Proof.
  intros Hno. revert i t. induction remaining as [|n IH]; intros i t.
  - cbn [waitForCondition_from]. unfold call_predicate.
    specialize (Hno (world t)). by destruct (predicate (world t)) as [r w].
  - cbn [waitForCondition_from].
    unfold mbind, M_bind, mret, M_ret, bind, ret, emit, call_predicate, time_Sleep.
    cbn [world events]. pose proof (Hno (world t)) as Hnow.
    destruct (predicate (world t)) as [r w]. cbn [fst] in Hnow. subst r. apply IH.
Qed.

End polling_facts.

Section skip_facts.
Import integration.

(** One entry of the skip list: an entry that is not valid UTF-8 stops the
    test with the error of [regexp.MatchString]; any other entry is looked
    for in the test name as plain text. *)
Lemma skipIfNeeded_cons pat rest name :
  skipIfNeeded (pat :: rest) name =
  if utf8.ValidString pat then
    if strings.Contains name pat then Skipped else skipIfNeeded rest name
  else FailedNow ("error parsing regexp: " +:+ regexp.QuoteMeta pat).
Proof.
  cbn [skipIfNeeded]. rewrite MatchString_QuoteMeta.
  destruct (utf8.ValidString pat); [|done]. by destruct (strings.Contains name pat).
Qed.

(** With entries that are valid UTF-8, [skipIfNeeded] never stops on an
    error, and skips exactly when the test name contains an entry of the
    skip list as plain text. *)
Lemma skipIfNeeded_Contains SkipList name :
  Forall (λ pat, utf8.ValidString pat = true) SkipList →
  skipIfNeeded SkipList name =
  if existsb (λ pat, strings.Contains name pat) SkipList then Skipped else NotSkipped.
Proof.
  induction 1 as [|pat rest Hpat _ IH]; [done|].
  rewrite skipIfNeeded_cons, Hpat. cbn [existsb].
  by destruct (strings.Contains name pat).
Qed.

Lemma skipIfNeeded_Skipped SkipList name :
  Forall (λ pat, utf8.ValidString pat = true) SkipList →
  skipIfNeeded SkipList name = Skipped ↔
  Exists (λ pat, strings.Contains name pat = true) SkipList.
Proof.
  intros Hvalid. rewrite skipIfNeeded_Contains by done.
  destruct (existsb (λ pat, strings.Contains name pat) SkipList) eqn:Hex.
  - split; [intros _|done]. apply existsb_exists in Hex as (pat & Hin & Hpat).
    apply Exists_exists. exists pat. by rewrite list_elem_of_In.
  - split; [done|]. intros (pat & Hin & Hpat)%Exists_exists.
    assert (existsb (λ pat, strings.Contains name pat) SkipList = true) as Hyes.
    { apply existsb_exists. exists pat. by rewrite <- list_elem_of_In. }
    congruence.
Qed.

Lemma skipIfNeeded_NotSkipped SkipList name :
  Forall (λ pat, utf8.ValidString pat = true) SkipList →
  skipIfNeeded SkipList name = NotSkipped ↔
  Forall (λ pat, strings.Contains name pat = false) SkipList.
Proof.
  intros Hvalid. pose proof (skipIfNeeded_Skipped SkipList name Hvalid) as Hskip.
  rewrite skipIfNeeded_Contains in Hskip |- * by done.
  destruct (existsb (λ pat, strings.Contains name pat) SkipList).
  - split; [done|]. intros Hall. destruct Hskip as [Hex _].
    apply Exists_exists in Hex as (pat & Hin & Hpat); [|done].
    rewrite Forall_forall in Hall. specialize (Hall pat Hin). congruence.
  - split; [intros _|done]. apply Forall_forall. intros pat Hin.
    destruct (strings.Contains name pat) eqn:Hpat; [|done].
    destruct Hskip as [_ Hex]. discriminate Hex. apply Exists_exists. by exists pat.
Qed.

(** An entry that is not valid UTF-8 is never passed over. *)
Lemma skipIfNeeded_invalid_entry SkipList name :
  Exists (λ pat, utf8.ValidString pat = false) SkipList →
  skipIfNeeded SkipList name ≠ NotSkipped.
Proof.
  induction SkipList as [|pat rest IH]; [by inversion 1|].
  intros Hex. rewrite skipIfNeeded_cons.
  destruct (utf8.ValidString pat) eqn:Hpat; [|done].
  destruct (strings.Contains name pat); [done|].
  apply IH. inversion Hex; [congruence|done].
Qed.

End skip_facts.

(* ===================================================================== *)
(** * Part III: the claims of the specification                           *)
(* ===================================================================== *)

Section adjuster_claims.
Import adjuster.

(** Scenario 1 of section 8, run on the embedding. *)
Example scenario_promotion :
  OTelTagAdjuster (Trace.mk [scenario_span] []) =
  (Trace.mk
     [ Span.mk (NewTraceID 0 1) 7 "op" 0 0
         [ mkKeyValue "http.method" (VStr "GET"); mkKeyValue "db.system" (VStr "pg") ]
         (Process.mk "svc"
            [ mkKeyValue "telemetry.sdk.name" (VStr "x");
              mkKeyValue "telemetry.sdk.version" (VStr "1.2") ]) ] [],
   None).
Proof. vm_compute. reflexivity. Qed.

(** C1.  For every trace, after [OTelTagAdjuster] has run, span by span:
    no tag left in the span's Tags has one of the five telemetry keys; every
    tag with such a key that was in the span's Tags is in the span's
    Process.Tags; the tags left in the span's Tags are the original ones
    without the telemetry tags, in their original relative order; and the
    span's Process.Tags is sorted ascending by Key. *)
Theorem C1_adjuster_relocates_telemetry_tags (trace : Trace.t) :
  Forall2
    (λ span span',
       Forall (λ kv, Key kv ∉ otelLibraryKeys) (Span.Tags span') ∧
       (∀ kv, kv ∈ Span.Tags span → Key kv ∈ otelLibraryKeys →
              kv ∈ Process.Tags (Span.Process span')) ∧
       Span.Tags span' = filter (λ kv, Key kv ∉ otelLibraryKeys) (Span.Tags span) ∧
       Span.Tags span' `sublist_of` Span.Tags span ∧
       StronglySorted key_le (Process.Tags (Span.Process span')))
    (Trace.Spans trace) (Trace.Spans (OTelTagAdjuster trace).1).
Proof.
  unfold OTelTagAdjuster. cbn [fst Trace.Spans].
  apply Forall2_fmap_r, Forall_Forall2_diag, Forall_forall.
  intros span _. unfold compose. cbv beta.
  rewrite adjusted_span_Tags, adjusted_span_Process_Tags.
  split_and!.
  - apply kept_no_library_key.
  - intros kv Hin Hkey. rewrite Sort_perm. apply elem_of_app. right.
    by apply list_elem_of_filter.
  - done.
  - apply sublist_filter.
  - apply Sorted_StronglySorted; [apply _|apply Sort_sorted].
Qed.

(** C2.  [OTelTagAdjuster] is idempotent: running it on its own result
    returns that result again (same trace, nil error). *)
Theorem C2_adjuster_idempotent (trace : Trace.t) :
  OTelTagAdjuster (OTelTagAdjuster trace).1 = OTelTagAdjuster trace.
Proof.
  unfold OTelTagAdjuster. cbn [fst Trace.Spans Trace.Warnings]. do 2 f_equal.
  rewrite <- list_fmap_compose. apply list_fmap_ext.
  intros _ span _. cbn [compose].
  apply adjusted_span_fixed.
  - rewrite adjusted_span_Tags. apply kept_no_library_key.
  - rewrite adjusted_span_Process_Tags. apply Sort_sorted.
Qed.

(** C9.  [OTelTagAdjuster] cannot fail and drops no span: the error is nil,
    the returned trace has as many spans as the input, and position by
    position the span is the same one: same TraceID, SpanID, operation name,
    start time, duration and process service name. *)
Theorem C9_adjuster_total_keeps_spans (trace : Trace.t) :
  (OTelTagAdjuster trace).2 = None ∧
  length (Trace.Spans (OTelTagAdjuster trace).1) = length (Trace.Spans trace) ∧
  Span.SpanID <$> Trace.Spans (OTelTagAdjuster trace).1 = Span.SpanID <$> Trace.Spans trace ∧
  Forall2
    (λ span span',
       Span.TraceID span' = Span.TraceID span ∧
       Span.SpanID span' = Span.SpanID span ∧
       Span.OperationName span' = Span.OperationName span ∧
       Span.StartTime span' = Span.StartTime span ∧
       Span.Duration span' = Span.Duration span ∧
       Process.ServiceName (Span.Process span') = Process.ServiceName (Span.Process span))
    (Trace.Spans trace) (Trace.Spans (OTelTagAdjuster trace).1) ∧
  Trace.Warnings (OTelTagAdjuster trace).1 = Trace.Warnings trace.
Proof.
  simpl. split_and!; try done.
  - apply length_fmap.
  - rewrite <- list_fmap_compose. by apply list_fmap_ext.
  - apply Forall2_fmap_r, Forall_Forall2_diag, Forall_forall. by intros span _.
Qed.

(** C10.  [OTelTagAdjuster] neither loses nor duplicates a span-level tag:
    for every span the original Tags split, as a multiset, into the tags
    still in span.Tags (none of which has a telemetry key) and the promoted
    tags (all of which have one); the promoted tags are exactly what
    Process.Tags has gained; and the two counts add up to the original
    length of span.Tags. *)
Theorem C10_adjuster_conserves_tags (trace : Trace.t) :
  Forall2
    (λ span span', ∃ moved : KeyValues,
       Span.Tags span ≡ₚ Span.Tags span' ++ moved ∧
       Process.Tags (Span.Process span') ≡ₚ Process.Tags (Span.Process span) ++ moved ∧
       Forall (λ kv, Key kv ∉ otelLibraryKeys) (Span.Tags span') ∧
       Forall (λ kv, Key kv ∈ otelLibraryKeys) moved ∧
       (length (Span.Tags span') + length moved = length (Span.Tags span))%nat)
    (Trace.Spans trace) (Trace.Spans (OTelTagAdjuster trace).1).
Proof.
  unfold OTelTagAdjuster. cbn [fst Trace.Spans].
  apply Forall2_fmap_r, Forall_Forall2_diag, Forall_forall.
  intros span _. unfold compose. cbv beta. exists (promoted (Span.Tags span)).
  rewrite adjusted_span_Tags, adjusted_span_Process_Tags.
  split_and!.
  - apply kept_promoted_perm.
  - apply Sort_perm.
  - apply kept_no_library_key.
  - apply promoted_library_key.
  - rewrite <- length_app. symmetry. apply Permutation_length, kept_promoted_perm.
Qed.

End adjuster_claims.

Section tlscfg_claims.
Import tlscfg.

(** Scenario 8 of section 8 (cipher names), run on the sample table. *)
Example scenario_cipher_names :
  CipherSuiteNamesToIDs sample_suites ["TLS_AES_128_GCM_SHA256"; "TLS_AES_256_GCM_SHA384"]
    = (Some [0x1301; 0x1302], None) ∧
  CipherSuiteNamesToIDs sample_suites ["TLS_INVALID"]
    = (None, Some "cipher suite TLS_INVALID not supported or doesn't exist") ∧
  CipherSuiteNamesToIDs sample_suites [] = (None, None).
Proof. vm_compute. done. Qed.

(** C8.  [CipherSuiteNamesToIDs], for any table of suites: when every name
    of the input is recognized, the result holds, in input order, for each
    name the ID of a suite of the table that carries the name (the last
    one, should the table repeat a name; the only one otherwise), and the
    error is nil; when some name is not recognized, the result is the nil
    slice and an error, which names the first such name; on the empty input
    the result is the nil slice and the error is nil. *)
Theorem C8_CipherSuiteNamesToIDs_cases (suites : list CipherSuite) (cipherNames : list string) :
  (Forall (recognized suites) cipherNames →
     ∃ ids,
       Forall2
         (λ name id,
            allCiphers suites !! name = Some id ∧
            (∃ before suite after,
               suites = before ++ suite :: after ∧ Name suite = name ∧ ID suite = id ∧
               Forall (λ other, Name other ≠ name) after) ∧
            (NoDup (Name <$> suites) →
             ∀ suite, suite ∈ suites → Name suite = name → ID suite = id))
         cipherNames ids ∧
       elements (CipherSuiteNamesToIDs suites cipherNames).1 = ids ∧
       (CipherSuiteNamesToIDs suites cipherNames).2 = None) ∧
  (Exists (λ name, ¬ recognized suites name) cipherNames →
     (CipherSuiteNamesToIDs suites cipherNames).1 = None ∧
     is_Some (CipherSuiteNamesToIDs suites cipherNames).2 ∧
     ∃ known bad rest,
       cipherNames = known ++ bad :: rest ∧
       Forall (recognized suites) known ∧ ¬ recognized suites bad ∧
       (CipherSuiteNamesToIDs suites cipherNames).2 =
         Some ("cipher suite " +:+ bad +:+ " not supported or doesn't exist")) ∧
  CipherSuiteNamesToIDs suites [] = (None, None).
Proof.
  split_and!; [| |done].
  - intros Hall.
    assert (∃ ids, Forall2 (λ name id, allCiphers suites !! name = Some id) cipherNames ids)
      as [ids Hids].
    { induction Hall as [|name names Hname _ [ids IH]]; [by exists []|].
      apply allCiphers_is_Some in Hname as [id Hid]. exists (id :: ids). by constructor. }
    exists ids. split_and!.
    + eapply Forall2_impl; [exact Hids|]. intros name id Hid. cbv beta. split_and!.
      * done.
      * by apply allCiphers_from_table.
      * intros Hnodup suite Hin Hname.
        exact (allCiphers_unique suites name id suite Hnodup Hid Hin Hname).
    + unfold CipherSuiteNamesToIDs. rewrite (namesToIDs_loop_ok _ _ _ _ Hids).
      by destruct Hids.
    + unfold CipherSuiteNamesToIDs. by rewrite (namesToIDs_loop_ok _ _ _ _ Hids).
  - intros (known & bad & rest & -> & Hknown & Hbad)%first_unrecognized.
    rewrite CipherSuiteNamesToIDs_first_unrecognized by done. cbn [fst snd].
    split_and!; [done|by eexists|]. by exists known, bad, rest.
Qed.

(** [CipherSuiteNamesToIDs] on a list in two parts: the error is that of the
    first part, or else that of the second; with a nil error the IDs are
    those of the first part followed by those of the second; with an error
    the slice is nil. *)
Theorem CipherSuiteNamesToIDs_app (suites : list CipherSuite) (a b : list string) :
  (CipherSuiteNamesToIDs suites (a ++ b)).2 =
    match (CipherSuiteNamesToIDs suites a).2 with
    | Some err => Some err
    | None => (CipherSuiteNamesToIDs suites b).2
    end ∧
  ((CipherSuiteNamesToIDs suites (a ++ b)).2 = None →
   elements (CipherSuiteNamesToIDs suites (a ++ b)).1 =
   elements (CipherSuiteNamesToIDs suites a).1 ++ elements (CipherSuiteNamesToIDs suites b).1) ∧
  ((CipherSuiteNamesToIDs suites (a ++ b)).2 ≠ None →
   (CipherSuiteNamesToIDs suites (a ++ b)).1 = None).
Proof.
  unfold CipherSuiteNamesToIDs.
  assert ((namesToIDs_loop (allCiphers suites) None (a ++ b)).2 =
          match (namesToIDs_loop (allCiphers suites) None a).2 with
          | Some err => Some err
          | None => (namesToIDs_loop (allCiphers suites) None b).2
          end) as Herr.
  { rewrite namesToIDs_loop_app.
    destruct (namesToIDs_loop (allCiphers suites) None a) as [s [err|]]; [done|].
    cbn [snd]. apply namesToIDs_loop_error_any. }
  split_and!; [done| |apply namesToIDs_loop_failed].
  intros Hok. rewrite Hok in Herr. clear Hok. revert Herr.
  rewrite namesToIDs_loop_app.
  destruct (namesToIDs_loop (allCiphers suites) None a) as [s [err|]]; [done|].
  cbn [fst snd]. intros Hb. apply namesToIDs_loop_elements.
  by rewrite namesToIDs_loop_error_any.
Qed.

(** [VersionNameToID]: the error is nil exactly for the names 1.0, 1.1, 1.2
    and 1.3; then the version lies between [tls.VersionTLS10] and
    [tls.VersionTLS13] and no other name has the same result; otherwise the
    version is 0 and the error quotes the name. *)
Theorem VersionNameToID_cases (quote : string → string) (versionName : string) :
  ((VersionNameToID quote versionName).2 = None ↔
   versionName ∈ ["1.0"; "1.1"; "1.2"; "1.3"]) ∧
  ((VersionNameToID quote versionName).2 = None →
   0x0301 ≤ (VersionNameToID quote versionName).1 ≤ 0x0304 ∧
   ∀ other, VersionNameToID quote other = VersionNameToID quote versionName →
            other = versionName) ∧
  ((VersionNameToID quote versionName).2 ≠ None →
   VersionNameToID quote versionName =
   (0, Some ("unknown tls version " +:+ quote versionName))).
Proof.
  unfold VersionNameToID. rewrite versions_lookup.
  split_and!.
  - rewrite !elem_of_cons, elem_of_nil.
    repeat case_decide; cbn [snd]; split; try done; intros; subst; tauto.
  - repeat case_decide; cbn [fst snd]; try done;
      (intros _; split; [done|]; intros other; rewrite versions_lookup;
       repeat case_decide; subst; done).
  - repeat case_decide; done.
Qed.


End tlscfg_claims.

Section harness_claims.
Import integration.

(** A backend that shows the written data to the third read: the world is
    the number of reads so far. *)
Example waitForCondition_third_read :
  let predicate (reads : nat) := (Returned (bool_decide (2 ≤ reads)%nat), S reads) in
  let run := waitForCondition predicate (λ _ w, w) (mkT 0%nat []) in
  run.1 = Returned true ∧
  without_logs (events run.2) =
    [ EvPredicate false; EvSleep 1000000000;
      EvPredicate false; EvSleep 1000000000;
      EvPredicate true ].
Proof. vm_compute. done. Qed.

(** A backend whose second read fails: the [require] in the predicate stops
    the test, and the loop with it. *)
Example waitForCondition_stopped :
  let predicate (reads : nat) :=
    (if bool_decide (reads = 1%nat) then Fatal "read failed" else Returned false, S reads) in
  let run := waitForCondition predicate (λ _ w, w) (mkT 0%nat []) in
  run.1 = Fatal "read failed" ∧
  without_logs (events run.2) = [ EvPredicate false; EvSleep 1000000000; EvStopped ].
Proof. vm_compute. done. Qed.

(** C4.  [waitForCondition] makes at most 100 rounds, each a call of the
    predicate that said no followed by a sleep of one second, so that every
    sleep is followed by a further call; call [j] is made on the world that
    [j] such rounds leave.  The last of these calls, the final one made
    after the 100th sleep when no earlier call said yes, gives the result
    and the world the loop ends in.  The result is true exactly when some
    call of the predicate returned true, and no call is made after the
    first one that returned true (or that stopped the test). *)
Theorem C4_waitForCondition_polls {World : Type}
    (predicate : World → outcome bool * World) (sleep : Z → World → World) (t : T) :
  let run := waitForCondition predicate sleep t in
  let at_call (j : nat) := Nat.iter j (failed_round predicate sleep) (world t) in
  ∃ (k : nat) (evs : list event),
    events run.2 = events t ++ evs ∧
    (k ≤ 100)%nat ∧
    (∀ j, (j < k)%nat → (predicate (at_call j)).1 = Returned false) ∧
    run.1 = (predicate (at_call k)).1 ∧
    world run.2 = (predicate (at_call k)).2 ∧
    without_logs evs = failed_rounds k ++ [call_event run.1] ∧
    log_lines evs = (λ j : nat, EvLogf (Z.of_nat j + 1) 100) <$> seq 0 (S k `min` 100) ∧
    sleeps evs = replicate k 1000000000 ∧
    predicate_results evs =
      replicate k false ++ match run.1 with Returned b => [b] | _ => [] end ∧
    (length (predicate_results evs) ≤ 101)%nat ∧
    ((k < 100)%nat → run.1 ≠ Returned false) ∧
    ((∀ w, ∃ b, (predicate w).1 = Returned b) →
     (∃ b, run.1 = Returned b) ∧ ((k < 100)%nat → run.1 = Returned true)) ∧
    (run.1 = Returned true ↔ true ∈ predicate_results evs) ∧
    (run.1 = Returned true ↔
     ∃ j, (j ≤ k)%nat ∧ (predicate (at_call j)).1 = Returned true).
Proof.
  intros run at_call. unfold run, at_call, waitForCondition.
  destruct (waitForCondition_from_run predicate sleep iterations 0 t)
    as (k & evs & Hk & Hno & Hres & Hworld & Hev & Hshape & Hlog & Hearly).
  set (r := (waitForCondition_from predicate sleep iterations 0 t).1) in *.
  assert (predicate_results evs =
          replicate k false ++ match r with Returned b => [b] | _ => [] end) as Hresults.
  { rewrite <- predicate_results_without_logs, Hshape, predicate_results_failed_rounds.
    by rewrite predicate_results_call_event. }
  unfold iterations in Hk, Hearly, Hlog.
  exists k, evs. split_and!; try done.
  - rewrite <- sleeps_without_logs, Hshape, sleeps_failed_rounds, sleeps_call_event.
    by rewrite app_nil_r.
  - rewrite Hresults, length_app, length_replicate. destruct r; simpl; lia.
  - intros Htotal. destruct (Htotal (Nat.iter k (failed_round predicate sleep) (world t)))
      as [b Hb].
    rewrite <- Hres in Hb. split; [by exists b|].
    intros Hlt. specialize (Hearly Hlt). rewrite Hb in Hearly |- *. by destruct b.
  - rewrite Hresults. split.
    + intros ->. apply elem_of_app. right. by apply list_elem_of_singleton.
    + intros [Hin| Hin]%elem_of_app.
      * by apply elem_of_replicate in Hin as [? _].
      * destruct r as [b| |]; [|by apply elem_of_nil in Hin..].
        by apply list_elem_of_singleton in Hin as <-.
  - split.
    + intros Hr. exists k. split; [done|]. by rewrite <- Hres.
    + intros (j & Hj & Hyes). destruct (decide (j = k)) as [->|Hne].
      * by rewrite Hres.
      * rewrite Hno in Hyes by lia. done.
Qed.

End harness_claims.

Section skip_claims.
Import integration.

(** An entry that is not valid UTF-8 (the byte 255) stops the test, even in
    front of an entry that would skip it. *)
Example skipIfNeeded_invalid_utf8 :
  ∃ err, skipIfNeeded [String "255" ""; "GetTrace"] "TestMemoryStorage/GetTrace" = FailedNow err.
Proof. eexists. by vm_compute. Qed.

(** C3.  The comment on [SkipList] lets an entry be a regular expression,
    but [skipIfNeeded] quotes every entry before matching.  For a test name
    that is valid UTF-8, as every [t.Name()] is, it goes through the
    entries in order: an entry that is valid UTF-8 is looked for in the name
    as plain text, and the test is skipped when the name contains it; an
    entry that is not valid UTF-8 stops the test with the error of
    [regexp.MatchString].  So with entries that are valid UTF-8 it skips
    exactly the tests whose name contains an entry as plain text.  With the
    entry [Get.*] the test GetServices is not skipped, although its name
    matches the entry read as a regular expression. *)
Theorem C3_skipIfNeeded_quotes_entries :
  (∀ pat rest name,
     utf8.ValidString name = true →
     (utf8.ValidString pat = true →
      skipIfNeeded (pat :: rest) name =
      if strings.Contains name pat then Skipped else skipIfNeeded rest name) ∧
     (utf8.ValidString pat = false →
      ∃ err, skipIfNeeded (pat :: rest) name = FailedNow err)) ∧
  (∀ SkipList name,
     utf8.ValidString name = true →
     Forall (λ pat, utf8.ValidString pat = true) SkipList →
     (skipIfNeeded SkipList name = Skipped ↔
      Exists (λ pat, strings.Contains name pat = true) SkipList) ∧
     (skipIfNeeded SkipList name = NotSkipped ↔
      Forall (λ pat, strings.Contains name pat = false) SkipList)) ∧
  (∀ SkipList name,
     utf8.ValidString name = true →
     Exists (λ pat, utf8.ValidString pat = false) SkipList →
     skipIfNeeded SkipList name ≠ NotSkipped) ∧
  utf8.ValidString "Get.*" = true ∧
  utf8.ValidString "TestMemoryStorage/GetServices" = true ∧
  regexp.MatchString "Get.*" "TestMemoryStorage/GetServices" = (true, None) ∧
  skip_by_regexp ["Get.*"] "TestMemoryStorage/GetServices" = Skipped ∧
  skipIfNeeded ["Get.*"] "TestMemoryStorage/GetServices" = NotSkipped.
Proof.
  split_and!; [| | |by vm_compute..].
  - intros pat rest name _. rewrite skipIfNeeded_cons. split; intros ->; [done|by eexists].
  - intros SkipList name _ Hvalid. split.
    + by apply skipIfNeeded_Skipped.
    + by apply skipIfNeeded_NotSkipped.
  - intros SkipList name _. apply skipIfNeeded_invalid_entry.
Qed.

End skip_claims.

Section correctTime_claims.
Import integration.

(** The dates written on 2 November 2026, 07:17 UTC. *)
Example dates_on_2026_11_02 :
  yesterday 1793603820 = "2026-11-01" ∧ twoDaysAgo 1793603820 = "2026-10-31".
Proof. by vm_compute. Qed.

(** C7 as stated fails in two ways.  At noon of 3 November 2026 yesterday is
    written 2026-11-02; in the input 2017-01-26017-01-25 the first pass
    leaves 2026-11-02017-01-25, where the second pass finds 2017-01-25 across
    the end of the date just written and rewrites bytes that belonged to no
    occurrence.  And on 26 January 2017 yesterday is 2017-01-25 itself, so
    the second pass turns every rewritten 2017-01-26 into the date two days
    ago. *)
Lemma C7_counterexample :
  (correctTime 1793707200 "2017-01-26017-01-25" = "2026-11-02026-11-01" ∧
   rewrite_dates 1793707200 "2017-01-26017-01-25" = "2026-11-02017-01-25") ∧
  (yesterday 1485442800 = "2017-01-25" ∧
   correctTime 1485442800 "2017-01-26T16:46:31Z" = "2017-01-24T16:46:31Z" ∧
   rewrite_dates 1485442800 "2017-01-26T16:46:31Z" = "2017-01-25T16:46:31Z") ∧
  correctTime 1793707200 "2017-01-26017-01-25" ≠
    rewrite_dates 1793707200 "2017-01-26017-01-25".
Proof. split_and!; by vm_compute. Qed.

(** C7, amended.  [correctTime] rewrites the raw bytes in two passes, first
    2017-01-26 to yesterday's UTC date, then 2017-01-25 to the UTC date two
    days ago, both written YYYY-MM-DD.  When the text of yesterday's date is
    independent of 2017-01-25 (it is not that date and cannot form it with
    the bytes before or after it), the result is the input with every
    occurrence of 2017-01-26 replaced by yesterday's date, every occurrence
    of 2017-01-25 replaced by the date two days ago, and every other byte
    unchanged.  The parser of a fixture is given the rewritten bytes. *)
Theorem C7_correctTime_rewrites_dates (now : time.Time) (json : string) :
  correctTime now json =
    strings.replace_scan "2017-01-25" (twoDaysAgo now) 0
      (strings.replace_scan "2017-01-26" (yesterday now) 0 json) ∧
  (independent (yesterday now) = true →
   correctTime now json = rewrite_dates now json) ∧
  (∀ (A : Type) (ReadFile : string → string + string) (Unmarshal : string → A + string)
     (path : string),
     ReadFile path = inl json →
     loadAndParse ReadFile Unmarshal now path =
     match Unmarshal (correctTime now json) with inl object => Some object | inr _ => None end).
Proof.
  split_and!; [apply correctTime_two_passes| |].
  - intros Hind. rewrite correctTime_two_passes. by apply two_passes_scan.
  - intros A ReadFile Unmarshal path Hread. unfold loadAndParse. by rewrite Hread.
Qed.

Lemma C7_correctTime_rewrites_dates_witness :
  independent (yesterday 1793603820) = true ∧
  correctTime 1793603820 "{start:2017-01-26T16:46:31Z,end:2017-01-25T00:00:00Z}" =
  rewrite_dates 1793603820 "{start:2017-01-26T16:46:31Z,end:2017-01-25T00:00:00Z}".
Proof.
  split; [by vm_compute|].
  apply (C7_correctTime_rewrites_dates 1793603820). by vm_compute.
Defined.

End correctTime_claims.

Section large_trace_claims.
Import integration.

(** C5 as stated fails at the second span: the loop moves the start time of
    clone 1 on by two seconds, not by one (and the span in cell 0 is the
    fixture span itself, with its own SpanID). *)
Lemma C5_counterexample :
  largeTraceSpans sample_span !! 1%nat =
    Some (Span.mk (NewTraceID 0 17) 1 "example-operation-1" 1485467193639875000 100000 []
                  (Process.mk "example-service-1" [])) ∧
  largeTraceSpans_spec sample_span !! 1%nat =
    Some (Span.mk (NewTraceID 0 17) 1 "example-operation-1" 1485467192639875000 100000 []
                  (Process.mk "example-service-1" [])) ∧
  Span.SpanID <$> largeTraceSpans sample_span !! 0%nat = Some 1 ∧
  Span.SpanID <$> largeTraceSpans_spec sample_span !! 0%nat = Some 0 ∧
  largeTraceSpans sample_span ≠ largeTraceSpans_spec sample_span.
Proof.
  assert (∀ k, (k < 2)%nat →
            largeTraceSpans_spec sample_span !! k =
            Some (Span.mk (NewTraceID 0 17) (Z.of_nat k) "example-operation-1"
                    (1485467191639875000 + Z.of_nat k * 1000000000) 100000 []
                    (Process.mk "example-service-1" []))) as Hspec.
  { intros k Hk. unfold largeTraceSpans_spec. rewrite !list_lookup_fmap.
    rewrite lookup_seq_lt by lia. done. }
  assert (largeTraceSpans sample_span !! 1%nat =
          Some (Span.mk (NewTraceID 0 17) 1 "example-operation-1" 1485467193639875000
                  100000 [] (Process.mk "example-service-1" []))) as Hcode.
  { change 1%nat with (Z.to_nat 1). by rewrite largeTraceSpans_lookup. }
  split_and!.
  - done.
  - by rewrite (Hspec 1%nat) by lia.
  - by rewrite largeTraceSpans_fmap.
  - by rewrite (Hspec 0%nat) by lia.
  - intros Heq. rewrite Heq, (Hspec 1%nat) in Hcode by lia. discriminate Hcode.
Qed.

(** C5, amended.  The large-trace test builds 10008 spans from the first
    fixture span: cell 0 holds that span itself, and for every [i] from 1 to
    10007 cell [i] holds a clone with SpanID [i] and the start time moved on
    by [i+1] seconds.  With a writer that reports no error the helper writes
    these spans in order and returns the trace; the polled closure then
    accepts a read exactly when it came back without error and with 10008
    spans.  On the sample backend, which returns what was written, the test
    passes. *)
Theorem C5_large_trace (span : Span.t) (rest : list Span.t) (warnings : list string) :
  let fixture := Trace.mk (span :: rest) warnings in
  let spans := largeTraceSpans span in
  Z.of_nat (length spans) = 10008 ∧
  spans !! 0%nat = Some span ∧
  (∀ i : Z, 1 ≤ i < 10008 →
     spans !! Z.to_nat i =
     Some (Span.mk (Span.TraceID span) i (Span.OperationName span)
                   (Span.StartTime span + (i + 1) * 1000000000)
                   (Span.Duration span) (Span.Tags span) (Span.Process span))) ∧
  (∀ (World : Type) (WriteSpan : World → Span.t → option string * World) (w : World),
     (∀ w span, (WriteSpan w span).1 = None) →
     loadParseAndWriteLargeTrace WriteSpan fixture w =
     (Returned (Trace.mk spans warnings), foldl (λ w span, (WriteSpan w span).2) w spans)) ∧
  (∀ (World : Type) (GetTrace : World → TraceID → (Trace.t + string) * World)
     (w : World) (expectedTraceID : TraceID),
     (largeSpan_found GetTrace (Trace.mk spans warnings) expectedTraceID w).1 = true ↔
     ∃ actual, (GetTrace w expectedTraceID).1 = inl actual ∧
               Z.of_nat (length (Trace.Spans actual)) = 10008) ∧
  (∀ (sleep : Z → list Span.t → list Span.t) (name : string),
     (testGetLargeSpan memory_WriteSpan memory_GetTrace memory_Refresh memory_CleanUp
        sleep [] name fixture (mkT [] [])).1 = TestPassed).
Proof.
  intros fixture spans.
  assert (Z.of_nat (length spans) = 10008) as Hlen.
  { unfold spans. rewrite largeTraceSpans_fmap. cbn [length].
    rewrite !length_fmap, length_seq. lia. }
  split_and!.
  - done.
  - unfold spans. by rewrite largeTraceSpans_fmap.
  - intros i Hi. unfold spans. by rewrite largeTraceSpans_lookup, clone_span_in_range.
  - intros World WriteSpan w Hok. unfold loadParseAndWriteLargeTrace, writeTrace.
    cbn [fixture Trace.Spans Trace.Warnings]. fold spans.
    by rewrite writeTrace_spans_ok.
  - intros World GetTrace w tid. unfold largeSpan_found.
    destruct (GetTrace w tid) as [[actual|err] w']; cbn [fst Trace.Spans].
    + rewrite bool_decide_eq_true. split.
      * intros Heq. exists actual. split; [done|]. by rewrite Heq.
      * intros (actual' & [= <-] & Hactual). lia.
    + split; [done|]. by intros (actual & [=] & _).
  - intros sleep name. unfold testGetLargeSpan, cleanUp_then. cbn [skipIfNeeded].
    unfold mbind, M_bind, mret, M_ret.
    unfold bind at 1. unfold lift at 1. cbn [world events].
    unfold loadParseAndWriteLargeTrace, writeTrace.
    cbn [fixture Trace.Spans Trace.Warnings]. fold spans.
    rewrite writeTrace_spans_ok by done. rewrite foldl_memory_WriteSpan, app_nil_l.
    pose proof (memory_large_trace_found span warnings) as Hread. fold spans in Hread.
    assert (∃ tail, spans = span :: tail) as [tail Hspans]
      by (eexists; apply largeTraceSpans_fmap).
    clearbody spans. subst spans. cbn [Trace.Spans].
    unfold bind, lift, memory_Refresh. cbn [world events].
    match goal with |- context [waitForCondition ?p sleep ?t] =>
      destruct (waitForCondition_first_call p sleep t) as [Hfound _] end.
    { rewrite returning_fst. cbn [world]. by rewrite Hread. }
    match goal with |- context [waitForCondition ?p sleep ?t] =>
      destruct (waitForCondition p sleep t) as [found t'] end.
    simpl in Hfound. subst found. done.
Qed.

(** [writeTrace] stops at the first span whose write fails: it fails with
    an error exactly when some span's write returns that error after all the
    spans before it were written, and no span after it is written; without
    an error every span has been written, in order; writing a trace is
    writing its first spans, then the others. *)
Theorem writeTrace_stops_at_first_error {World : Type}
    (WriteSpan : World → Span.t → option string * World) (trace : Trace.t) (w : World) :
  (∀ err w',
     writeTrace WriteSpan trace w = (Some err, w') ↔
     ∃ before bad after w1,
       Trace.Spans trace = before ++ bad :: after ∧
       writeTrace WriteSpan (Trace.mk before (Trace.Warnings trace)) w = (None, w1) ∧
       WriteSpan w1 bad = (Some err, w')) ∧
  (∀ w', writeTrace WriteSpan trace w = (None, w') →
         w' = foldl (λ w span, (WriteSpan w span).2) w (Trace.Spans trace)) ∧
  (∀ before after,
     Trace.Spans trace = before ++ after →
     writeTrace WriteSpan trace w =
     match writeTrace WriteSpan (Trace.mk before (Trace.Warnings trace)) w with
     | (None, w') => writeTrace WriteSpan (Trace.mk after (Trace.Warnings trace)) w'
     | failed => failed
     end).
Proof.
  unfold writeTrace. cbn [Trace.Spans]. split_and!.
  - intros err w'. apply writeTrace_spans_error.
  - intros w'. apply writeTrace_spans_world.
  - intros before after ->. apply writeTrace_spans_app.
Qed.

End large_trace_claims.

Section sampling_claims.
Import samplingstore integration.

(** C6.  [GetLatestProbabilities] returns the probabilities of one single
    snapshot of the store, one that no other snapshot is more recent than,
    whichever host wrote it.  After a snapshot of newhostname1 with
    new-srv3: op: 0.123 and then one of dell11eg843d with new-srv: op: 0.1,
    on any store, the result is exactly new-srv: op: 0.1, with no entry for
    new-srv3; and [testGetLatestProbability] passes. *)
Theorem C6_latest_probabilities_wholesale (st : Store) :
  (snapshots st ≠ [] →
     ∃ snap, snap ∈ snapshots st ∧
             GetLatestProbabilities st = snap_probabilities snap ∧
             Forall (λ other, (snap_time other ≤ snap_time snap)%nat) (snapshots st)) ∧
  (let st2 :=
     InsertProbabilitiesAndQPS "dell11eg843d"
       {[ "new-srv" := {[ "op" := float_0_1 ]} ]} {[ "new-srv" := {[ "op" := float_4 ]} ]}
       (InsertProbabilitiesAndQPS "newhostname1"
          {[ "new-srv3" := {[ "op" := float_0_123 ]} ]} {[ "new-srv2" := {[ "op" := float_11 ]} ]}
          st) in
   GetLatestProbabilities st2 = {[ "new-srv" := {[ "op" := float_0_1 ]} ]} ∧
   GetLatestProbabilities st2 !! "new-srv3" = None) ∧
  (∀ (CleanUp : Store → option string * Store) (sleep : Z → Store → Store) (name : string),
     (∀ st', (CleanUp st').1 = None) →
     (testGetLatestProbability store_Insert store_GetLatest CleanUp sleep [] name true
        (mkT st [])).1 = TestPassed).
Proof.
  split_and!.
  - intros Hne. pose proof (latest_most_recent st) as Hbest.
    unfold GetLatestProbabilities. destruct (latest st) as [best|]; [|done].
    destruct Hbest as [Hin Hmax]. by exists best.
  - cbv zeta. rewrite GetLatestProbabilities_Insert. split; [done|].
    apply lookup_singleton_ne. done.
  - intros CleanUp sleep name Hclean.
    unfold testGetLatestProbability, cleanUp_then. cbn [skipIfNeeded negb].
    unfold mbind, M_bind, mret, M_ret.
    unfold bind at 1 2. unfold lift at 1 2, store_Insert. cbn [world events].
    unfold bind.
    match goal with |- context [waitForCondition ?p sleep ?t] =>
      destruct (waitForCondition_first_call p sleep t) as [Hfound Hworld] end.
    { unfold latestProbability_found, store_GetLatest. cbn [world fst].
      rewrite GetLatestProbabilities_Insert. by rewrite bool_decide_true. }
    match goal with |- context [waitForCondition ?p sleep ?t] =>
      destruct (waitForCondition p sleep t) as [found t'] end.
    simpl in Hfound. subst found.
    unfold lift, ret. specialize (Hclean (world t')).
    destruct (CleanUp (world t')) as [err w']. simpl in Hclean. by subst err.
Qed.

End sampling_claims.

Section shared_claims.
Import adjuster.

(** The two spans that share a process, run on the embedding: the process
    receives the library tags of both. *)
Example shared_promotion :
  shared.OTelTagAdjuster shared.two_spans shared.one_process =
  Some (shared.Trace.mk
          [ shared.Span.mk (NewTraceID 0 1) 1 "parent" 0 10
              [ mkKeyValue "http.method" (VStr "GET") ] 0;
            shared.Span.mk (NewTraceID 0 1) 2 "child" 1 5
              [ mkKeyValue "db.system" (VStr "pg") ] 0 ] [],
        None,
        [ Process.mk "svc"
            [ mkKeyValue "host" (VStr "h1");
              mkKeyValue "telemetry.sdk.language" (VStr "go");
              mkKeyValue "telemetry.sdk.name" (VStr "x") ] ]).
Proof. by vm_compute. Qed.

(** With spans that may share their processes, the adjuster is idempotent:
    run on its own result it returns that result, store included. *)
Theorem shared_adjuster_idempotent (trace trace' : shared.Trace.t) (heap heap' : shared.store)
    (err : option string) :
  shared.valid trace heap →
  shared.OTelTagAdjuster trace heap = Some (trace', err, heap') →
  shared.OTelTagAdjuster trace' heap' = Some (trace', err, heap').
Proof.
  intros Hvalid. unfold shared.valid in Hvalid.
  destruct (adjustSpans_store _ _ Hvalid) as (heap1 & Hrun & Hlen & Hprocs).
  unfold shared.OTelTagAdjuster. rewrite Hrun. simpl. intros [= <- <- <-].
  cbn [shared.Trace.Spans shared.Trace.Warnings].
  rewrite adjustSpans_fixed; [done|].
  apply Forall_fmap, Forall_forall. intros span Hin. unfold compose. cbv beta.
  split; [apply kept_no_library_key|].
  rewrite Forall_forall in Hvalid.
  destruct (lookup_lt_is_Some_2 heap _ (Hvalid span Hin)) as [proc Hproc].
  destruct (Hprocs _ _ Hproc) as (proc' & Hp' & _ & _ & Hsorted & _).
  exists proc'. split; [done|]. apply Hsorted. right.
  apply list_elem_of_fmap. by exists span.
Qed.

Lemma shared_adjuster_idempotent_witness :
  ∃ trace' heap',
    shared.OTelTagAdjuster shared.two_spans shared.one_process = Some (trace', None, heap') ∧
    shared.OTelTagAdjuster trace' heap' = Some (trace', None, heap').
Proof.
  eexists _, _. split; [by vm_compute|].
  apply (shared_adjuster_idempotent shared.two_spans _ shared.one_process).
  - repeat constructor.
  - by vm_compute.
Defined.

End shared_claims.

Section aliased_claims.
Import adjuster.

(** With spans that hold their [Tags] as slices of arrays and reach their
    process through a pointer, no [Tags] slice outside its array, no nil
    process, and no two spans with [Tags] on one array (they may share their
    process): the adjuster returns, with a nil error and the spans in place;
    each span ends with the tags it showed that have no telemetry key, in
    their order; every telemetry tag it showed is in the process it points
    to, and that process has its tags sorted by key. *)
Theorem aliased_adjuster_relocates (trace : aliased.Trace.t) (h : aliased.heap) :
  aliased.valid trace h →
  aliased.separate trace →
  ∃ spans' h',
    aliased.OTelTagAdjuster trace h =
      Some (aliased.Trace.mk spans' (aliased.Trace.Warnings trace), None, h') ∧
    Forall2
      (λ span span',
         aliased.Span.SpanID span' = aliased.Span.SpanID span ∧
         aliased.Span.Process span' = aliased.Span.Process span ∧
         ∃ tags proc',
           aliased.view h (aliased.Span.Tags span) = Some tags ∧
           aliased.view h' (aliased.Span.Tags span') =
             Some (filter (λ kv, Key kv ∉ otelLibraryKeys) tags) ∧
           aliased.processes h' !! aliased.Span.Process span' = Some proc' ∧
           (∀ kv, kv ∈ tags → Key kv ∈ otelLibraryKeys → kv ∈ Process.Tags proc') ∧
           StronglySorted key_le (Process.Tags proc'))
      (aliased.Trace.Spans trace) spans'.
Proof.
  unfold aliased.valid, aliased.separate. intros Hvalid Hsep.
  destruct (aliased_valid_values _ _ Hvalid) as [vspans Hvalues].
  assert (Forall (λ span, (aliased.Span.Process span < length (aliased.processes h))%nat)
            (aliased.Trace.Spans trace)) as Hprocs.
  { eapply Forall_impl; [exact Hvalid|]. by intros span [? _]. }
  destruct (aliased_adjustSpans_sim _ _ _ Hvalues Hsep Hprocs)
    as (spans' & h' & Hrun & Hshared & Hall & _).
  assert (Forall (λ vspan, (shared.Span.Process vspan < length (aliased.processes h))%nat)
            vspans) as Hvprocs.
  { clear -Hvalues Hprocs. induction Hvalues as [|span vspan ? ? Hv _ IH]; [constructor|].
    apply Forall_cons in Hprocs as [Hp Hps]. constructor; [|by apply IH].
    apply aliased_to_shared_inv in Hv as [_ ->]. done. }
  destruct (adjustSpans_store vspans (aliased.processes h) Hvprocs)
    as (procs' & Hstore & Hlen & Hfacts).
  rewrite Hshared in Hstore. injection Hstore as <-.
  exists spans', h'. unfold aliased.OTelTagAdjuster. rewrite Hrun. cbn. split; [done|].
  eapply Forall2_impl; [apply (Forall3_Forall2_lr _ _ _ _ Hall)|].
  intros span span' (vspan & Hin & Hv & Hv' & Hproc & Hid). cbv beta.
  apply aliased_to_shared_inv in Hv as [Hview Hvp].
  apply aliased_to_shared_inv in Hv' as [Hview' _]. cbn in Hview'.
  split_and!; [done|done|].
  destruct (lookup_lt_is_Some_2 (aliased.processes h) (shared.Span.Process vspan))
    as [proc Hp].
  { rewrite Forall_forall in Hvprocs. by apply Hvprocs. }
  destruct (Hfacts _ _ Hp) as (proc' & Hp' & _ & Htags & Hsorted & _).
  exists (shared.Span.Tags vspan), proc'. split_and!; [done|done|congruence| |].
  - intros kv Hkv Hkey. rewrite Htags. apply elem_of_app. right.
    apply promoted_to_elem_of; [done|]. by apply list_elem_of_filter.
  - apply Sorted_StronglySorted; [|apply Hsorted; right].
    + intros a b c. unfold key_le. apply string_leb_trans.
    + apply list_elem_of_fmap. by exists vspan.
Qed.


Lemma aliased_adjuster_relocates_witness :
  ∃ spans' h',
    aliased.OTelTagAdjuster aliased.two_spans aliased.sample_heap =
      Some (aliased.Trace.mk spans' [], None, h') ∧
    Forall2
      (λ span span',
         aliased.Span.SpanID span' = aliased.Span.SpanID span ∧
         aliased.Span.Process span' = aliased.Span.Process span ∧
         ∃ tags proc',
           aliased.view aliased.sample_heap (aliased.Span.Tags span) = Some tags ∧
           aliased.view h' (aliased.Span.Tags span') =
             Some (filter (λ kv, Key kv ∉ otelLibraryKeys) tags) ∧
           aliased.processes h' !! aliased.Span.Process span' = Some proc' ∧
           (∀ kv, kv ∈ tags → Key kv ∈ otelLibraryKeys → kv ∈ Process.Tags proc') ∧
           StronglySorted key_le (Process.Tags proc'))
      (aliased.Trace.Spans aliased.two_spans) spans'.
Proof.
  apply (aliased_adjuster_relocates aliased.two_spans aliased.sample_heap).
  - apply (bool_decide_unpack _). by vm_compute.
  - apply (bool_decide_unpack _). by vm_compute.
Defined.

(** Under the same conditions: every process of the heap ends with its
    service name, its old tags and the tags promoted by the spans that point
    to it, each as often as it was promoted; the tags a span showed split
    into those it shows afterwards and those it promoted. *)
Theorem aliased_adjuster_conserves (trace : aliased.Trace.t) (h : aliased.heap) :
  aliased.valid trace h →
  aliased.separate trace →
  ∃ trace' h',
    aliased.OTelTagAdjuster trace h = Some (trace', None, h') ∧
    (∀ p proc, aliased.processes h !! p = Some proc →
       ∃ proc', aliased.processes h' !! p = Some proc' ∧
         Process.ServiceName proc' = Process.ServiceName proc ∧
         Process.Tags proc' ≡ₚ
           Process.Tags proc ++ aliased.promoted_to h p (aliased.Trace.Spans trace)) ∧
    Forall2
      (λ span span', ∃ tags tags',
         aliased.view h (aliased.Span.Tags span) = Some tags ∧
         aliased.view h' (aliased.Span.Tags span') = Some tags' ∧
         tags ≡ₚ tags' ++ promoted tags)
      (aliased.Trace.Spans trace) (aliased.Trace.Spans trace').
Proof.
  unfold aliased.valid, aliased.separate. intros Hvalid Hsep.
  destruct (aliased_valid_values _ _ Hvalid) as [vspans Hvalues].
  assert (Forall (λ span, (aliased.Span.Process span < length (aliased.processes h))%nat)
            (aliased.Trace.Spans trace)) as Hprocs.
  { eapply Forall_impl; [exact Hvalid|]. by intros span [? _]. }
  destruct (aliased_adjustSpans_sim _ _ _ Hvalues Hsep Hprocs)
    as (spans' & h' & Hrun & Hshared & Hall & _).
  assert (Forall (λ vspan, (shared.Span.Process vspan < length (aliased.processes h))%nat)
            vspans) as Hvprocs.
  { clear -Hvalues Hprocs. induction Hvalues as [|span vspan ? ? Hv _ IH]; [constructor|].
    apply Forall_cons in Hprocs as [Hp Hps]. constructor; [|by apply IH].
    apply aliased_to_shared_inv in Hv as [_ ->]. done. }
  destruct (adjustSpans_store vspans (aliased.processes h) Hvprocs)
    as (procs' & Hstore & Hlen & Hfacts).
  rewrite Hshared in Hstore. injection Hstore as <-.
  eexists _, h'. unfold aliased.OTelTagAdjuster. rewrite Hrun. cbn. split_and!; [done| |].
  - intros p proc Hp. destruct (Hfacts _ _ Hp) as (proc' & Hp' & Hname & Htags & _).
    exists proc'. split_and!; [done|done|]. by rewrite (aliased_promoted_to h p _ vspans).
  - eapply Forall2_impl; [apply (Forall3_Forall2_lr _ _ _ _ Hall)|].
    intros span span' (vspan & Hin & Hv & Hv' & _). cbv beta.
    apply aliased_to_shared_inv in Hv as [Hview _].
    apply aliased_to_shared_inv in Hv' as [Hview' _]. cbn in Hview'.
    eexists _, _. split_and!; [done|done|]. apply kept_promoted_perm.
Qed.

Lemma aliased_adjuster_conserves_witness :
  ∃ trace' h',
    aliased.OTelTagAdjuster aliased.two_spans aliased.sample_heap = Some (trace', None, h') ∧
    (∀ p proc, aliased.processes aliased.sample_heap !! p = Some proc →
       ∃ proc', aliased.processes h' !! p = Some proc' ∧
         Process.ServiceName proc' = Process.ServiceName proc ∧
         Process.Tags proc' ≡ₚ
           Process.Tags proc ++
           aliased.promoted_to aliased.sample_heap p (aliased.Trace.Spans aliased.two_spans)) ∧
    Forall2
      (λ span span', ∃ tags tags',
         aliased.view aliased.sample_heap (aliased.Span.Tags span) = Some tags ∧
         aliased.view h' (aliased.Span.Tags span') = Some tags' ∧
         tags ≡ₚ tags' ++ promoted tags)
      (aliased.Trace.Spans aliased.two_spans) (aliased.Trace.Spans trace').
Proof.
  apply (aliased_adjuster_conserves aliased.two_spans aliased.sample_heap).
  - apply (bool_decide_unpack _). by vm_compute.
  - apply (bool_decide_unpack _). by vm_compute.
Defined.

(** Where no two spans have their [Tags] on one array and no two spans
    share a process, the adjuster on the heap does to each span what the
    adjuster on values does: the span read back from the heap afterwards is
    the adjusted value of the span read from the heap before. *)
Theorem aliased_adjuster_agrees (trace : aliased.Trace.t) (h : aliased.heap) :
  aliased.valid trace h →
  aliased.separate trace →
  NoDup (aliased.Span.Process <$> aliased.Trace.Spans trace) →
  ∃ trace' h',
    aliased.OTelTagAdjuster trace h = Some (trace', None, h') ∧
    Forall2
      (λ span span', ∃ value,
         aliased.deref h span = Some value ∧
         aliased.deref h' span' = Some (sortProcessTags (adjustSpanTags value)))
      (aliased.Trace.Spans trace) (aliased.Trace.Spans trace').
Proof.
  unfold aliased.valid, aliased.separate. intros Hvalid Hsep Hnodup.
  destruct (aliased_valid_values _ _ Hvalid) as [vspans Hvalues].
  assert (Forall (λ span, (aliased.Span.Process span < length (aliased.processes h))%nat)
            (aliased.Trace.Spans trace)) as Hprocs.
  { eapply Forall_impl; [exact Hvalid|]. by intros span [? _]. }
  destruct (aliased_adjustSpans_sim _ _ _ Hvalues Hsep Hprocs)
    as (spans' & h' & Hrun & Hshared & Hall & _).
  assert (Forall (λ vspan, (shared.Span.Process vspan < length (aliased.processes h))%nat)
            vspans) as Hvprocs.
  { clear -Hvalues Hprocs. induction Hvalues as [|span vspan ? ? Hv _ IH]; [constructor|].
    apply Forall_cons in Hprocs as [Hp Hps]. constructor; [|by apply IH].
    apply aliased_to_shared_inv in Hv as [_ ->]. done. }
  assert (shared.Span.Process <$> vspans =
          aliased.Span.Process <$> aliased.Trace.Spans trace) as Hsame.
  { clear -Hvalues. induction Hvalues as [|span vspan ? ? Hv _ IH]; [done|].
    apply aliased_to_shared_inv in Hv as [_ Hp]. rewrite !fmap_cons, IH. by f_equal. }
  rewrite <- Hsame in Hnodup.
  pose proof (shared_adjustSpans_agrees _ _ _ _ Hnodup Hvprocs Hshared) as Hagree.
  eexists _, h'. unfold aliased.OTelTagAdjuster. rewrite Hrun. cbn. split; [done|].
  eapply Forall2_impl; [apply (Forall3_Forall2_lr _ _ _ _ Hall)|].
  intros span span' (vspan & Hin & Hv & Hv' & _). cbv beta.
  rewrite Forall_forall in Hagree. destruct (Hagree vspan Hin) as (value & Hvalue & Hvalue').
  exists value. by rewrite (aliased_deref _ _ _ Hv), (aliased_deref _ _ _ Hv').
Qed.

Lemma aliased_adjuster_agrees_witness :
  ∃ trace' h',
    aliased.OTelTagAdjuster aliased.two_spans_apart aliased.sample_heap =
      Some (trace', None, h') ∧
    Forall2
      (λ span span', ∃ value,
         aliased.deref aliased.sample_heap span = Some value ∧
         aliased.deref h' span' = Some (sortProcessTags (adjustSpanTags value)))
      (aliased.Trace.Spans aliased.two_spans_apart) (aliased.Trace.Spans trace').
Proof.
  apply (aliased_adjuster_agrees aliased.two_spans_apart aliased.sample_heap).
  - apply (bool_decide_unpack _). by vm_compute.
  - apply (bool_decide_unpack _). by vm_compute.
  - apply (bool_decide_unpack _). by vm_compute.
Defined.


(** The adjuster on the heap is idempotent, also where spans have their
    [Tags] on one array: run on its own result it returns that result, heap
    included. *)
Theorem aliased_adjuster_idempotent (trace trace' : aliased.Trace.t) (h h' : aliased.heap)
    (err : option string) :
  aliased.valid trace h →
  aliased.OTelTagAdjuster trace h = Some (trace', err, h') →
  aliased.OTelTagAdjuster trace' h' = Some (trace', err, h').
Proof.
  unfold aliased.valid, aliased.OTelTagAdjuster. intros Hvalid Hrun.
  destruct (aliased.adjustSpans (aliased.Trace.Spans trace) h) as [[spans' h1]|] eqn:Hspans;
    [|done].
  cbn in Hrun. injection Hrun as <- <- <-. cbn [aliased.Trace.Spans aliased.Trace.Warnings].
  assert (Forall (λ span, is_Some (aliased.view h (aliased.Span.Tags span)))
            (aliased.Trace.Spans trace)) as Hviews.
  { eapply Forall_impl; [exact Hvalid|]. by intros span [_ ?]. }
  destruct (aliased_adjustSpans_clean _ _ _ _ Hviews Hspans) as (Hall & _ & _).
  by rewrite (aliased_adjustSpans_fixed spans' h1 Hall).
Qed.

Lemma aliased_adjuster_idempotent_witness :
  ∃ trace' h',
    aliased.OTelTagAdjuster aliased.copied_spans aliased.sample_heap = Some (trace', None, h') ∧
    aliased.OTelTagAdjuster trace' h' = Some (trace', None, h').
Proof.
  eexists _, _. split; [by vm_compute|].
  apply (aliased_adjuster_idempotent aliased.copied_spans _ aliased.sample_heap).
  - apply (bool_decide_unpack _). by vm_compute.
  - by vm_compute.
Defined.


(** A span and a shallow copy of it (the same [Tags] slice, the same
    process), adjusted one after the other: the first ends with its kept
    tags; the copy reads the array the first one has compacted, so it ends
    with the kept tags followed by the kept ones among the cells behind
    them, and the process receives again the telemetry tags among those
    cells.  On the two tags telemetry.sdk.name, http.method the copy ends
    with http.method twice. *)
Theorem aliased_adjuster_shallow_copy (span1 span2 : aliased.Span.t)
    (warnings : list string) (h : aliased.heap) (tags : KeyValues) (proc : Process.t) :
  aliased.Span.Tags span2 = aliased.Span.Tags span1 →
  aliased.Span.Process span2 = aliased.Span.Process span1 →
  aliased.view h (aliased.Span.Tags span1) = Some tags →
  aliased.processes h !! aliased.Span.Process span1 = Some proc →
  ∃ span1' span2' h' proc',
    aliased.OTelTagAdjuster (aliased.Trace.mk [span1; span2] warnings) h =
      Some (aliased.Trace.mk [span1'; span2'] warnings, None, h') ∧
    aliased.view h' (aliased.Span.Tags span1') = Some (kept tags) ∧
    aliased.view h' (aliased.Span.Tags span2') =
      Some (kept tags ++ kept (drop (length (kept tags)) tags)) ∧
    aliased.processes h' !! aliased.Span.Process span1 = Some proc' ∧
    Process.Tags proc' ≡ₚ
      Process.Tags proc ++ promoted tags ++ promoted (drop (length (kept tags)) tags).
Proof.
  intros Hsame Hsamep Hview Hproc.
  destruct (aliased_adjustSpan_spec span1 h proc tags Hproc Hview)
    as (arr & Harr & Hbound & Htags & Hstep1).
  set (a := aliased.array (aliased.Span.Tags span1)) in *.
  set (off := aliased.offset (aliased.Span.Tags span1)) in *.
  set (len := aliased.len (aliased.Span.Tags span1)) in *.
  set (p := aliased.Span.Process span1) in *.
  destruct (aliased_array_after off len arr Hbound) as (Hlen1 & Hshow1 & _).
  rewrite <- Htags in Hlen1, Hshow1.
  set (arr1 := take off arr ++ kept tags ++ drop (off + length (kept tags)) arr) in *.
  set (proc1 := Process.mk (Process.ServiceName proc)
                  (Sort (Process.Tags proc ++ promoted tags))) in *.
  set (h1 := aliased.mkHeap (<[a := arr1]> (aliased.arrays h))
               (<[p := proc1]> (aliased.processes h))) in *.
  set (stale := drop (length (kept tags)) tags) in *.
  pose proof (kept_length tags) as Hkept.
  assert (length tags = len) as Hlent.
  { rewrite Htags, length_take, length_drop. lia. }
  assert (a < length (aliased.arrays h))%nat as Ha by (by eapply lookup_lt_Some).
  assert (p < length (aliased.processes h))%nat as Hp by (by eapply lookup_lt_Some).
  assert (aliased.view h1 (aliased.Span.Tags span2) = Some (kept tags ++ stale)) as Hview2.
  { rewrite Hsame. unfold aliased.view, h1. cbn [aliased.arrays]. fold a off len.
    rewrite list_lookup_insert_eq by done. cbn [mbind option_bind].
    rewrite decide_True by lia. by rewrite Hshow1. }
  assert (aliased.processes h1 !! aliased.Span.Process span2 = Some proc1) as Hproc2.
  { rewrite Hsamep. unfold h1. cbn [aliased.processes]. by apply list_lookup_insert_eq. }
  destruct (aliased_adjustSpan_spec span2 h1 proc1 _ Hproc2 Hview2)
    as (arr1' & Harr1 & Hbound2 & _ & Hstep2).
  rewrite Hsame in Harr1, Hbound2. rewrite Hsame, Hsamep in Hstep2.
  fold a off len p in Harr1, Hbound2, Hstep2.
  assert (arr1' = arr1) as ->.
  { unfold h1 in Harr1. cbn [aliased.arrays] in Harr1.
    rewrite list_lookup_insert_eq in Harr1 by done. congruence. }
  assert (kept (kept tags ++ stale) = kept tags ++ kept stale) as Hkept2.
  { rewrite kept_app. f_equal. apply kept_of_kept, kept_no_library_key. }
  assert (promoted (kept tags ++ stale) = promoted stale) as Hprom2.
  { rewrite promoted_app, promoted_of_kept; [done|apply kept_no_library_key]. }
  rewrite Hkept2, Hprom2 in Hstep2.
  set (arr2 := take off arr1 ++ (kept tags ++ kept stale) ++
               drop (off + length (kept tags ++ kept stale)) arr1) in *.
  assert (length (kept tags ++ kept stale) ≤ len)%nat as Hkept2len.
  { rewrite length_app. pose proof (kept_length stale) as Hs.
    unfold stale in Hs at 2. rewrite length_drop in Hs. lia. }
  assert (length arr2 = length arr) as Hlen2.
  { unfold arr2. rewrite !length_app, length_take, length_drop. 
    rewrite length_app in Hkept2len. lia. }
  eexists _, _, _, _. split_and!.
  - unfold aliased.OTelTagAdjuster. cbn [aliased.Trace.Spans aliased.adjustSpans].
    rewrite Hstep1. cbn [mbind option_bind]. fold h1. rewrite Hstep2. cbn. reflexivity.
  - unfold aliased.view.
    cbn [aliased.with_Tags aliased.Span.Tags aliased.array aliased.offset aliased.len
         aliased.arrays h1].
    rewrite list_lookup_insert_eq by (by rewrite length_insert).
    cbn [mbind option_bind]. fold arr2. rewrite decide_True by lia.
    unfold arr2. rewrite drop_app_length' by (rewrite length_take; lia).
    rewrite <- (assoc_L (++)). by rewrite take_app_length.
  - unfold aliased.view.
    cbn [aliased.with_Tags aliased.Span.Tags aliased.array aliased.offset aliased.len
         aliased.arrays h1].
    rewrite list_lookup_insert_eq by (by rewrite length_insert).
    cbn [mbind option_bind]. fold arr2. rewrite decide_True by lia.
    unfold arr2. rewrite drop_app_length' by (rewrite length_take; lia).
    by rewrite take_app_length.
  - cbn [aliased.processes h1]. apply list_lookup_insert_eq. by rewrite length_insert.
  - cbn [Process.Tags proc1]. by rewrite !Sort_perm, <- (assoc_L (++)).
Qed.

Lemma aliased_adjuster_shallow_copy_witness :
  ∃ span1' span2' h' proc',
    aliased.OTelTagAdjuster aliased.copied_spans aliased.sample_heap =
      Some (aliased.Trace.mk [span1'; span2'] [], None, h') ∧
    aliased.view h' (aliased.Span.Tags span1') =
      Some [ mkKeyValue "http.method" (VStr "GET") ] ∧
    aliased.view h' (aliased.Span.Tags span2') =
      Some [ mkKeyValue "http.method" (VStr "GET"); mkKeyValue "http.method" (VStr "GET") ] ∧
    aliased.processes h' !! 0%nat = Some proc' ∧
    Process.Tags proc' ≡ₚ
      [ mkKeyValue "host" (VStr "h1") ] ++
      [ mkKeyValue "telemetry.sdk.name" (VStr "x") ] ++ [].
Proof.
  apply (aliased_adjuster_shallow_copy
           (aliased.Span.mk (NewTraceID 0 1) 1 "parent" 0 10 (aliased.mkSlice 0 0 2) 0)
           (aliased.Span.mk (NewTraceID 0 1) 2 "parent" 2 10 (aliased.mkSlice 0 0 2) 0)
           [] aliased.sample_heap
           [ mkKeyValue "telemetry.sdk.name" (VStr "x"); mkKeyValue "http.method" (VStr "GET") ]
           (Process.mk "svc" [ mkKeyValue "host" (VStr "h1") ])); reflexivity.
Defined.

End aliased_claims.
